(** * HydroHub ledger: a hash-chained audit log

    Shallow embedding of [hydrohub/ledger.py] and of the [Ledger] table of
    [hydrohub/models.py], together with the parts of the Python standard
    library the ledger calls ([hashlib.sha256], [str.encode], [json.dumps],
    [json.loads]). Two places around the ledger are embedded as well: the
    day range that [hydrohub/reports.py] and [pages/ledger.py] hand to the
    export, and [get_user_permissions] of [hydrohub/auth.py], which decides
    who may open the ledger page.

    Conventions.
    - A Python [str] is a list of Unicode code points ([N]).
    - [bytes] are lists of [N] below 256.
    - A Python exception is a value of [exn]; a call that may raise returns
      a [result].
    - The [ledger] table is the list of its rows in insertion order; the
      queries sort it by [id] as the source asks. *)

From Stdlib Require Import NArith ZArith List Bool Lia String Ascii Sorted
  Permutation.
From Stdlib Require DecimalN.
Import ListNotations.
Local Open Scope N_scope.
#[local] Set Warnings "-register-all".

(** ** Python values shared by every section *)

Definition str := list N.
Definition bytes := list N.

(** A string literal of the source, as code points. *)
Definition lit (s : string) : str :=
  List.map N_of_ascii (list_ascii_of_string s).

Inductive exn : Type :=
| TypeError
| UnicodeEncodeError
| IntegrityError
| OperationalError.

Inductive result (A : Type) : Type :=
| Ok (a : A)
| Raise (e : exn).
Arguments Ok {A} a.
Arguments Raise {A} e.

Definition bind {A B} (r : result A) (k : A -> result B) : result B :=
  match r with
  | Ok a => k a
  | Raise e => Raise e
  end.

Notation "x <- r ;; k" := (bind r (fun x => k))
  (at level 61, r at next level, right associativity).

Fixpoint str_eqb (a b : str) : bool :=
  match a, b with
  | [], [] => true
  | x :: a', y :: b' => (x =? y) && str_eqb a' b'
  | _, _ => false
  end.

(** Lexicographic order on code points: Python's [<=] on [str] and SQLite's
    BINARY collation on UTF-8 text agree with it. *)
Fixpoint str_leb (a b : str) : bool :=
  match a, b with
  | [], _ => true
  | _ :: _, [] => false
  | x :: a', y :: b' => (x <? y) || ((x =? y) && str_leb a' b')
  end.

(** ** hashlib.sha256 (FIPS 180-4) on 32-bit words held in [N] *)

Module SHA256.

Definition mask32 : N := 0xFFFFFFFF.
Definition add32 (x y : N) : N := N.land (x + y) mask32.
Definition not32 (x : N) : N := N.lxor x mask32.
Definition rotr (n x : N) : N :=
  N.lor (N.shiftr x n) (N.land (N.shiftl x (32 - n)) mask32).
Definition shr (n x : N) : N := N.shiftr x n.

Definition Ch (x y z : N) : N := N.lxor (N.land x y) (N.land (not32 x) z).
Definition Maj (x y z : N) : N :=
  N.lxor (N.lxor (N.land x y) (N.land x z)) (N.land y z).
Definition bsig0 (x : N) : N := N.lxor (N.lxor (rotr 2 x) (rotr 13 x)) (rotr 22 x).
Definition bsig1 (x : N) : N := N.lxor (N.lxor (rotr 6 x) (rotr 11 x)) (rotr 25 x).
Definition ssig0 (x : N) : N := N.lxor (N.lxor (rotr 7 x) (rotr 18 x)) (shr 3 x).
Definition ssig1 (x : N) : N := N.lxor (N.lxor (rotr 17 x) (rotr 19 x)) (shr 10 x).

(** The round constants and the initial chaining words are defined as the
    standard defines them: the first 32 bits of the fractional parts of the
    cube roots of the first sixty-four primes, and of the square roots of
    the first eight. *)
Definition is_prime (n : N) : bool :=
  (2 <=? n) &&
  List.forallb (fun d => negb (n mod d =? 0))
               (List.map N.of_nat (List.seq 2 (N.to_nat n - 2))).

Definition primes : list N :=
  List.filter is_prime (List.map N.of_nat (List.seq 2 310)).

(** Integer cube root, one bit at a time from bit 35 down. *)
Definition icbrt (n : N) : N :=
  List.fold_left
    (fun r b => let c := N.lor r (N.shiftl 1 b) in if c * c * c <=? n then c else r)
    (List.rev (List.map N.of_nat (List.seq 0 36))) 0.

Definition frac32_cbrt (p : N) : N := N.land (icbrt (N.shiftl p 96)) mask32.
Definition frac32_sqrt (p : N) : N := N.land (N.sqrt (N.shiftl p 64)) mask32.

Definition K : list N := Eval vm_compute in List.map frac32_cbrt primes.

(** The eight chaining words. *)
Record state : Type := St {
  ha : N; hb : N; hc : N; hd : N; he : N; hf : N; hg : N; hh : N
}.

Definition H0 : state :=
  Eval vm_compute in
    match List.map frac32_sqrt (List.firstn 8 primes) with
    | [a; b; c; d; e; f; g; h] => St a b c d e f g h
    | _ => St 0 0 0 0 0 0 0 0
    end.

(** Padding: the byte 0x80, zero bytes up to 56 modulo 64, then the bit
    length as a 64-bit big-endian number. *)
Fixpoint be_bytes (k : nat) (x : N) : bytes :=
  match k with
  | O => []
  | S k' => N.land (N.shiftr x (8 * N.of_nat k')) 255 :: be_bytes k' x
  end.

Definition pad (msg : bytes) : bytes :=
  let len := N.of_nat (List.length msg) in
  let zeros := N.to_nat ((119 - len mod 64) mod 64) in
  msg ++ 128 :: List.repeat 0 zeros ++ be_bytes 8 (8 * len).

(** Big-endian 32-bit words; an incomplete trailing group is dropped (the
    padded message has none). *)
Fixpoint words (b : bytes) : list N :=
  match b with
  | b0 :: b1 :: b2 :: b3 :: rest =>
      N.lor (N.shiftl b0 24) (N.lor (N.shiftl b1 16) (N.lor (N.shiftl b2 8) b3))
      :: words rest
  | _ => []
  end.

(** The message schedule, newest word first: [schedule] extends the sixteen
    block words to sixty-four. *)
Fixpoint extend (k : nat) (w : list N) : list N :=
  match k with
  | O => w
  | S k' =>
      let wt := add32 (add32 (ssig1 (nth 1 w 0)) (nth 6 w 0))
                      (add32 (ssig0 (nth 14 w 0)) (nth 15 w 0)) in
      extend k' (wt :: w)
  end.

Definition schedule (block : list N) : list N :=
  List.rev (extend 48 (List.rev block)).

Definition round (s : state) (kw : N * N) : state :=
  let (k, w) := kw in
  let t1 := add32 (add32 (add32 (hh s) (bsig1 (he s)))
                         (add32 (Ch (he s) (hf s) (hg s)) k)) w in
  let t2 := add32 (bsig0 (ha s)) (Maj (ha s) (hb s) (hc s)) in
  St (add32 t1 t2) (ha s) (hb s) (hc s) (add32 (hd s) t1) (he s) (hf s) (hg s).

Definition compress (h : state) (block : list N) : state :=
  let s := List.fold_left round (List.combine K (schedule block)) h in
  St (add32 (ha h) (ha s)) (add32 (hb h) (hb s))
     (add32 (hc h) (hc s)) (add32 (hd h) (hd s))
     (add32 (he h) (he s)) (add32 (hf h) (hf s))
     (add32 (hg h) (hg s)) (add32 (hh h) (hh s)).

(** One step per sixteen words; the fuel is the number of words, which is
    more than the number of blocks. *)
Fixpoint blocks (fuel : nat) (h : state) (w : list N) : state :=
  match fuel with
  | O => h
  | S fuel' =>
      match w with
      | [] => h
      | _ => blocks fuel' (compress h (List.firstn 16 w)) (List.skipn 16 w)
      end
  end.

Definition digest (msg : bytes) : state :=
  let w := words (pad msg) in
  blocks (List.length w) H0 w.

(** [hexdigest]: eight lowercase hexadecimal digits per word. *)
Definition hexchar (d : N) : N := if d <? 10 then 48 + d else 87 + d.

Fixpoint hex_digits (k : nat) (x : N) : str :=
  match k with
  | O => []
  | S k' => hexchar (N.land (N.shiftr x (4 * N.of_nat k')) 15) :: hex_digits k' x
  end.

Definition hexdigest (msg : bytes) : str :=
  let s := digest msg in
  hex_digits 8 (ha s) ++ hex_digits 8 (hb s) ++ hex_digits 8 (hc s) ++
  hex_digits 8 (hd s) ++ hex_digits 8 (he s) ++ hex_digits 8 (hf s) ++
  hex_digits 8 (hg s) ++ hex_digits 8 (hh s).

End SHA256.

(** ** str.encode('utf-8') *)

Definition utf8_char (c : N) : result bytes :=
  if c <? 0x80 then Ok [c]
  else if c <? 0x800 then
    Ok [N.lor 0xC0 (N.shiftr c 6); N.lor 0x80 (N.land c 0x3F)]
  else if c <? 0x10000 then
    if (0xD800 <=? c) && (c <=? 0xDFFF) then Raise UnicodeEncodeError
    else Ok [N.lor 0xE0 (N.shiftr c 12);
             N.lor 0x80 (N.land (N.shiftr c 6) 0x3F);
             N.lor 0x80 (N.land c 0x3F)]
  else if c <? 0x110000 then
    Ok [N.lor 0xF0 (N.shiftr c 18);
        N.lor 0x80 (N.land (N.shiftr c 12) 0x3F);
        N.lor 0x80 (N.land (N.shiftr c 6) 0x3F);
        N.lor 0x80 (N.land c 0x3F)]
  else Raise UnicodeEncodeError.

Fixpoint utf8_encode (s : str) : result bytes :=
  match s with
  | [] => Ok []
  | c :: s' =>
      b <- utf8_char c ;;
      bs <- utf8_encode s' ;;
      Ok (b ++ bs)
  end.

(** ** str(int) *)

Fixpoint str_of_uint (d : Decimal.uint) : str :=
  match d with
  | Decimal.Nil => []
  | Decimal.D0 d' => 48 :: str_of_uint d'
  | Decimal.D1 d' => 49 :: str_of_uint d'
  | Decimal.D2 d' => 50 :: str_of_uint d'
  | Decimal.D3 d' => 51 :: str_of_uint d'
  | Decimal.D4 d' => 52 :: str_of_uint d'
  | Decimal.D5 d' => 53 :: str_of_uint d'
  | Decimal.D6 d' => 54 :: str_of_uint d'
  | Decimal.D7 d' => 55 :: str_of_uint d'
  | Decimal.D8 d' => 56 :: str_of_uint d'
  | Decimal.D9 d' => 57 :: str_of_uint d'
  end.

Definition str_of_N (n : N) : str := str_of_uint (N.to_uint n).

Definition str_of_Z (z : Z) : str :=
  match z with
  | Zneg p => 45 :: str_of_N (Npos p)
  | _ => str_of_N (Z.to_N z)
  end.

(** ** hydrohub.ledger.create_data_hash *)

(** [actor_id or '']: the integer when it is truthy, the empty string for
    [None] and for [0]. *)
Inductive int_or_str : Type :=
| IsInt (z : Z)
| IsStr (s : str).

Definition or_empty (actor_id : option Z) : int_or_str :=
  match actor_id with
  | Some z => if Z.eqb z 0 then IsStr [] else IsInt z
  | None => IsStr []
  end.

(** A replacement field of an f-string. *)
Definition format (v : int_or_str) : str :=
  match v with
  | IsInt z => str_of_Z z
  | IsStr s => s
  end.

Definition bar : str := lit "|".

Definition hash_payload (timestamp prev_hash : str) (actor_id : option Z)
    (data_text : str) : str :=
  timestamp ++ bar ++ prev_hash ++ bar ++ format (or_empty actor_id) ++ bar
  ++ data_text.

Definition create_data_hash (timestamp prev_hash : str) (actor_id : option Z)
    (data_text : str) : result str :=
  let payload := hash_payload timestamp prev_hash actor_id data_text in
  b <- utf8_encode payload ;;
  Ok (SHA256.hexdigest b).


(** ** json.dumps(obj, sort_keys=True, separators=(',', ':')) *)

(** A [float]. The 64-bit value is not modelled: a finite float is carried by
    the decimal text [repr] gives it (sign, integer digits, fraction digits,
    exponent), which is all the encoder looks at. *)
Inductive pyfloat : Type :=
| FNaN
| FInf
| FNegInf
| FFinite (negative : bool) (int_part : N) (frac : list N) (exponent : option Z).

(** Dictionary keys. [KeyOther] is any hashable object the encoder refuses as
    a key (a tuple, say). Float keys are left out of the model. *)
Inductive pykey : Type :=
| KeyStr (s : str)
| KeyInt (z : Z)
| KeyBool (b : bool)
| KeyNone
| KeyOther.

(** The objects a caller can hand to [json.dumps]. [PList] stands for lists
    and tuples alike; [POther] is any object without a JSON encoding (a set,
    a [datetime], a [Decimal], ...). A dictionary lists its items in
    insertion order. *)
Inductive pyval : Type :=
| PNone
| PBool (b : bool)
| PInt (z : Z)
| PFloat (f : pyfloat)
| PStr (s : str)
| PList (l : list pyval)
| PDict (items : list (pykey * pyval))
| POther.

(** The JSON document: what the encoder writes and what the decoder reads
    back. A number keeps its literal text (Python turns it into an [int] or
    a [float]; the ledger never looks inside). *)
Inductive json : Type :=
| JNull
| JBool (b : bool)
| JNumber (tok : str)
| JString (s : str)
| JArray (l : list json)
| JObject (members : list (str * json)).

Definition digit_char (d : N) : N := 48 + d mod 10.

Definition pad2 (n : N) : str :=
  if n <? 10 then 48 :: str_of_N n else str_of_N n.

(** [float.__repr__] for a finite float; with [allow_nan] left at its default
    the three special values are written as bare words. *)
Definition float_repr (f : pyfloat) : str :=
  match f with
  | FNaN => lit "NaN"
  | FInf => lit "Infinity"
  | FNegInf => lit "-Infinity"
  | FFinite neg ip fr ex =>
      (if neg then [45] else []) ++ str_of_N ip ++
      match fr, ex with
      | [], None => lit ".0"
      | [], Some _ => []
      | _ :: _, _ => 46 :: List.map digit_char fr
      end ++
      match ex with
      | None => []
      | Some e => 101 :: (if Z.ltb e 0 then 45 else 43) :: pad2 (Z.abs_N e)
      end
  end.

Definition key_text (k : pykey) : result str :=
  match k with
  | KeyStr s => Ok s
  | KeyInt z => Ok (str_of_Z z)
  | KeyBool true => Ok (lit "true")
  | KeyBool false => Ok (lit "false")
  | KeyNone => Ok (lit "null")
  | KeyOther => Raise TypeError
  end.

(** [sorted(dct.items())]: strings compare with strings, integers and
    booleans with each other; any other pair raises [TypeError]. *)
Definition key_is_str (k : pykey) : bool :=
  match k with KeyStr _ => true | _ => false end.

Definition key_is_num (k : pykey) : bool :=
  match k with KeyInt _ | KeyBool _ => true | _ => false end.

Definition key_num (k : pykey) : Z :=
  match k with
  | KeyInt z => z
  | KeyBool true => 1%Z
  | _ => 0%Z
  end.

Definition key_leb (a b : pykey) : bool :=
  match a, b with
  | KeyStr x, KeyStr y => str_leb x y
  | _, _ => Z.leb (key_num a) (key_num b)
  end.

Definition sortable {A} (items : list (pykey * A)) : bool :=
  match items with
  | [] | [_] => true
  | _ => List.forallb (fun kv => key_is_str (fst kv)) items
         || List.forallb (fun kv => key_is_num (fst kv)) items
  end.

Fixpoint insert_item {A} (x : pykey * A) (l : list (pykey * A)) :=
  match l with
  | [] => [x]
  | y :: l' => if key_leb (fst x) (fst y) then x :: l else y :: insert_item x l'
  end.

Fixpoint sort_items {A} (l : list (pykey * A)) :=
  match l with
  | [] => []
  | x :: l' => insert_item x (sort_items l')
  end.

Fixpoint keys_to_text (l : list (pykey * json)) : result (list (str * json)) :=
  match l with
  | [] => Ok []
  | (k, v) :: l' =>
      t <- key_text k ;;
      r <- keys_to_text l' ;;
      Ok ((t, v) :: r)
  end.

(** The tree the encoder walks. Every failure of the encoder modelled here
    is a [TypeError], so the values are translated before the items are
    sorted (the encoder sorts first); the exception raised is the same.
    The limits of the interpreter (an integer of more than 4300 digits,
    nesting beyond the recursion limit) are not modelled: the values
    encoded here include those encoded there. *)
Fixpoint to_json (v : pyval) : result json :=
  match v with
  | PNone => Ok JNull
  | PBool b => Ok (JBool b)
  | PInt z => Ok (JNumber (str_of_Z z))
  | PFloat f => Ok (JNumber (float_repr f))
  | PStr s => Ok (JString s)
  | PList l =>
      js <- (fix elems (l : list pyval) : result (list json) :=
               match l with
               | [] => Ok []
               | x :: l' =>
                   j <- to_json x ;;
                   r <- elems l' ;;
                   Ok (j :: r)
               end) l ;;
      Ok (JArray js)
  | PDict items =>
      kjs <- (fix conv (l : list (pykey * pyval)) : result (list (pykey * json)) :=
                match l with
                | [] => Ok []
                | (k, x) :: l' =>
                    j <- to_json x ;;
                    r <- conv l' ;;
                    Ok ((k, j) :: r)
                end) items ;;
      if sortable kjs then
        m <- keys_to_text (sort_items kjs) ;;
        Ok (JObject m)
      else Raise TypeError
  | POther => Raise TypeError
  end.

(** [ensure_ascii] string escaping. *)
Definition hex4 (n : N) : str := SHA256.hex_digits 4 n.

Definition escape_unit (c : N) : str :=
  if c =? 34 then [92; 34]
  else if c =? 92 then [92; 92]
  else if (32 <=? c) && (c <=? 126) then [c]
  else if c =? 8 then [92; 98]
  else if c =? 12 then [92; 102]
  else if c =? 10 then [92; 110]
  else if c =? 13 then [92; 114]
  else if c =? 9 then [92; 116]
  else 92 :: 117 :: hex4 c.

Definition escape_char (c : N) : str :=
  if c <? 0x10000 then escape_unit c
  else
    let n := c - 0x10000 in
    let s1 := N.lor 0xd800 (N.land (N.shiftr n 10) 0x3ff) in
    let s2 := N.lor 0xdc00 (N.land n 0x3ff) in
    (92 :: 117 :: hex4 s1) ++ (92 :: 117 :: hex4 s2).

Definition encode_string (s : str) : str :=
  34 :: List.flat_map escape_char s ++ [34].

Fixpoint render (j : json) : str :=
  match j with
  | JNull => lit "null"
  | JBool true => lit "true"
  | JBool false => lit "false"
  | JNumber tok => tok
  | JString s => encode_string s
  | JArray l =>
      91 :: (fix elems (l : list json) : str :=
               match l with
               | [] => [93]
               | [x] => render x ++ [93]
               | x :: l' => render x ++ 44 :: elems l'
               end) l
  | JObject m =>
      123 :: (fix members (m : list (str * json)) : str :=
                match m with
                | [] => [125]
                | [(k, x)] => encode_string k ++ 58 :: render x ++ [125]
                | (k, x) :: m' => encode_string k ++ 58 :: render x ++ 44 :: members m'
                end) m
  end.

Definition json_dumps (v : pyval) : result str :=
  j <- to_json v ;;
  Ok (render j).

(** ** json.loads *)

Definition is_ws (c : N) : bool :=
  (c =? 32) || (c =? 9) || (c =? 10) || (c =? 13).

Fixpoint skip_ws (s : str) : str :=
  match s with
  | c :: s' => if is_ws c then skip_ws s' else s
  | [] => []
  end.

Definition is_digit (c : N) : bool := (48 <=? c) && (c <=? 57).

Fixpoint span_digits (s : str) : str * str :=
  match s with
  | c :: s' =>
      if is_digit c then let (d, r) := span_digits s' in (c :: d, r)
      else ([], s)
  | [] => ([], [])
  end.

Definition hex_value (c : N) : option N :=
  if is_digit c then Some (c - 48)
  else if (97 <=? c) && (c <=? 102) then Some (c - 87)
  else if (65 <=? c) && (c <=? 70) then Some (c - 55)
  else None.

Definition decode_uXXXX (h1 h2 h3 h4 : N) : option N :=
  match hex_value h1, hex_value h2, hex_value h3, hex_value h4 with
  | Some a, Some b, Some c, Some d => Some (4096 * a + 256 * b + 16 * c + d)
  | _, _, _, _ => None
  end.

Definition unescape (e : N) : option N :=
  if e =? 34 then Some 34
  else if e =? 92 then Some 92
  else if e =? 47 then Some 47
  else if e =? 98 then Some 8
  else if e =? 102 then Some 12
  else if e =? 110 then Some 10
  else if e =? 114 then Some 13
  else if e =? 116 then Some 9
  else None.

Definition is_high (u : N) : bool := (0xd800 <=? u) && (u <=? 0xdbff).
Definition is_low (u : N) : bool := (0xdc00 <=? u) && (u <=? 0xdfff).
Definition join_pair (hi lo : N) : N :=
  0x10000 + N.lor (N.shiftl (hi - 0xd800) 10) (lo - 0xdc00).

Definition push (c : N) (r : option (str * str)) : option (str * str) :=
  match r with
  | Some (t, rest) => Some (c :: t, rest)
  | None => None
  end.

(** [py_scanstring] in strict mode, entered after the opening quote: the
    decoded text and what follows the closing quote. After a high surrogate
    the scanner looks ahead for an escaped low surrogate and joins the two. *)
Fixpoint scanstring (s : str) : option (str * str) :=
  match s with
  | [] => None
  | c :: r =>
      if c =? 34 then Some ([], r)
      else if c =? 92 then
        match r with
        | [] => None
        | e :: r1 =>
            if e =? 117 then
              match r1 with
              | h1 :: h2 :: h3 :: h4 :: r2 =>
                  match decode_uXXXX h1 h2 h3 h4 with
                  | None => None
                  | Some uni =>
                      if is_high uni then
                        match r2 with
                        | b :: r2' =>
                            if b =? 92 then
                              match r2' with
                              | u :: r2'' =>
                                  if u =? 117 then
                                    match r2'' with
                                    | g1 :: g2 :: g3 :: g4 :: r3 =>
                                        match decode_uXXXX g1 g2 g3 g4 with
                                        | None => None
                                        | Some uni2 =>
                                            if is_low uni2
                                            then push (join_pair uni uni2) (scanstring r3)
                                            else push uni (scanstring r2)
                                        end
                                    | _ => None
                                    end
                                  else push uni (scanstring r2)
                              | [] => push uni (scanstring r2)
                              end
                            else push uni (scanstring r2)
                        | [] => push uni (scanstring r2)
                        end
                      else push uni (scanstring r2)
                  end
              | _ => None
              end
            else
              match unescape e with
              | Some ch => push ch (scanstring r1)
              | None => None
              end
        end
      else if c <? 32 then None
      else push c (scanstring r)
  end.

(** NUMBER_RE: an optional minus sign, then a single zero or a nonzero digit
    followed by digits; an optional fraction (a dot and at least one digit);
    an optional exponent (e or E, an optional sign, at least one digit). *)
Definition match_int (s : str) : option (str * str) :=
  match s with
  | c :: r =>
      if c =? 48 then Some ([c], r)
      else if is_digit c then let (d, r') := span_digits r in Some (c :: d, r')
      else None
  | [] => None
  end.

Definition match_frac (s : str) : str * str :=
  match s with
  | c :: r =>
      if c =? 46 then
        match span_digits r with
        | ([], _) => ([], s)
        | (d, r') => (c :: d, r')
        end
      else ([], s)
  | [] => ([], s)
  end.

Definition match_exp (s : str) : str * str :=
  match s with
  | c :: r =>
      if (c =? 101) || (c =? 69) then
        let (sign, r0) :=
          match r with
          | g :: r' => if (g =? 45) || (g =? 43) then ([g], r') else ([], r)
          | [] => ([], r)
          end in
        match span_digits r0 with
        | ([], _) => ([], s)
        | (d, r') => (c :: sign ++ d, r')
        end
      else ([], s)
  | [] => ([], s)
  end.

Definition match_number (s : str) : option (str * str) :=
  let (sign, s0) :=
    match s with
    | c :: r => if c =? 45 then ([c], r) else ([], s)
    | [] => ([], s)
    end in
  match match_int s0 with
  | None => None
  | Some (i, s1) =>
      let (f, s2) := match_frac s1 in
      let (e, s3) := match_exp s2 in
      Some (sign ++ i ++ f ++ e, s3)
  end.

Fixpoint strip_prefix (p s : str) : option str :=
  match p, s with
  | [], _ => Some s
  | a :: p', b :: s' => if a =? b then strip_prefix p' s' else None
  | _ :: _, [] => None
  end.

Definition word (w : string) (v : json) (s : str) : option (json * str) :=
  match strip_prefix (lit w) s with
  | Some r => Some (v, r)
  | None => None
  end.

(** The words and numbers of [scan_once], tried in its order: [null],
    [true], [false], a number, then [NaN], [Infinity] and [-Infinity]. *)
Definition scan_scalar (s : str) : option (json * str) :=
  match word "null" JNull s with
  | Some x => Some x
  | None =>
  match word "true" (JBool true) s with
  | Some x => Some x
  | None =>
  match word "false" (JBool false) s with
  | Some x => Some x
  | None =>
  match match_number s with
  | Some (tok, r') => Some (JNumber tok, r')
  | None =>
  match word "NaN" (JNumber (lit "NaN")) s with
  | Some x => Some x
  | None =>
  match word "Infinity" (JNumber (lit "Infinity")) s with
  | Some x => Some x
  | None => word "-Infinity" (JNumber (lit "-Infinity")) s
  end end end end end end.

(** The scanner of [json.decoder]: [parse_value] is [scan_once],
    [parse_elems] the loop of [JSONArray] and [parse_members] the loop of
    [JSONObject]. Each call spends one unit of fuel. *)
Fixpoint parse_value (fuel : nat) (s : str) : option (json * str) :=
  match fuel with
  | O => None
  | S f =>
      match s with
      | [] => None
      | c :: r =>
          if c =? 34 then
            match scanstring r with
            | Some (t, r') => Some (JString t, r')
            | None => None
            end
          else if c =? 123 then
            match skip_ws r with
            | d :: r' =>
                if d =? 125 then Some (JObject [], r')
                else match parse_members f (d :: r') with
                     | Some (m, r'') => Some (JObject m, r'')
                     | None => None
                     end
            | [] => None
            end
          else if c =? 91 then
            match skip_ws r with
            | d :: r' =>
                if d =? 93 then Some (JArray [], r')
                else match parse_elems f (d :: r') with
                     | Some (l, r'') => Some (JArray l, r'')
                     | None => None
                     end
            | [] => None
            end
          else scan_scalar s
      end
  end

with parse_elems (fuel : nat) (s : str) : option (list json * str) :=
  match fuel with
  | O => None
  | S f =>
      match parse_value f s with
      | None => None
      | Some (v, r) =>
          match skip_ws r with
          | d :: r' =>
              if d =? 93 then Some ([v], r')
              else if d =? 44 then
                match parse_elems f (skip_ws r') with
                | Some (l, r'') => Some (v :: l, r'')
                | None => None
                end
              else None
          | [] => None
          end
      end
  end

with parse_members (fuel : nat) (s : str) : option (list (str * json) * str) :=
  match fuel with
  | O => None
  | S f =>
      match s with
      | q :: r0 =>
          if q =? 34 then
            match scanstring r0 with
            | None => None
            | Some (k, r1) =>
                match skip_ws r1 with
                | c :: r2 =>
                    if c =? 58 then
                      match parse_value f (skip_ws r2) with
                      | None => None
                      | Some (v, r3) =>
                          match skip_ws r3 with
                          | d :: r4 =>
                              if d =? 125 then Some ([(k, v)], r4)
                              else if d =? 44 then
                                match parse_members f (skip_ws r4) with
                                | Some (m, r5) => Some ((k, v) :: m, r5)
                                | None => None
                                end
                              else None
                          | [] => None
                          end
                      end
                    else None
                | [] => None
                end
            end
          else None
      | [] => None
      end
  end.

(** [json.loads]: one value between optional white space, nothing after it;
    [None] is [JSONDecodeError]. The limits of the interpreter (an integer
    of more than 4300 digits, nesting beyond the recursion limit) are not
    modelled: where [json.loads] returns, it returns what is computed here,
    and statements about texts of any origin are made for that case. *)
Definition json_loads (s : str) : option json :=
  match parse_value (2 * List.length s + 1) (skip_ws s) with
  | Some (v, r) =>
      match skip_ws r with
      | [] => Some v
      | _ => None
      end
  | None => None
  end.

(** *** What the decoder returns on the encoder's output

    The encoder writes a code point above U+FFFF as two escaped UTF-16
    units and the decoder joins an escaped high surrogate with an escaped
    low surrogate that follows it; [decoded s] is the text read back from
    the encoding of [s] (it is [s] itself unless [s] holds surrogates side
    by side). *)

Definition units (c : N) : list N :=
  if c <? 0x10000 then [c]
  else
    let n := c - 0x10000 in
    [N.lor 0xd800 (N.land (N.shiftr n 10) 0x3ff); N.lor 0xdc00 (N.land n 0x3ff)].

Fixpoint join (us : list N) : str :=
  match us with
  | [] => []
  | u :: r =>
      match r with
      | v :: r' => if is_high u && is_low v then join_pair u v :: join r' else u :: join r
      | [] => [u]
      end
  end.

Definition decoded (s : str) : str := join (List.flat_map units s).

Fixpoint norm (j : json) : json :=
  match j with
  | JString s => JString (decoded s)
  | JArray l => JArray (List.map norm l)
  | JObject m => JObject (List.map (fun kv => (decoded (fst kv), norm (snd kv))) m)
  | _ => j
  end.

(** The number texts the encoder writes. *)
Definition number_text (tok : str) : Prop :=
  (exists z, tok = str_of_Z z) \/ (exists f, tok = float_repr f).

Inductive wf_json : json -> Prop :=
| wf_null : wf_json JNull
| wf_bool b : wf_json (JBool b)
| wf_number tok : number_text tok -> wf_json (JNumber tok)
| wf_string s : wf_json (JString s)
| wf_array l : Forall wf_json l -> wf_json (JArray l)
| wf_object m : Forall (fun kv => wf_json (snd kv)) m -> wf_json (JObject m).

(** Fuel that is enough to read a document back. *)
Fixpoint need (j : json) : nat :=
  match j with
  | JArray l =>
      S ((fix sum (l : list json) : nat :=
            match l with
            | [] => O
            | x :: l' => S (need x + sum l')
            end) l)
  | JObject m =>
      S ((fix sum (m : list (str * json)) : nat :=
            match m with
            | [] => O
            | (_, x) :: m' => S (need x + sum m')
            end) m)
  | _ => 1%nat
  end.

Definition starts_ok (p : N -> bool) (s : str) : Prop :=
  match s with
  | [] => True
  | c :: _ => p c = true
  end.

Definition is_stop (c : N) : bool := (c =? 44) || (c =? 93) || (c =? 125).

(** What follows a value inside a rendered document: a comma, a closing
    bracket or brace, or nothing. *)
Definition stop (rest : str) : Prop := starts_ok is_stop rest.

(** ** hydrohub.models.Ledger and the store *)

Record Ledger : Type := {
  id : Z;
  timestamp : str;
  prev_hash : str;
  data_hash : str;
  actor_id : option Z;
  action_type : str;
  data_text : str
}.

(** The [ledger] table. *)
Definition table := list Ledger.

Section OrderBy.
Variable leb : Ledger -> Ledger -> bool.

Fixpoint insert_by (x : Ledger) (l : list Ledger) : list Ledger :=
  match l with
  | [] => [x]
  | y :: l' => if leb x y then x :: l else y :: insert_by x l'
  end.

Fixpoint sort_by (l : list Ledger) : list Ledger :=
  match l with
  | [] => []
  | x :: l' => insert_by x (sort_by l')
  end.
End OrderBy.

(** [order_by(Ledger.id.asc())] and [order_by(Ledger.id.desc())]. *)
Definition order_by_id_asc : table -> list Ledger :=
  sort_by (fun a b => Z.leb (id a) (id b)).
Definition order_by_id_desc : table -> list Ledger :=
  sort_by (fun a b => Z.leb (id b) (id a)).

(** A session collects the rows handed to [session.add]; a row gets its
    [id] when the session is flushed. *)
Record Session : Type := { pending : list (Z -> Ledger) }.

Definition get_session : Session := {| pending := [] |}.

Definition session_add (s : Session) (row : Z -> Ledger) : Session :=
  {| pending := pending s ++ [row] |}.

(** The key of a new row: one more than the largest key in the table.
    SQLite does so while the keys lie between 1 and 2^63 - 2; what it does
    outside that range is not modelled, and statements about tables of any
    origin assume the range. *)
Definition next_id (db : table) : Z :=
  (List.fold_right Z.max 0 (List.map id db) + 1)%Z.

(** INSERT under the [unique=True] constraint on [data_hash]. What the
    driver refuses to store (an actor outside 64 bits, a text without a
    UTF-8 encoding) is not modelled: the calls that succeed here include
    those that succeed there. *)
Definition insert_row (db : table) (row : Z -> Ledger) : result table :=
  let r := row (next_id db) in
  if List.existsb (fun x => str_eqb (data_hash x) (data_hash r)) db
  then Raise IntegrityError
  else Ok (db ++ [r]).

Fixpoint insert_rows (db : table) (rows : list (Z -> Ledger)) : result table :=
  match rows with
  | [] => Ok db
  | row :: rows' =>
      db' <- insert_row db row ;;
      insert_rows db' rows'
  end.

(** [session.commit()]: every pending row or none; [fault] is an I/O failure
    of the store. *)
Definition session_commit (fault : bool) (db : table) (s : Session) : result table :=
  if fault then Raise OperationalError else insert_rows db (pending s).

(** ** hydrohub.ledger *)

Definition genesis : str := List.repeat 48 64.

Definition get_last_hash (db : table) : str :=
  match order_by_id_desc db with
  | last_entry :: _ => data_hash last_entry
  | [] => genesis
  end.

Definition envelope (action_type : str) (data_dict : pyval)
    (human_message timestamp : str) : pyval :=
  PDict [ (KeyStr (lit "action_type"), PStr action_type);
          (KeyStr (lit "payload"), data_dict);
          (KeyStr (lit "human_message"), PStr human_message);
          (KeyStr (lit "timestamp"), PStr timestamp) ].

(** What the environment supplies to one call: the text of
    [datetime.utcnow().isoformat()] and whether the store fails on commit. *)
Record env : Type := { utcnow : str; commit_fault : bool }.

(** The body of [add_ledger_entry] after [get_last_hash()] has returned. *)
Definition append_with (prev_hash : str) (e : env) (db : table)
    (actor_id : option Z) (action_type : str) (data_dict : pyval)
    (human_message : str) : result str * table :=
  let session := get_session in
  let attempt :=
    let timestamp := utcnow e ++ lit "Z" in
    let ledger_data := envelope action_type data_dict human_message timestamp in
    data_text <- json_dumps ledger_data ;;
    data_hash <- create_data_hash timestamp prev_hash actor_id data_text ;;
    let ledger_entry := fun i =>
      {| id := i; timestamp := timestamp; prev_hash := prev_hash;
         data_hash := data_hash; actor_id := actor_id;
         action_type := action_type; data_text := data_text |} in
    let session := session_add session ledger_entry in
    db' <- session_commit (commit_fault e) db session ;;
    Ok (data_hash, db') in
  match attempt with
  | Ok (h, db') => (Ok h, db')
  | Raise err => (Raise err, db)   (* session.rollback(); raise e *)
  end.

Definition add_ledger_entry (e : env) (db : table) (actor_id : option Z)
    (action_type : str) (data_dict : pyval) (human_message : str)
    : result str * table :=
  let prev_hash := get_last_hash db in
  append_with prev_hash e db actor_id action_type data_dict human_message.

(** The dictionaries [verify_ledger] collects. *)
Inductive inconsistency : Type :=
| prev_hash_mismatch (entry_id : Z) (expected actual : str)
| hash_mismatch (entry_id : Z) (expected actual : str)
| invalid_json_structure (entry_id : Z) (data : str)
| invalid_json (entry_id : Z) (data : str).

Definition entry_id (i : inconsistency) : Z :=
  match i with
  | prev_hash_mismatch n _ _ | hash_mismatch n _ _
  | invalid_json_structure n _ | invalid_json n _ => n
  end.

Fixpoint is_prefix (p s : str) : bool :=
  match p, s with
  | [], _ => true
  | a :: p', b :: s' => (a =? b) && is_prefix p' s'
  | _ :: _, [] => false
  end.

Fixpoint is_substring (p s : str) : bool :=
  is_prefix p s ||
  match s with
  | [] => false
  | _ :: s' => is_substring p s'
  end.

(** [needle in data] for a decoded document: key membership for a dict,
    element equality for a list, substring for a str; an int, a float, a
    bool and [None] are not containers. *)
Definition py_in (needle : str) (data : json) : result bool :=
  match data with
  | JObject m => Ok (List.existsb (fun kv => str_eqb (fst kv) needle) m)
  | JArray l =>
      Ok (List.existsb
            (fun x => match x with JString s => str_eqb s needle | _ => false end) l)
  | JString s => Ok (is_substring needle s)
  | JNull | JBool _ | JNumber _ => Raise TypeError
  end.

Definition preview (text : str) : str :=
  if (100 <? List.length text)%nat then List.firstn 100 text ++ lit "..." else text.

(** One turn of the loop of [verify_ledger]. *)
Definition check_entry (expected_prev_hash : str) (entry : Ledger)
    : result (list inconsistency) :=
  let c1 :=
    if negb (str_eqb (prev_hash entry) expected_prev_hash)
    then [prev_hash_mismatch (id entry) expected_prev_hash (prev_hash entry)]
    else [] in
  computed_hash <- create_data_hash (timestamp entry) (prev_hash entry)
                     (actor_id entry) (data_text entry) ;;
  let c2 :=
    if negb (str_eqb (data_hash entry) computed_hash)
    then [hash_mismatch (id entry) computed_hash (data_hash entry)]
    else [] in
  c3 <- match json_loads (data_text entry) with
        | Some data =>
            has_action <- py_in (lit "action_type") data ;;
            missing <- (if negb has_action then Ok true
                        else has_payload <- py_in (lit "payload") data ;;
                             Ok (negb has_payload)) ;;
            Ok (if missing : bool
                then [invalid_json_structure (id entry) (preview (data_text entry))]
                else [])
        | None => Ok [invalid_json (id entry) (preview (data_text entry))]
        end ;;
  Ok (c1 ++ c2 ++ c3).

Fixpoint verify_loop (entries : list Ledger) (expected_prev_hash : str)
    (inconsistencies : list inconsistency) : result (list inconsistency) :=
  match entries with
  | [] => Ok inconsistencies
  | entry :: rest =>
      found <- check_entry expected_prev_hash entry ;;
      verify_loop rest (data_hash entry) (inconsistencies ++ found)
  end.

Definition verify_ledger (db : table) : result (list inconsistency) * table :=
  let entries := order_by_id_asc db in
  match entries with
  | [] => (Ok [], db)
  | _ => (verify_loop entries genesis [], db)
  end.

(** The object [get_ledger_entries] builds for each row: a copy of its
    columns. *)
Definition SimpleEntry := Ledger.

Definition simple_entry (entry : Ledger) : SimpleEntry :=
  {| id := id entry; timestamp := timestamp entry;
     action_type := action_type entry; actor_id := actor_id entry;
     prev_hash := prev_hash entry; data_hash := data_hash entry;
     data_text := data_text entry |}.

(** OFFSET and LIMIT as SQLite reads them: a negative offset is zero, a
    negative limit is no limit. *)
Definition offset_limit (offset limit : Z) (rows : list Ledger) : list Ledger :=
  let rows := List.skipn (Z.to_nat offset) rows in
  if Z.ltb limit 0 then rows else List.firstn (Z.to_nat limit) rows.

(** [if action_type and action_type != "All"]: the filter applies to a
    non-empty tag other than the word All. *)
Definition action_filter (wanted : option str) (row : Ledger) : bool :=
  match wanted with
  | Some a =>
      if negb (str_eqb a []) && negb (str_eqb a (lit "All"))
      then str_eqb (action_type row) a
      else true
  | None => true
  end.

(** [if actor_id and actor_id > 0]: the filter applies to a positive id. *)
Definition actor_filter (wanted : option Z) (row : Ledger) : bool :=
  match wanted with
  | Some a =>
      if negb (Z.eqb a 0) && Z.ltb 0 a
      then match actor_id row with
           | Some b => Z.eqb b a
           | None => false
           end
      else true
  | None => true
  end.

(** What the driver accepts as a parameter of a statement: an integer of
    64 bits ([OverflowError] otherwise) and a text that has a UTF-8
    encoding ([UnicodeEncodeError] otherwise). *)
Definition binds_int (z : Z) : bool :=
  Z.leb (- 2 ^ 63) z && Z.ltb z (2 ^ 63).

Definition binds_text (s : str) : bool :=
  match utf8_encode s with
  | Ok _ => true
  | Raise _ => false
  end.

(** The parameters of the query of [get_ledger_entries]: the tag and the
    actor when their filter applies, the limit and the offset. *)
Definition query_binds (limit offset : Z) (action_type : option str)
    (actor_id : option Z) : bool :=
  match action_type with
  | Some a =>
      if negb (str_eqb a []) && negb (str_eqb a (lit "All"))
      then binds_text a else true
  | None => true
  end
  && match actor_id with
     | Some a => if negb (Z.eqb a 0) && Z.ltb 0 a then binds_int a else true
     | None => true
     end
  && binds_int limit
  && binds_int offset.

(** [get_ledger_entries]. The source catches any exception of the query and
    returns an empty list: that is what a parameter the driver refuses
    leads to. The store itself is taken to answer the query. *)
Definition get_ledger_entries (limit offset : Z) (action_type : option str)
    (actor_id : option Z) (db : table) : list SimpleEntry * table :=
  if query_binds limit offset action_type actor_id then
    let query := order_by_id_desc db in
    let query := List.filter (action_filter action_type) query in
    let query := List.filter (actor_filter actor_id) query in
    let entries := offset_limit offset limit query in
    (List.map simple_entry entries, db)
  else ([], db).

(** Truthiness of an optional string argument. *)
Definition truthy (s : option str) : bool :=
  match s with
  | Some (_ :: _) => true
  | _ => false
  end.

Definition opt_str (s : option str) : pyval :=
  match s with
  | Some x => PStr x
  | None => PNone
  end.

Definition opt_int (z : option Z) : pyval :=
  match z with
  | Some x => PInt x
  | None => PNone
  end.

Definition key (s : string) : pykey := KeyStr (lit s).

Definition proof_entry (entry : Ledger) : pyval :=
  PDict [ (key "id", PInt (id entry));
          (key "timestamp", PStr (timestamp entry));
          (key "prev_hash", PStr (prev_hash entry));
          (key "data_hash", PStr (data_hash entry));
          (key "actor_id", opt_int (actor_id entry));
          (key "action_type", PStr (action_type entry));
          (key "data_text", PStr (data_text entry)) ].

(** The rows [export_ledger_proof] selects. *)
Definition proof_rows (start_date end_date : option str) (db : table) : list Ledger :=
  let query := order_by_id_asc db in
  let query :=
    if truthy start_date
    then List.filter (fun r => str_leb (match start_date with Some s => s | None => [] end)
                                       (timestamp r)) query
    else query in
  if truthy end_date
  then List.filter (fun r => str_leb (timestamp r)
                                     (match end_date with Some s => s | None => [] end)) query
  else query.

(** The dictionary before [proof_hash] is added. *)
Definition proof_body (now : str) (start_date end_date : option str)
    (entries : list Ledger) : list (pykey * pyval) :=
  [ (key "export_timestamp", PStr (now ++ lit "Z"));
    (key "filter_start_date", opt_str start_date);
    (key "filter_end_date", opt_str end_date);
    (key "total_entries", PInt (Z.of_nat (List.length entries)));
    (key "entries", PList (List.map proof_entry entries));
    (key "verification_info",
       PDict [ (key "hash_algorithm", PStr (lit "SHA-256"));
               (key "payload_format",
                  PStr (lit "timestamp|prev_hash|actor_id|data_text")) ]) ].

(** A bound of the export as a parameter of its query: a bound that
    filters must be a text the driver accepts. *)
Definition bound_binds (bound : option str) : bool :=
  match bound with
  | Some s => if truthy bound then binds_text s else true
  | None => true
  end.

(** [export_ledger_proof]; [now] is the text of
    [datetime.utcnow().isoformat()] at the call. A bound the driver refuses
    makes the query raise, and nothing catches it. *)
Definition export_ledger_proof (now : str) (start_date end_date : option str)
    (db : table) : result (list (pykey * pyval)) * table :=
  if bound_binds start_date && bound_binds end_date then
    let entries := proof_rows start_date end_date db in
    let proof := proof_body now start_date end_date entries in
    (proof_json <- json_dumps (PDict proof) ;;
     encoded <- utf8_encode proof_json ;;
     Ok (proof ++ [(key "proof_hash", PStr (SHA256.hexdigest encoded))]),
     db)
  else (Raise UnicodeEncodeError, db).

(** [proof['proof_hash']]. *)
Definition proof_hash (proof : list (pykey * pyval)) : option str :=
  match List.find (fun kv => match fst kv with
                             | KeyStr k => str_eqb k (lit "proof_hash")
                             | _ => false
                             end) proof with
  | Some (_, PStr h) => Some h
  | _ => None
  end.

(** ** Concurrent callers

    [add_ledger_entry] reads the last hash through a session of its own
    ([get_last_hash] opens and closes one) and inserts through another, so
    a call touches the store twice; other calls may run in between. *)

Record request : Type := {
  rq_env : env;
  rq_actor : option Z;
  rq_action : str;
  rq_payload : pyval;
  rq_message : str
}.

Inductive thread : Type :=
| Ready (r : request)                       (* get_last_hash() not yet called *)
| HasPrev (r : request) (prev_hash : str)   (* between the read and the commit *)
| Finished (out : result str).

Definition step_thread (t : thread) (db : table) : thread * table :=
  match t with
  | Ready r => (HasPrev r (get_last_hash db), db)
  | HasPrev r p =>
      let (out, db') :=
        append_with p (rq_env r) db (rq_actor r) (rq_action r)
                    (rq_payload r) (rq_message r) in
      (Finished out, db')
  | Finished out => (t, db)
  end.

Fixpoint set_nth {A} (n : nat) (x : A) (l : list A) : list A :=
  match n, l with
  | O, _ :: l' => x :: l'
  | S n', y :: l' => y :: set_nth n' x l'
  | _, [] => []
  end.

(** A schedule names, step by step, the thread that runs next. *)
Fixpoint run (schedule : list nat) (ts : list thread) (db : table)
    : list thread * table :=
  match schedule with
  | [] => (ts, db)
  | i :: rest =>
      match List.nth_error ts i with
      | Some t =>
          let (t', db') := step_thread t db in
          run rest (set_nth i t' ts) db'
      | None => run rest ts db
      end
  end.


(** ** hydrohub.ledger.get_ledger_stats *)

(** A Python [dict] with string keys, as the list of its items in insertion
    order: [d[k] = v] and [d.get(k)]. *)
Fixpoint dict_set {A} (k : str) (v : A) (d : list (str * A)) : list (str * A) :=
  match d with
  | [] => [(k, v)]
  | (k', v') :: d' =>
      if str_eqb k' k then (k', v) :: d' else (k', v') :: dict_set k v d'
  end.

Fixpoint dict_get {A} (k : str) (d : list (str * A)) : option A :=
  match d with
  | [] => None
  | (k', v) :: d' => if str_eqb k' k then Some v else dict_get k d'
  end.

(** [session.query(Ledger).count()] *)
Definition count_rows (db : table) : Z := Z.of_nat (List.length db).

(** The row of a tag among the groups of [GROUP BY action_type], counted
    once more. *)
Fixpoint count_group (tag : str) (groups : list (str * Z)) : list (str * Z) :=
  match groups with
  | [] => [(tag, 1%Z)]
  | (t, n) :: rest =>
      if str_eqb t tag then (t, (n + 1)%Z) :: rest
      else (t, n) :: count_group tag rest
  end.

(** [query(Ledger.action_type, func.count(Ledger.action_type))
    .group_by(Ledger.action_type).all()]: one row per tag, with the number
    of rows that carry it. The database chooses the order of the groups;
    here a group stands where its tag is first met. *)
Definition group_by_action_type (db : table) : list (str * Z) :=
  List.fold_left (fun groups r => count_group (action_type r) groups) db [].

(** [query.first()] *)
Definition first (rows : list Ledger) : option Ledger :=
  match rows with
  | r :: _ => Some r
  | [] => None
  end.

(** The dictionary [get_ledger_stats] returns. *)
Record LedgerStats : Type := {
  stats_total_entries : Z;
  stats_action_counts : list (str * Z);
  stats_first_entry_time : option str;
  stats_last_entry_time : option str;
  stats_last_hash : str
}.

(** The two [except] branches of the source answer a failing query; the
    reads of this model cannot raise, so they have no counterpart here. *)
Definition get_ledger_stats (db : table) : LedgerStats * table :=
  let total_entries := count_rows db in
  let action_type_results := group_by_action_type db in
  let action_counts :=
    List.fold_left (fun d kv => dict_set (fst kv) (snd kv) d)
                   action_type_results [] in
  let first_entry := first (order_by_id_asc db) in
  let last_entry := first (order_by_id_desc db) in
  ({| stats_total_entries := total_entries;
      stats_action_counts := action_counts;
      stats_first_entry_time :=
        match first_entry with Some r => Some (timestamp r) | None => None end;
      stats_last_entry_time :=
        match last_entry with Some r => Some (timestamp r) | None => None end;
      stats_last_hash :=
        match last_entry with Some r => data_hash r | None => genesis end |},
   db).

(** ** hydrohub.ledger: the convenience loggers *)

(** [log_user_action]; [action] is a [str]. *)
Definition log_user_action (e : env) (db : table) (actor_id : option Z)
    (action : str) (details : pyval) : result str * table :=
  add_ledger_entry e db actor_id (lit "user_action")
    (PDict [ (key "action", PStr action); (key "details", details) ])
    (lit "User action: " ++ action).

Definition is_key (k : str) (kv : pykey * pyval) : bool :=
  match fst kv with
  | KeyStr s => str_eqb s k
  | _ => false
  end.

(** The dictionary display [{k: v, **data}] for a dictionary [data]: the
    key [k] comes first, and holds the value [data] gives it when [data]
    has that key. *)
Definition dict_with_first (k : str) (v : pyval) (data : list (pykey * pyval))
    : list (pykey * pyval) :=
  match List.find (is_key k) data with
  | Some (_, v') => (KeyStr k, v') :: List.filter (fun kv => negb (is_key k kv)) data
  | None => (KeyStr k, v) :: data
  end.

(** [log_system_event]; [event_type] is a [str] and [event_data] a
    dictionary. *)
Definition log_system_event (e : env) (db : table) (event_type : str)
    (event_data : list (pykey * pyval)) : result str * table :=
  add_ledger_entry e db None (lit "system_event")
    (PDict (dict_with_first (lit "event_type") (PStr event_type) event_data))
    (lit "System event: " ++ event_type).

(** ** The range of an export by days

    [hydrohub.reports.export_ledger_csv] and the JSON branch of
    [pages.ledger.show_export_ledger] turn the two optional dates into the
    texts they hand to [export_ledger_proof]. A [date] is carried by the
    text [isoformat()] gives it. *)

Definition start_iso (start_date : option str) : option str :=
  match start_date with
  | Some d => Some (d ++ lit "T00:00:00Z")
  | None => None
  end.

Definition end_iso (end_date : option str) : option str :=
  match end_date with
  | Some d => Some (d ++ lit "T23:59:59Z")
  | None => None
  end.

(** ** hydrohub.reports.export_ledger_csv *)

(** [csv.writer(output)] with its default dialect: fields are joined by
    commas and a row ends with a carriage return and a line feed; a field
    that holds a comma, a double quote, a carriage return or a line feed is
    put between double quotes, with every double quote inside it written
    twice; a row that is one empty field is written as a pair of quotes.
    An [int] is written as [str] gives it. *)
Definition csv_special (c : N) : bool :=
  (c =? 44) || (c =? 34) || (c =? 13) || (c =? 10).

Definition csv_quote (c : N) : str := if c =? 34 then [34; 34] else [c].

Definition csv_field (s : str) : str :=
  if List.existsb csv_special s
  then 34 :: List.flat_map csv_quote s ++ [34]
  else s.

Fixpoint csv_join (fields : list str) : str :=
  match fields with
  | [] => []
  | [f] => f
  | f :: rest => f ++ 44 :: csv_join rest
  end.

Definition write_fields (fields : list str) : str :=
  match fields with
  | [ [] ] => [34; 34; 13; 10]
  | _ => csv_join (List.map csv_field fields) ++ [13; 10]
  end.

Definition writerow (row : list int_or_str) : str :=
  write_fields (List.map format row).

(** [d[k]] for a key that is a string; [None] when [d] has no such key. *)
Definition item (k : string) (d : list (pykey * pyval)) : option pyval :=
  match List.find (is_key (lit k)) d with
  | Some (_, v) => Some v
  | None => None
  end.

(** [proof['entries']]: the dictionaries of the list. *)
Definition entries_of (proof : list (pykey * pyval)) : list (list (pykey * pyval)) :=
  match item "entries" proof with
  | Some (PList l) =>
      List.flat_map (fun x => match x with PDict d => [d] | _ => [] end) l
  | _ => []
  end.

(** A value handed to the writer. The values read here are the integers and
    strings [export_ledger_proof] has put in the proof, and [None], which
    the writer writes as the empty string. *)
Definition as_field (v : option pyval) : int_or_str :=
  match v with
  | Some (PInt z) => IsInt z
  | Some (PStr s) => IsStr s
  | _ => IsStr []
  end.

(** [entry['actor_id'] or ''] *)
Definition field_or_empty (v : option pyval) : int_or_str :=
  match v with
  | Some (PInt z) => if Z.eqb z 0 then IsStr [] else IsInt z
  | Some (PStr s) => IsStr s
  | _ => IsStr []
  end.

(** [start_date or 'All'] inside an f-string. *)
Definition date_or_all (d : option str) : str :=
  match d with
  | Some t => t
  | None => lit "All"
  end.

(** What the environment supplies to one call: the business name of the
    configuration (which is taken to load), the text of
    [get_current_time()], the text of [datetime.utcnow().isoformat()]
    inside [export_ledger_proof], and the clock and the store at the call of
    [add_ledger_entry]. *)
Record report_env : Type := {
  config_name : str;
  generated : str;
  export_now : str;
  log_env : env
}.

Definition csv_header : list int_or_str :=
  List.map IsStr [ lit "ID"; lit "Timestamp"; lit "Previous Hash"; lit "Data Hash";
                   lit "Actor ID"; lit "Action Type"; lit "Data" ].

Definition csv_entry (entry : list (pykey * pyval)) : list int_or_str :=
  [ as_field (item "id" entry);
    as_field (item "timestamp" entry);
    as_field (item "prev_hash" entry);
    as_field (item "data_hash" entry);
    field_or_empty (item "actor_id" entry);
    as_field (item "action_type" entry);
    as_field (item "data_text" entry) ].

(** [export_ledger_csv]; a date is carried by the text [isoformat()] gives
    it. Every key read from the proof is a key [export_ledger_proof] has
    written, so no look-up fails. The text is returned once the export has
    been logged. *)
Definition export_ledger_csv (c : report_env) (start_date end_date : option str)
    (actor_id : option Z) (db : table) : result str * table :=
  let (exported, db) :=
    export_ledger_proof (export_now c) (start_iso start_date) (end_iso end_date) db in
  match exported with
  | Raise x => (Raise x, db)
  | Ok proof =>
      let entries := entries_of proof in
      let output :=
        writerow [IsStr (config_name c ++ lit " - Ledger Export")]
        ++ writerow [IsStr (lit "Period: " ++ date_or_all start_date
                            ++ lit " to " ++ date_or_all end_date)]
        ++ writerow [IsStr (lit "Generated: " ++ generated c)]
        ++ writerow [IsStr (lit "Proof Hash: "
                            ++ format (as_field (item "proof_hash" proof)))]
        ++ writerow []
        ++ writerow csv_header
        ++ List.flat_map (fun entry => writerow (csv_entry entry)) entries in
      let csv_content := output in
      let entry_count := Z.of_nat (List.length entries) in
      let (logged, db) :=
        add_ledger_entry (log_env c) db actor_id (lit "export_ledger")
          (PDict [ (key "start_date", opt_str start_date);
                   (key "end_date", opt_str end_date);
                   (key "entry_count", PInt entry_count);
                   (key "proof_hash",
                      match item "proof_hash" proof with
                      | Some h => h
                      | None => PNone
                      end);
                   (key "format", PStr (lit "CSV")) ])
          (lit "Exported ledger to CSV (" ++ str_of_Z entry_count ++ lit " entries)") in
      match logged with
      | Ok _ => (Ok csv_content, db)
      | Raise x => (Raise x, db)
      end
  end.

(** ** hydrohub.auth.get_user_permissions *)

Record Permissions : Type := {
  can_manage_users : bool;
  can_view_ledger : bool;
  can_export_data : bool;
  can_manage_inventory : bool;
  can_record_transactions : bool;
  can_manage_expenses : bool;
  can_view_reports : bool;
  can_manage_settings : bool
}.

Definition admin_permissions : Permissions :=
  {| can_manage_users := true; can_view_ledger := true;
     can_export_data := true; can_manage_inventory := true;
     can_record_transactions := true; can_manage_expenses := true;
     can_view_reports := true; can_manage_settings := true |}.

Definition staff_permissions : Permissions :=
  {| can_manage_users := false; can_view_ledger := false;
     can_export_data := false; can_manage_inventory := true;
     can_record_transactions := true; can_manage_expenses := true;
     can_view_reports := true; can_manage_settings := false |}.

Definition public_permissions : Permissions :=
  {| can_manage_users := false; can_view_ledger := false;
     can_export_data := false; can_manage_inventory := false;
     can_record_transactions := false; can_manage_expenses := false;
     can_view_reports := true; can_manage_settings := false |}.

Definition permissions : list (str * Permissions) :=
  [ (lit "admin", admin_permissions);
    (lit "staff", staff_permissions);
    (lit "public", public_permissions) ].

(** [permissions.get(role, permissions['public'])] *)
Definition get_user_permissions (role : str) : Permissions :=
  match dict_get role permissions with
  | Some p => p
  | None => public_permissions
  end.

(** * Vocabulary of the statements *)

(** *** The decoder on the encoder's output *)

Definition not_digit (c : N) : bool := negb (is_digit c).

Definition frac_ok (fp : str) : Prop :=
  fp = [] \/ exists d ds, Forall (fun c => is_digit c = true) (d :: ds) /\ fp = 46 :: d :: ds.

Definition exp_ok (ep : str) : Prop :=
  ep = [] \/
  exists sg d ds, (sg = 45 \/ sg = 43) /\ Forall (fun c => is_digit c = true) (d :: ds)
                  /\ ep = 101 :: sg :: d :: ds.

Definition number_head (c : N) : bool := is_digit c || (c =? 45).

Definition head_ok (s : str) : Prop :=
  exists c r, s = c :: r /\ is_ws c = false /\ (c =? 93) = false /\ (c =? 125) = false.

Fixpoint render_elems (l : list json) : str :=
  match l with
  | [] => [93]
  | [x] => render x ++ [93]
  | x :: l' => render x ++ 44 :: render_elems l'
  end.

Fixpoint render_members (m : list (str * json)) : str :=
  match m with
  | [] => [125]
  | [(k, x)] => encode_string k ++ 58 :: render x ++ [125]
  | (k, x) :: m' => encode_string k ++ 58 :: render x ++ 44 :: render_members m'
  end.

Fixpoint need_elems (l : list json) : nat :=
  match l with
  | [] => O
  | x :: l' => S (need x + need_elems l')
  end.

Fixpoint need_members (m : list (str * json)) : nat :=
  match m with
  | [] => O
  | (_, x) :: m' => S (need x + need_members m')
  end.

Definition reads_back (x : json) : Prop :=
  forall fuel rest, (need x <= fuel)%nat -> stop rest ->
    parse_value fuel (render x ++ rest) = Some (norm x, rest).

Fixpoint to_json_list (l : list pyval) : result (list json) :=
  match l with
  | [] => Ok []
  | x :: l' =>
      j <- to_json x ;;
      r <- to_json_list l' ;;
      Ok (j :: r)
  end.

Fixpoint to_json_items (l : list (pykey * pyval)) : result (list (pykey * json)) :=
  match l with
  | [] => Ok []
  | (k, x) :: l' =>
      j <- to_json x ;;
      r <- to_json_items l' ;;
      Ok ((k, j) :: r)
  end.

(** *** Fuel of the decoder *)

(** On texts of at most [n] code points the scanner returns the same for
    any two fuels above twice the length of the text. *)
Definition steady (n : nat) : Prop :=
  (forall s f f', (List.length s <= n)%nat ->
     (2 * List.length s + 1 <= f)%nat -> (2 * List.length s + 1 <= f')%nat ->
     parse_value f s = parse_value f' s)
  /\ (forall s f f', (List.length s <= n)%nat ->
        (2 * List.length s + 2 <= f)%nat -> (2 * List.length s + 2 <= f')%nat ->
        parse_elems f s = parse_elems f' s)
  /\ (forall s f f', (List.length s <= n)%nat ->
        (2 * List.length s + 2 <= f)%nat -> (2 * List.length s + 2 <= f')%nat ->
        parse_members f s = parse_members f' s).

(** *** Chains and the verifier *)

(** A chain built by calls of [add_ledger_entry] alone, starting from the
    empty table. *)
Inductive appended : table -> Prop :=
| appended_nil : appended []
| appended_step db e actor action payload message h db' :
    appended db ->
    add_ledger_entry e db actor action payload message = (Ok h, db') ->
    appended db'.

(** The hash the next entry must point to after the rows [l]. *)
Fixpoint last_hash (p : str) (l : list Ledger) : str :=
  match l with
  | [] => p
  | e :: l' => last_hash (data_hash e) l'
  end.

(** Every row points to the row before it. *)
Fixpoint linked (p : str) (l : list Ledger) : Prop :=
  match l with
  | [] => True
  | e :: l' => prev_hash e = p /\ linked (data_hash e) l'
  end.

(** The digest of a row recomputed from its stored columns. *)
Definition recompute (e : Ledger) : result str :=
  create_data_hash (timestamp e) (prev_hash e) (actor_id e) (data_text e).

(** The stored text of a row is the canonical envelope of some payload and
    message, with the row's own tag and timestamp. *)
Definition enveloped (e : Ledger) : Prop :=
  exists payload message,
    json_dumps (envelope (action_type e) payload message (timestamp e))
    = Ok (data_text e).

Record chain_ok (db : table) : Prop := {
  ck_ids : List.map id db = List.map Z.of_nat (List.seq 1 (List.length db));
  ck_linked : linked genesis db;
  ck_hashes : Forall (fun e => recompute e = Ok (data_hash e)) db;
  ck_texts : Forall enveloped db;
  ck_unique : NoDup (List.map data_hash db)
}.

Definition increasing (l : list Ledger) : Prop :=
  StronglySorted (fun a b => (id a < id b)%Z) l.

(** The stored text decodes to a document holding both keys. *)
Definition text_ok (e : Ledger) : Prop :=
  exists data,
    json_loads (data_text e) = Some data
    /\ py_in (lit "action_type") data = Ok true
    /\ py_in (lit "payload") data = Ok true.

(** What [verify_ledger] checks, row by row, on the rows in id order. *)
Definition intact_from (p : str) (l : list Ledger) : Prop :=
  linked p l
  /\ Forall (fun e => recompute e = Ok (data_hash e)) l
  /\ Forall text_ok l.

Definition intact (db : table) : Prop := intact_from genesis (order_by_id_asc db).

(** *** The digest, and example calls *)

(** The actor reference as text: empty when absent, and, [or] being
    Python's, empty for the id 0 as well. *)
Definition actor_ref_or_empty (a : option Z) : str :=
  match a with
  | Some z => if Z.eqb z 0 then [] else str_of_Z z
  | None => []
  end.

Fixpoint join_with (sep : str) (parts : list str) : str :=
  match parts with
  | [] => []
  | [x] => x
  | x :: rest => x ++ sep ++ join_with sep rest
  end.

Definition sha256_hex (s : str) : result str :=
  b <- utf8_encode s ;;
  Ok (SHA256.hexdigest b).

Definition digest_spec (timestamp prev_digest : str) (actor_ref : option Z)
    (canonical : str) : result str :=
  sha256_hex (join_with (lit "|")
                [timestamp; prev_digest; actor_ref_or_empty actor_ref; canonical]).

Definition is_lower_hex (c : N) : bool :=
  ((48 <=? c) && (c <=? 57)) || ((97 <=? c) && (c <=? 102)).

Definition lower_hex64 (h : str) : Prop :=
  List.length h = 64%nat /\ Forall (fun c => is_lower_hex c = true) h.

Definition env_at (now : string) : env :=
  {| utcnow := lit now; commit_fault := false |}.

Definition sale : pyval :=
  PDict [ (key "transaction_id", PInt 1); (key "gallons_count", PInt 2);
          (key "total_amount", PFloat (FFinite false 50 [] None)) ].

Definition cost : pyval :=
  PDict [ (key "expense_id", PInt 1); (key "category", PStr (lit "Fuel"));
          (key "amount", PFloat (FFinite false 120 [5] None)) ].

Definition stock : pyval :=
  PDict [ (key "item_id", PInt 3); (key "change_type", PStr (lit "restock")) ].

Definition after1 : result str * table :=
  Eval vm_compute in
    add_ledger_entry (env_at "2024-03-01T08:00:00.000001") [] (Some 1%Z)
      (lit "refill_transaction") sale (lit "Refill transaction #1").

Definition after2 : result str * table :=
  Eval vm_compute in
    add_ledger_entry (env_at "2024-03-01T09:30:00.000500") (snd after1) (Some 2%Z)
      (lit "expense") cost (lit "Expense: Fuel").

Definition after3 : result str * table :=
  Eval vm_compute in
    add_ledger_entry (env_at "2024-03-01T10:45:10.250000") (snd after2) None
      (lit "inventory_change") stock (lit "Inventory change: Caps - restock").

Definition chain1 : table := snd after1.
Definition chain2 : table := snd after2.
Definition chain3 : table := snd after3.

Definition hash_of (r : result str * table) : str :=
  match fst r with
  | Ok h => h
  | Raise _ => []
  end.

Definition blank : Ledger :=
  {| id := 0; timestamp := []; prev_hash := []; data_hash := [];
     actor_id := None; action_type := []; data_text := [] |}.

Definition entry1 : Ledger := Eval vm_compute in List.nth 0 chain3 blank.
Definition entry2 : Ledger := Eval vm_compute in List.nth 1 chain3 blank.
Definition entry3 : Ledger := Eval vm_compute in List.nth 2 chain3 blank.


(** *** Altered tables *)




Definition set_action_type (tag : str) (e : Ledger) : Ledger :=
  {| id := id e; timestamp := timestamp e; prev_hash := prev_hash e;
     data_hash := data_hash e; actor_id := actor_id e; action_type := tag;
     data_text := data_text e |}.

Definition set_data_text (d : str) (e : Ledger) : Ledger :=
  {| id := id e; timestamp := timestamp e; prev_hash := prev_hash e;
     data_hash := data_hash e; actor_id := actor_id e; action_type := action_type e;
     data_text := d |}.

Definition set_data_hash (h : str) (e : Ledger) : Ledger :=
  {| id := id e; timestamp := timestamp e; prev_hash := prev_hash e; data_hash := h;
     actor_id := actor_id e; action_type := action_type e; data_text := data_text e |}.

(** The table with the row of the same [id] overwritten by [e']. *)
Definition replace_row (e' : Ledger) (db : table) : table :=
  List.map (fun r => if Z.eqb (id r) (id e') then e' else r) db.

(** The text hashed for a row. *)
Definition hashed_text (e : Ledger) : str :=
  hash_payload (timestamp e) (prev_hash e) (actor_id e) (data_text e).



(** Text the store can hold: it has a UTF-8 encoding. *)
Definition storable (s : str) : bool :=
  match utf8_encode s with
  | Ok _ => true
  | Raise _ => false
  end.

(** The stored text decodes to a bare number, boolean or null. *)
Definition scalar_text (d : str) : bool :=
  match json_loads d with
  | Some (JNull | JBool _ | JNumber _) => true
  | _ => false
  end.


(** The stored text opens with the row's own action tag. *)
Definition tag_matches (e : Ledger) : bool :=
  is_prefix (123 :: encode_string (lit "action_type") ++ 58 :: encode_string (action_type e))
            (data_text e).



Definition bare_number : table := replace_row (set_data_text (lit "5") entry2) chain3.

(** *** Encodable payloads *)

Definition bad_key (k : pykey) : bool :=
  match k with
  | KeyOther => true
  | _ => false
  end.

(** The value holds an object without a JSON encoding, a key the encoder
    refuses, or a dictionary whose keys cannot be sorted. *)
Fixpoint unencodable (v : pyval) : bool :=
  match v with
  | POther => true
  | PList l =>
      (fix any (l : list pyval) : bool :=
         match l with
         | [] => false
         | x :: l' => unencodable x || any l'
         end) l
  | PDict items =>
      negb (sortable items)
      || (fix any (l : list (pykey * pyval)) : bool :=
            match l with
            | [] => false
            | (k, x) :: l' => bad_key k || unencodable x || any l'
            end) items
  | _ => false
  end.

Fixpoint any_unencodable (l : list pyval) : bool :=
  match l with
  | [] => false
  | x :: l' => unencodable x || any_unencodable l'
  end.

Fixpoint any_bad_item (l : list (pykey * pyval)) : bool :=
  match l with
  | [] => false
  | (k, x) :: l' => bad_key k || unencodable x || any_bad_item l'
  end.

Definition nan_call : result str * table :=
  Eval vm_compute in
    add_ledger_entry (env_at "2024-03-02T07:00:00") chain1 (Some 1%Z) (lit "expense")
      (PDict [(key "amount", PFloat FNaN)]) (lit "Expense: Fuel").

(** *** Queries *)

Definition descending (l : list Ledger) : Prop :=
  StronglySorted (fun a b => (id b <= id a)%Z) l.

(** *** Proof export *)

(** Text within ASCII. *)
Definition ascii_text (s : str) : Prop := Forall (fun c => c < 128) s.

Definition range_start : option str := Some (lit "2024-03-01T09:00:00").
Definition range_end : option str := Some (lit "2024-03-01T10:00:00").

(** *** Schedules *)








(** *** Appending to any table *)

(** No code point of the text is a surrogate, and each is a code point. *)
Definition plain_text (s : str) : Prop :=
  Forall (fun c => c < 0x110000 /\ ((c <? 0xd800) || (0xdfff <? c)) = true) s.

(** The keys of the stored rows lie in the range in which SQLite gives a
    new row the largest key plus one: above zero and below 2^63 - 1. *)
Definition rowids_ok (db : table) : Prop :=
  Forall (fun r => (0 < id r < 2 ^ 63 - 1)%Z) db.

(** The row a successful call adds. *)
Definition new_row (e : env) (db : table) (actor : option Z) (action text h : str)
    : Ledger :=
  {| id := next_id db; timestamp := utcnow e ++ lit "Z";
     prev_hash := get_last_hash db; data_hash := h; actor_id := actor;
     action_type := action; data_text := text |}.

(** *** Tables that are not built chains *)

Definition is_prev_hash_mismatch (i : inconsistency) : bool :=
  match i with
  | prev_hash_mismatch _ _ _ => true
  | _ => false
  end.

(** Every row carries the digest of its own columns and an envelope, and
    the ids count up from 1. *)
Record rows_sound (db : table) : Prop := {
  rs_ids : List.map id db = List.map Z.of_nat (List.seq 1 (List.length db));
  rs_hashes : Forall (fun r => recompute r = Ok (data_hash r)) db;
  rs_texts : Forall enveloped db;
  rs_unique : NoDup (List.map data_hash db)
}.

(** *** Statistics *)

(** The number of rows that carry a tag. *)
Definition tag_count (tag : str) (db : table) : Z :=
  Z.of_nat (List.length (List.filter (fun r => str_eqb (action_type r) tag) db)).

Definition sum_counts (d : list (str * Z)) : Z :=
  List.fold_right (fun kv s => (snd kv + s)%Z) 0%Z d.

Definition count_of (tag : str) (d : list (str * Z)) : Z :=
  match dict_get tag d with
  | Some n => n
  | None => 0%Z
  end.

(** *** Exports and pages *)

(** The timestamp of the row lies within the bounds that are given; a bound
    that is [None] or the empty string is no bound. *)
Definition in_range (start_date end_date : option str) (r : Ledger) : bool :=
  match start_date with
  | Some (c :: s) => str_leb (c :: s) (timestamp r)
  | _ => true
  end
  &&
  match end_date with
  | Some (c :: s) => str_leb (timestamp r) (c :: s)
  | _ => true
  end.

Definition midnight : table :=
  Eval vm_compute in
    snd (add_ledger_entry (env_at "2024-03-02T00:00:00.000250") chain1 (Some 2%Z)
           (lit "expense") cost (lit "Expense: Fuel")).

Definition midnight_entry : Ledger := Eval vm_compute in List.nth 1 midnight blank.

(** *** Loggers *)

Definition event_call : result str * table :=
  Eval vm_compute in
    log_system_event (env_at "2024-03-01T11:00:00") chain1 (lit "backup")
      [(key "files", PInt 3); (key "event_type", PStr (lit "nightly"))].

Definition user_call : result str * table :=
  Eval vm_compute in
    log_user_action (env_at "2024-03-01T11:05:00.120000") chain1 (Some 1%Z)
      (lit "create_user") (PDict [(key "username", PStr (lit "ana"))]).

(** *** The CSV export *)

(** A reader of the texts the writer produces: fields separated by commas,
    rows ended by a carriage return and a line feed, a quoted field running
    to its closing quote with a doubled quote standing for one. An empty
    line is a row without fields. [fld] and [row] hold the field and the
    row being read, last read first. *)
Inductive csv_state : Type :=
| StartRecord
| StartField
| InPlain
| InQuoted
| QuoteSeen
| AfterCR.

Fixpoint csv_run (st : csv_state) (fld : str) (row : list str)
    (rows : list (list str)) (s : str) : option (list (list str)) :=
  match s with
  | [] =>
      match st with
      | StartRecord => Some (List.rev rows)
      | _ => None
      end
  | c :: r =>
      match st with
      | StartRecord =>
          if c =? 13 then csv_run AfterCR [] [] ([] :: rows) r
          else if c =? 34 then csv_run InQuoted [] [] rows r
          else if c =? 44 then csv_run StartField [] [[]] rows r
          else if c =? 10 then None
          else csv_run InPlain [c] [] rows r
      | StartField =>
          if c =? 13 then csv_run AfterCR [] [] (List.rev ([] :: row) :: rows) r
          else if c =? 34 then csv_run InQuoted [] row rows r
          else if c =? 44 then csv_run StartField [] ([] :: row) rows r
          else if c =? 10 then None
          else csv_run InPlain [c] row rows r
      | InPlain =>
          if c =? 13
          then csv_run AfterCR [] [] (List.rev (List.rev fld :: row) :: rows) r
          else if c =? 44 then csv_run StartField [] (List.rev fld :: row) rows r
          else if (c =? 34) || (c =? 10) then None
          else csv_run InPlain (c :: fld) row rows r
      | InQuoted =>
          if c =? 34 then csv_run QuoteSeen fld row rows r
          else csv_run InQuoted (c :: fld) row rows r
      | QuoteSeen =>
          if c =? 34 then csv_run InQuoted (34 :: fld) row rows r
          else if c =? 13
          then csv_run AfterCR [] [] (List.rev (List.rev fld :: row) :: rows) r
          else if c =? 44 then csv_run StartField [] (List.rev fld :: row) rows r
          else None
      | AfterCR =>
          if c =? 10 then csv_run StartRecord [] [] rows r else None
      end
  end.

Definition csv_read (s : str) : option (list (list str)) :=
  csv_run StartRecord [] [] [] s.

(** The columns of a row as the export writes them. *)
Definition csv_columns (r : Ledger) : list str :=
  [ str_of_Z (id r); timestamp r; prev_hash r; data_hash r;
    actor_ref_or_empty (actor_id r); action_type r; data_text r ].

Definition csv_call : result str * table :=
  Eval vm_compute in
    export_ledger_csv
      {| config_name := lit "HydroHub Cantilan";
         generated := lit "2024-03-02 08:00:00.000000+08:00";
         export_now := lit "2024-03-02T00:00:00.000100";
         log_env := env_at "2024-03-02T00:00:00.000900" |}
      None None (Some 1%Z) chain1.

(** The JSON of an optional date. *)
Definition json_date (d : option str) : json :=
  match d with
  | Some t => JString (decoded t)
  | None => JNull
  end.

(** *** Known values *)

(** JSON text written with an apostrophe wherever the text has a double
    quote. *)
Definition dq (s : string) : str :=
  List.map (fun c => if c =? 39 then 34 else c) (lit s).

(** * Lemmas and theorems *)

(** ** The decoder on the encoder's output *)

(** *** Escaped strings *)

Lemma hex_value_hexchar d : d < 16 -> hex_value (SHA256.hexchar d) = Some d.
Proof.
  intros H.
  assert (E : List.In d [0;1;2;3;4;5;6;7;8;9;10;11;12;13;14;15]).
  { simpl. lia. }
  simpl in E.
  repeat (destruct E as [E | E]; [subst d; reflexivity|]).
  contradiction.
Qed.

Lemma nibble_lt x k : N.land (N.shiftr x k) 15 < 16.
Proof.
  change 15 with (N.ones 4). rewrite N.land_ones.
  apply N.mod_lt. discriminate.
Qed.

Lemma hex4_eq u :
  hex4 u = [SHA256.hexchar (N.land (N.shiftr u 12) 15);
            SHA256.hexchar (N.land (N.shiftr u 8) 15);
            SHA256.hexchar (N.land (N.shiftr u 4) 15);
            SHA256.hexchar (N.land (N.shiftr u 0) 15)].
Proof. reflexivity. Qed.

Lemma nibbles_sum u :
  u < 65536 ->
  4096 * N.land (N.shiftr u 12) 15 + 256 * N.land (N.shiftr u 8) 15
  + 16 * N.land (N.shiftr u 4) 15 + N.land (N.shiftr u 0) 15 = u.
Proof.
  intros H.
  change 15 with (N.ones 4). rewrite !N.land_ones, !N.shiftr_div_pow2.
  change (2 ^ 12) with 4096. change (2 ^ 8) with 256. change (2 ^ 4) with 16.
  change (2 ^ 0) with 1.
  zify. Z.to_euclidean_division_equations. lia.
Qed.

Lemma decode_hex4 u r :
  u < 65536 ->
  exists h1 h2 h3 h4,
    hex4 u ++ r = h1 :: h2 :: h3 :: h4 :: r /\ decode_uXXXX h1 h2 h3 h4 = Some u.
Proof.
  intros H. rewrite hex4_eq. do 4 eexists. split; [reflexivity|].
  unfold decode_uXXXX. rewrite !hex_value_hexchar by apply nibble_lt.
  f_equal. apply nibbles_sum. exact H.
Qed.

Lemma scan_u u s :
  u < 65536 ->
  scanstring (92 :: 117 :: hex4 u ++ s) =
  if is_high u then
    match s with
    | b :: r2' =>
        if b =? 92 then
          match r2' with
          | x :: r2'' =>
              if x =? 117 then
                match r2'' with
                | g1 :: g2 :: g3 :: g4 :: r3 =>
                    match decode_uXXXX g1 g2 g3 g4 with
                    | None => None
                    | Some uni2 =>
                        if is_low uni2
                        then push (join_pair u uni2) (scanstring r3)
                        else push u (scanstring s)
                    end
                | _ => None
                end
              else push u (scanstring s)
          | [] => push u (scanstring s)
          end
        else push u (scanstring s)
    | [] => push u (scanstring s)
    end
  else push u (scanstring s).
Proof.
  intros H. destruct (decode_hex4 u s H) as (h1 & h2 & h3 & h4 & E & D).
  rewrite E. cbn [scanstring]. change (92 =? 34) with false. change (92 =? 92) with true.
  change (117 =? 117) with true. cbn iota. rewrite D. reflexivity.
Qed.

Lemma escape_unit_cases u :
  (escape_unit u = 92 :: 117 :: hex4 u /\ (u <? 32) || (126 <? u) = true /\ u <> 34 /\ u <> 92)
  \/ (exists x, escape_unit u = [92; x] /\ unescape x = Some u /\ (x =? 117) = false /\ u < 127)
  \/ (escape_unit u = [u] /\ (u =? 34) = false /\ (u =? 92) = false /\ (u <? 32) = false /\ u < 127).
Proof.
  unfold escape_unit.
  destruct (u =? 34) eqn:E1.
  { apply N.eqb_eq in E1. subst. right. left. exists 34. repeat split; reflexivity. }
  destruct (u =? 92) eqn:E2.
  { apply N.eqb_eq in E2. subst. right. left. exists 92. repeat split; reflexivity. }
  destruct ((32 <=? u) && (u <=? 126)) eqn:E3.
  { right. right. apply andb_true_iff in E3. destruct E3 as [A B].
    apply N.leb_le in A, B. repeat split; try reflexivity.
    - apply N.ltb_ge. exact A.
    - lia. }
  destruct (u =? 8) eqn:E4.
  { apply N.eqb_eq in E4. subst. right. left. exists 98. repeat split; reflexivity. }
  destruct (u =? 12) eqn:E5.
  { apply N.eqb_eq in E5. subst. right. left. exists 102. repeat split; reflexivity. }
  destruct (u =? 10) eqn:E6.
  { apply N.eqb_eq in E6. subst. right. left. exists 110. repeat split; reflexivity. }
  destruct (u =? 13) eqn:E7.
  { apply N.eqb_eq in E7. subst. right. left. exists 114. repeat split; reflexivity. }
  destruct (u =? 9) eqn:E8.
  { apply N.eqb_eq in E8. subst. right. left. exists 116. repeat split; reflexivity. }
  left. split; [reflexivity|]. apply N.eqb_neq in E1, E2.
  repeat split; auto.
  apply andb_false_iff in E3. apply orb_true_iff.
  destruct E3 as [A | A]; [left; apply N.ltb_lt; apply N.leb_gt in A; exact A
                          | right; apply N.ltb_lt; apply N.leb_gt in A; exact A].
Qed.

Lemma scan_short x u s :
  unescape x = Some u -> (x =? 117) = false ->
  scanstring (92 :: x :: s) = push u (scanstring s).
Proof.
  intros U X. cbn [scanstring]. change (92 =? 34) with false.
  change (92 =? 92) with true. cbn iota. rewrite X, U. reflexivity.
Qed.

Lemma scan_raw u s :
  (u =? 34) = false -> (u =? 92) = false -> (u <? 32) = false ->
  scanstring (u :: s) = push u (scanstring s).
Proof.
  intros A B C. cbn [scanstring]. rewrite A, B, C. reflexivity.
Qed.

Lemma high_range u : is_high u = true -> 0xd800 <= u <= 0xdbff.
Proof.
  unfold is_high. intros H. apply andb_true_iff in H. destruct H as [A B].
  apply N.leb_le in A, B. lia.
Qed.

Lemma low_range u : is_low u = true -> 0xdc00 <= u <= 0xdfff.
Proof.
  unfold is_low. intros H. apply andb_true_iff in H. destruct H as [A B].
  apply N.leb_le in A, B. lia.
Qed.

(** A unit that is not a high surrogate is read back on its own. *)
Lemma scan_unit_plain u s :
  u < 65536 -> is_high u = false ->
  scanstring (escape_unit u ++ s) = push u (scanstring s).
Proof.
  intros B H.
  destruct (escape_unit_cases u) as [(E & _) | [(x & E & U & X & _) | (E & A1 & A2 & A3 & _)]];
    rewrite E; cbn [List.app].
  - rewrite scan_u by exact B. rewrite H. reflexivity.
  - apply scan_short; assumption.
  - apply scan_raw; assumption.
Qed.

(** A high surrogate followed by a unit that is not a low surrogate. *)
Lemma scan_unit_high_other u v s :
  u < 65536 -> v < 65536 -> is_high u = true -> is_low v = false ->
  scanstring (escape_unit u ++ escape_unit v ++ s) =
  push u (scanstring (escape_unit v ++ s)).
Proof.
  intros B B' H L.
  destruct (escape_unit_cases u) as [(E & _) | [(x & E & U & X & K) | (E & _ & _ & _ & K)]];
    try (apply high_range in H; lia).
  rewrite E. cbn [List.app]. rewrite scan_u by exact B. rewrite H.
  destruct (escape_unit_cases v) as [(E' & _) | [(x & E' & U & X & _) | (E' & A1 & A2 & A3 & _)]];
    rewrite E'; cbn [List.app].
  - change (92 =? 92) with true. change (117 =? 117) with true. cbn iota.
    destruct (decode_hex4 v s B') as (h1 & h2 & h3 & h4 & Eh & D).
    rewrite Eh, D, L. reflexivity.
  - change (92 =? 92) with true. cbn iota. rewrite X. reflexivity.
  - rewrite A2. reflexivity.
Qed.

Lemma scan_unit_high_end u s :
  u < 65536 -> is_high u = true ->
  scanstring (escape_unit u ++ 34 :: s) = push u (scanstring (34 :: s)).
Proof.
  intros B H.
  destruct (escape_unit_cases u) as [(E & _) | [(x & E & U & X & K) | (E & _ & _ & _ & K)]];
    try (apply high_range in H; lia).
  rewrite E. cbn [List.app]. rewrite scan_u by exact B. rewrite H. reflexivity.
Qed.

(** A surrogate pair is joined. *)
Lemma scan_unit_pair u v s :
  u < 65536 -> v < 65536 -> is_high u = true -> is_low v = true ->
  scanstring (escape_unit u ++ escape_unit v ++ s) =
  push (join_pair u v) (scanstring s).
Proof.
  intros B B' H L.
  destruct (escape_unit_cases u) as [(E & _) | [(x & E & U & X & K) | (E & _ & _ & _ & K)]];
    try (apply high_range in H; lia).
  rewrite E. cbn [List.app]. rewrite scan_u by exact B. rewrite H.
  destruct (escape_unit_cases v) as [(E' & _) | [(x & E' & U & X & K) | (E' & _ & _ & _ & K)]];
    try (apply low_range in L; lia).
  rewrite E'. cbn [List.app].
  change (92 =? 92) with true. change (117 =? 117) with true. cbn iota.
  destruct (decode_hex4 v s B') as (h1 & h2 & h3 & h4 & Eh & D).
  rewrite Eh, D, L. reflexivity.
Qed.

Lemma join_cons_plain u r : is_high u = false -> join (u :: r) = u :: join r.
Proof. intros H. destruct r; cbn [join]; [reflexivity|]. rewrite H. reflexivity. Qed.

Lemma scan_units n :
  forall us rest,
    (List.length us <= n)%nat ->
    Forall (fun u => u < 65536) us ->
    scanstring (List.flat_map escape_unit us ++ 34 :: rest) = Some (join us, rest).
Proof.
  induction n as [|n IH]; intros us rest Hn Hall.
  - destruct us; [reflexivity | simpl in Hn; lia].
  - destruct us as [|u us]; [reflexivity|].
    inversion Hall as [|? ? Hu Hus]; subst.
    cbn [List.flat_map]. rewrite <- app_assoc.
    destruct (is_high u) eqn:H.
    + destruct us as [|v us].
      * cbn [List.flat_map List.app]. rewrite scan_unit_high_end by assumption.
        reflexivity.
      * inversion Hus as [|? ? Hv Hvs]; subst.
        cbn [List.flat_map]. rewrite <- app_assoc.
        destruct (is_low v) eqn:L.
        -- rewrite scan_unit_pair by assumption.
           rewrite IH; [| simpl in Hn |- *; lia | assumption].
           cbn [join push]. rewrite H, L. reflexivity.
        -- rewrite scan_unit_high_other by assumption.
           rewrite app_assoc.
           change (escape_unit v ++ List.flat_map escape_unit us)
             with (List.flat_map escape_unit (v :: us)).
           rewrite IH; [| simpl in Hn |- *; lia | assumption].
           cbn [join push]. rewrite H, L. reflexivity.
    + rewrite scan_unit_plain by assumption.
      rewrite IH; [| simpl in Hn; lia | assumption].
      rewrite join_cons_plain by assumption. reflexivity.
Qed.

Lemma surrogate_lor base x :
  N.land base 0x3ff = 0 ->
  N.lor base (N.land x 0x3ff) = base + x mod 1024.
Proof.
  intros Hb.
  assert (Z : N.land base (N.land x 0x3ff) = 0).
  { rewrite (N.land_comm x), N.land_assoc, Hb. apply N.land_0_l. }
  rewrite <- N.lxor_lor by exact Z.
  rewrite <- N.add_nocarry_lxor by exact Z.
  change 0x3ff with (N.ones 10). rewrite N.land_ones. reflexivity.
Qed.

Lemma units_bound c : Forall (fun u => u < 65536) (units c).
Proof.
  unfold units. destruct (c <? 65536) eqn:E.
  - apply N.ltb_lt in E. repeat constructor. exact E.
  - cbv zeta. rewrite !surrogate_lor by reflexivity.
    assert (A := N.mod_lt (N.shiftr (c - 65536) 10) 1024).
    assert (B := N.mod_lt (c - 65536) 1024).
    repeat constructor; lia.
Qed.

Lemma escape_char_units c :
  escape_char c = List.flat_map escape_unit (units c).
Proof.
  unfold escape_char, units. destruct (c <? 65536) eqn:E.
  - cbn [List.flat_map]. rewrite app_nil_r. reflexivity.
  - cbv zeta. cbn [List.flat_map]. rewrite app_nil_r.
    rewrite !surrogate_lor by reflexivity.
    assert (A := N.mod_lt (N.shiftr (c - 65536) 10) 1024).
    assert (B := N.mod_lt (c - 65536) 1024).
    set (a := N.shiftr (c - 65536) 10 mod 1024) in *.
    set (b := (c - 65536) mod 1024) in *.
    assert (Hu : forall u, 55296 <= u -> escape_unit u = 92 :: 117 :: hex4 u).
    { intros u Hu.
      destruct (escape_unit_cases u) as [(E' & _) | [(x & _ & _ & _ & K) | (_ & _ & _ & _ & K)]];
        [exact E' | lia | lia]. }
    rewrite !Hu by lia. reflexivity.
Qed.

Lemma flat_map_escape s :
  List.flat_map escape_char s = List.flat_map escape_unit (List.flat_map units s).
Proof.
  induction s as [|c s IH]; [reflexivity|].
  cbn [List.flat_map]. rewrite flat_map_app, IH, escape_char_units. reflexivity.
Qed.

(** The decoder reads an encoded string back up to the joining of
    surrogate pairs. *)
Lemma scan_encoded s rest :
  scanstring (List.flat_map escape_char s ++ 34 :: rest) = Some (decoded s, rest).
Proof.
  rewrite flat_map_escape. apply (scan_units (List.length (List.flat_map units s))).
  - apply Nat.le_refl.
  - induction s as [|c s IH]; [constructor|].
    cbn [List.flat_map]. apply Forall_app. split; [apply units_bound | exact IH].
Qed.

(** *** Number tokens *)

Lemma span_digits_app ds r :
  Forall (fun c => is_digit c = true) ds ->
  starts_ok not_digit r ->
  span_digits (ds ++ r) = (ds, r).
Proof.
  intros H R. induction H as [|c ds Hc _ IH]; cbn [List.app span_digits].
  - destruct r as [|c r]; [reflexivity|]. cbn [span_digits].
    unfold starts_ok, not_digit in R. apply negb_true_iff in R. rewrite R. reflexivity.
  - rewrite Hc, IH. reflexivity.
Qed.

Lemma str_of_uint_digits d : Forall (fun c => is_digit c = true) (str_of_uint d).
Proof. induction d; cbn [str_of_uint]; constructor; auto. Qed.

Lemma nzhead_shape d :
  match Decimal.nzhead d with Decimal.D0 _ => False | _ => True end.
Proof. induction d; cbn; auto. Qed.

Lemma to_uint_shape n :
  N.to_uint n = Decimal.D0 Decimal.Nil \/
  (exists c r, str_of_N n = c :: r /\ is_digit c = true /\ (c =? 48) = false).
Proof.
  assert (E : N.to_uint n = Decimal.unorm (N.to_uint n)).
  { rewrite <- (DecimalN.Unsigned.of_to n) at 1. apply DecimalN.Unsigned.to_of. }
  unfold str_of_N. rewrite E. unfold Decimal.unorm.
  assert (S := nzhead_shape (N.to_uint n)).
  destruct (Decimal.nzhead (N.to_uint n)); auto; try contradiction;
    right; cbn [str_of_uint]; do 2 eexists; (split; [reflexivity|split; reflexivity]).
Qed.

Lemma match_int_N n more :
  starts_ok not_digit more ->
  match_int (str_of_N n ++ more) = Some (str_of_N n, more).
Proof.
  intros M. destruct (to_uint_shape n) as [Z | (c & r & E & D & NZ)].
  - unfold str_of_N. rewrite Z. reflexivity.
  - assert (A := str_of_uint_digits (N.to_uint n)).
    fold (str_of_N n) in A. rewrite E in *. inversion A; subst.
    cbn [List.app match_int]. rewrite NZ, D.
    rewrite span_digits_app by assumption. reflexivity.
Qed.

Lemma str_of_N_head n : exists c r, str_of_N n = c :: r /\ is_digit c = true.
Proof.
  destruct (to_uint_shape n) as [Z | (c & r & E & D & _)].
  - unfold str_of_N. rewrite Z. do 2 eexists. split; reflexivity.
  - eauto.
Qed.

Lemma is_stop_cases c : is_stop c = true -> c = 44 \/ c = 93 \/ c = 125.
Proof.
  unfold is_stop. intros H. apply orb_true_iff in H. destruct H as [H | H].
  - apply orb_true_iff in H. destruct H as [H | H]; apply N.eqb_eq in H; auto.
  - apply N.eqb_eq in H; auto.
Qed.

Lemma stop_not_digit rest : stop rest -> starts_ok not_digit rest.
Proof.
  destruct rest as [|c r]; [trivial|]. cbn. intros H.
  apply is_stop_cases in H. destruct H as [-> | [-> | ->]]; reflexivity.
Qed.

Lemma match_frac_ok fp more :
  frac_ok fp -> starts_ok not_digit more ->
  starts_ok (fun c => negb (c =? 46)) more ->
  match_frac (fp ++ more) = (fp, more).
Proof.
  intros [-> | (d & ds & D & ->)] M M'.
  - cbn [List.app]. destruct more as [|c r]; [reflexivity|].
    cbn in M'. apply negb_true_iff in M'. cbn [match_frac]. rewrite M'. reflexivity.
  - cbn [List.app match_frac]. change (46 =? 46) with true. cbv iota.
    change (d :: ds ++ more) with ((d :: ds) ++ more).
    rewrite span_digits_app by assumption. reflexivity.
Qed.

Lemma match_exp_ok ep rest :
  exp_ok ep -> stop rest -> match_exp (ep ++ rest) = (ep, rest).
Proof.
  intros [-> | (sg & d & ds & S & D & ->)] R.
  - cbn [List.app]. destruct rest as [|c r]; [reflexivity|].
    cbn in R. apply is_stop_cases in R. destruct R as [-> | [-> | ->]]; reflexivity.
  - cbn [List.app match_exp]. change ((101 =? 101) || (101 =? 69)) with true. cbv iota.
    assert (G : (sg =? 45) || (sg =? 43) = true) by (destruct S; subst; reflexivity).
    rewrite G. change (d :: ds ++ rest) with ((d :: ds) ++ rest).
    rewrite span_digits_app; [reflexivity | assumption | apply stop_not_digit; assumption].
Qed.

Lemma match_number_parts neg ip fp ep rest :
  frac_ok fp -> exp_ok ep -> stop rest ->
  let sign := if neg : bool then [45] else [] in
  match_number (sign ++ str_of_N ip ++ fp ++ ep ++ rest)
  = Some (sign ++ str_of_N ip ++ fp ++ ep, rest).
Proof.
  intros F E R sign.
  assert (M2 : starts_ok not_digit (ep ++ rest) /\
               starts_ok (fun c => negb (c =? 46)) (ep ++ rest)).
  { destruct E as [-> | (sg & d & ds & _ & _ & ->)]; cbn [List.app].
    - split; [apply stop_not_digit; exact R|].
      destruct rest as [|c r]; [exact I|]. cbn in R |- *.
      apply is_stop_cases in R. destruct R as [-> | [-> | ->]]; reflexivity.
    - split; reflexivity. }
  assert (M1 : starts_ok not_digit (fp ++ ep ++ rest)).
  { destruct F as [-> | (d & ds & _ & ->)]; [apply M2 | reflexivity]. }
  assert (Core : match_int (str_of_N ip ++ fp ++ ep ++ rest) = Some (str_of_N ip, fp ++ ep ++ rest)
                 -> match match_int (str_of_N ip ++ fp ++ ep ++ rest) with
                    | None => None
                    | Some (i, s1) =>
                        let (f, s2) := match_frac s1 in
                        let (e, s3) := match_exp s2 in Some (sign ++ i ++ f ++ e, s3)
                    end = Some (sign ++ str_of_N ip ++ fp ++ ep, rest)).
  { intros ->. rewrite match_frac_ok by (try exact F; apply M2).
    rewrite match_exp_ok by assumption. reflexivity. }
  unfold match_number. subst sign. destruct neg; cbn [List.app].
  - change (45 =? 45) with true. cbv iota. apply Core, match_int_N, M1.
  - destruct (str_of_N_head ip) as (c & r & Ec & Dc).
    assert (C45 : (c =? 45) = false).
    { unfold is_digit in Dc. apply andb_true_iff in Dc. destruct Dc as [A B].
      apply N.leb_le in A. apply N.eqb_neq. lia. }
    assert (NS : forall s, s = c :: r ++ fp ++ ep ++ rest ->
                 (let (sign, s0) := match s with
                                    | [] => ([], s)
                                    | c0 :: r0 => if c0 =? 45 then ([c0], r0) else ([], s)
                                    end in
                  match match_int s0 with
                  | None => None
                  | Some (i, s1) =>
                      let (f, s2) := match_frac s1 in
                      let (e, s3) := match_exp s2 in Some (sign ++ i ++ f ++ e, s3)
                  end)
                 = match match_int s with
                   | None => None
                   | Some (i, s1) =>
                       let (f, s2) := match_frac s1 in
                       let (e, s3) := match_exp s2 in Some ([] ++ i ++ f ++ e, s3)
                   end).
    { intros s ->. rewrite C45. reflexivity. }
    rewrite NS by (rewrite Ec; reflexivity).
    apply Core, match_int_N, M1.
Qed.

(** *** Scalars *)

Lemma word_miss w v c s a w' :
  lit w = a :: w' -> (a =? c) = false -> word w v (c :: s) = None.
Proof.
  intros E H. unfold word. rewrite E. cbn [strip_prefix]. rewrite H. reflexivity.
Qed.

Lemma parse_value_scalar f c r :
  (c =? 34) = false -> (c =? 123) = false -> (c =? 91) = false ->
  parse_value (S f) (c :: r) = scan_scalar (c :: r).
Proof. intros A B C. cbn [parse_value]. rewrite A, B, C. reflexivity. Qed.

Lemma number_head_facts c :
  number_head c = true ->
  (c =? 34) = false /\ (c =? 123) = false /\ (c =? 91) = false /\
  (110 =? c) = false /\ (116 =? c) = false /\ (102 =? c) = false /\
  is_ws c = false /\ (c =? 93) = false /\ (c =? 125) = false.
Proof.
  unfold number_head, is_digit, is_ws. intros H.
  assert (R : 48 <= c <= 57 \/ c = 45).
  { apply orb_true_iff in H. destruct H as [H | H].
    - apply andb_true_iff in H. destruct H as [A B]. apply N.leb_le in A, B. lia.
    - apply N.eqb_eq in H. lia. }
  assert (Q : forall k, k <> c -> (k =? c) = false) by (intros; apply N.eqb_neq; assumption).
  assert (Q' : forall k, k <> c -> (c =? k) = false) by (intros; apply N.eqb_neq; auto).
  rewrite !Q' by lia. rewrite !Q by lia. repeat split.
Qed.

Lemma scan_scalar_number c r rest :
  number_head c = true ->
  match_number ((c :: r) ++ rest) = Some (c :: r, rest) ->
  scan_scalar ((c :: r) ++ rest) = Some (JNumber (c :: r), rest).
Proof.
  intros H M. destruct (number_head_facts c H) as (_ & _ & _ & N1 & N2 & N3 & _).
  unfold scan_scalar. rewrite M. cbn [List.app].
  rewrite (word_miss "null" _ _ _ 110 (lit "ull")) by (reflexivity || assumption).
  rewrite (word_miss "true" _ _ _ 116 (lit "rue")) by (reflexivity || assumption).
  rewrite (word_miss "false" _ _ _ 102 (lit "alse")) by (reflexivity || assumption).
  reflexivity.
Qed.

Lemma digit_char_digit d : is_digit (digit_char d) = true.
Proof.
  unfold is_digit, digit_char.
  assert (H : d mod 10 < 10) by (apply N.mod_lt; discriminate).
  generalize dependent (d mod 10). intros m H.
  apply andb_true_iff. split; apply N.leb_le; lia.
Qed.

Lemma is_digit_head c : is_digit c = true -> number_head c = true.
Proof. unfold number_head. intros ->. reflexivity. Qed.

Lemma pad2_shape n :
  exists d ds, pad2 n = d :: ds /\ Forall (fun c => is_digit c = true) (d :: ds).
Proof.
  unfold pad2. assert (A := str_of_uint_digits (N.to_uint n)). fold (str_of_N n) in A.
  destruct (str_of_N_head n) as (c & r & E & D).
  destruct (n <? 10).
  - do 2 eexists. split; [reflexivity|]. constructor; [reflexivity | exact A].
  - rewrite E in *. eauto.
Qed.

Lemma finite_parts neg ip fr ex :
  exists fp ep,
    float_repr (FFinite neg ip fr ex)
    = (if neg then [45] else []) ++ str_of_N ip ++ fp ++ ep
    /\ frac_ok fp /\ exp_ok ep.
Proof.
  assert (EX : forall e : Z, exp_ok (101 :: (if Z.ltb e 0 then 45 else 43) :: pad2 (Z.abs_N e))).
  { intros e. destruct (pad2_shape (Z.abs_N e)) as (d & ds & -> & D).
    right. exists (if Z.ltb e 0 then 45 else 43), d, ds.
    split; [destruct (Z.ltb e 0); auto | split; [exact D | reflexivity]]. }
  assert (FR : forall d ds, frac_ok (46 :: List.map digit_char (d :: ds))).
  { intros d ds. right. exists (digit_char d), (List.map digit_char ds).
    split; [| reflexivity].
    change (Forall (fun c => is_digit c = true) (List.map digit_char (d :: ds))).
    apply Forall_map. apply Forall_forall. intros; apply digit_char_digit. }
  cbn [float_repr].
  destruct fr as [|d ds]; destruct ex as [e|].
  - exists [], (101 :: (if Z.ltb e 0 then 45 else 43) :: pad2 (Z.abs_N e)).
    split; [reflexivity | split; [left; reflexivity | apply EX]].
  - exists (lit ".0"), []. split; [reflexivity|]. split; [| left; reflexivity].
    right. exists 48, []. split; [repeat constructor | reflexivity].
  - exists (46 :: List.map digit_char (d :: ds)),
           (101 :: (if Z.ltb e 0 then 45 else 43) :: pad2 (Z.abs_N e)).
    split; [reflexivity | split; [apply FR | apply EX]].
  - exists (46 :: List.map digit_char (d :: ds)), [].
    split; [reflexivity | split; [apply FR | left; reflexivity]].
Qed.

Lemma signed_number neg ip fp ep f rest :
  frac_ok fp -> exp_ok ep -> stop rest ->
  let tok := (if neg : bool then [45] else []) ++ str_of_N ip ++ fp ++ ep in
  parse_value (S f) (tok ++ rest) = Some (JNumber tok, rest) /\ head_ok tok.
Proof.
  intros F E R tok.
  assert (M := match_number_parts neg ip fp ep rest F E R). cbv zeta in M.
  assert (A : tok ++ rest
              = (if neg then [45] else []) ++ str_of_N ip ++ fp ++ ep ++ rest).
  { subst tok. rewrite <- !List.app_assoc. reflexivity. }
  rewrite <- A in M. fold tok in M.
  assert (H : exists c r, tok = c :: r /\ number_head c = true).
  { subst tok. destruct neg.
    - do 2 eexists. split; reflexivity.
    - destruct (str_of_N_head ip) as (c & r & Ec & Dc). rewrite Ec.
      do 2 eexists. split; [reflexivity | apply is_digit_head, Dc]. }
  destruct H as (c & r & Et & Hc). rewrite Et in *.
  destruct (number_head_facts c Hc) as (A1 & A2 & A3 & _ & _ & _ & W & B1 & B2).
  split.
  - cbn [List.app]. rewrite parse_value_scalar by assumption.
    apply (scan_scalar_number c r rest Hc M).
  - exists c, r. auto.
Qed.

Lemma frac_ok_nil : frac_ok []. Proof. left; reflexivity. Qed.
Lemma exp_ok_nil : exp_ok []. Proof. left; reflexivity. Qed.

Lemma number_text_parse tok :
  number_text tok ->
  forall f rest, stop rest ->
    parse_value (S f) (tok ++ rest) = Some (JNumber tok, rest) /\ head_ok tok.
Proof.
  intros [(z & ->) | (fl & ->)] f rest R.
  - unfold str_of_Z. destruct z as [|p|p].
    + assert (H := signed_number false 0 [] [] f rest frac_ok_nil exp_ok_nil R).
      cbv zeta in H. cbn [List.app] in H. rewrite !List.app_nil_r in H. exact H.
    + assert (H := signed_number false (Z.to_N (Z.pos p)) [] [] f rest frac_ok_nil exp_ok_nil R).
      cbv zeta in H. cbn [List.app] in H. rewrite !List.app_nil_r in H. exact H.
    + assert (H := signed_number true (N.pos p) [] [] f rest frac_ok_nil exp_ok_nil R).
      cbv zeta in H. cbn [List.app] in H. rewrite !List.app_nil_r in H. exact H.
  - destruct fl as [| | |neg ip fr ex].
    + split; [reflexivity|]. do 2 eexists. split; [reflexivity|]. repeat split.
    + split; [reflexivity|]. do 2 eexists. split; [reflexivity|]. repeat split.
    + split; [reflexivity|]. do 2 eexists. split; [reflexivity|]. repeat split.
    + destruct (finite_parts neg ip fr ex) as (fp & ep & -> & F & E).
      apply signed_number; assumption.
Qed.

(** *** The whole document *)

Lemma render_array l : render (JArray l) = 91 :: render_elems l.
Proof. reflexivity. Qed.

Lemma render_object m : render (JObject m) = 123 :: render_members m.
Proof. reflexivity. Qed.

Lemma need_array l : need (JArray l) = S (need_elems l).
Proof. reflexivity. Qed.

Lemma need_object m : need (JObject m) = S (need_members m).
Proof. reflexivity. Qed.

Lemma json_ind' (P : json -> Prop) :
  P JNull -> (forall b, P (JBool b)) -> (forall t, P (JNumber t)) ->
  (forall s, P (JString s)) ->
  (forall l, Forall P l -> P (JArray l)) ->
  (forall m, Forall (fun kv => P (snd kv)) m -> P (JObject m)) ->
  forall j, P j.
Proof.
  intros H1 H2 H3 H4 H5 H6.
  fix F 1. intros [ |b|t|s|l|m].
  - exact H1.
  - apply H2.
  - apply H3.
  - apply H4.
  - apply H5.
    exact ((fix G (l : list json) : Forall P l :=
              match l with
              | [] => Forall_nil _
              | x :: r => Forall_cons _ (F x) (G r)
              end) l).
  - apply H6.
    exact ((fix G (m : list (str * json)) : Forall (fun kv => P (snd kv)) m :=
              match m with
              | [] => Forall_nil _
              | kv :: r => Forall_cons kv (F (snd kv)) (G r)
              end) m).
Qed.

Lemma head_ok_render j : wf_json j -> head_ok (render j).
Proof.
  intros W. destruct W as [ |b|tok T|s|l _|m _].
  - do 2 eexists. split; [reflexivity|]. repeat split.
  - destruct b; do 2 eexists; (split; [reflexivity|]); repeat split.
  - apply (number_text_parse tok T O []). exact I.
  - do 2 eexists. split; [reflexivity|]. repeat split.
  - rewrite render_array. do 2 eexists. split; [reflexivity|]. repeat split.
  - rewrite render_object. do 2 eexists. split; [reflexivity|]. repeat split.
Qed.

Lemma skip_ws_head s r : head_ok s -> skip_ws (s ++ r) = s ++ r.
Proof.
  intros (c & t & -> & W & _). cbn [List.app skip_ws]. rewrite W. reflexivity.
Qed.

Lemma scan_key k more :
  scanstring (List.flat_map escape_char k ++ [34] ++ more) = Some (decoded k, more).
Proof. apply scan_encoded. Qed.

Lemma parse_elems_render l :
  l <> [] ->
  Forall reads_back l -> Forall wf_json l ->
  forall fuel rest, (need_elems l <= fuel)%nat ->
    parse_elems fuel (render_elems l ++ rest) = Some (List.map norm l, rest).
Proof.
  induction l as [|x l IH]; [congruence|].
  intros _ HR HW fuel rest Hf.
  inversion HR as [|? ? Rx Rl]; subst. inversion HW as [|? ? Wx Wl]; subst.
  cbn [need_elems] in Hf. destruct fuel as [|f]; [lia|].
  cbn [parse_elems].
  destruct l as [|y l].
  - cbn [render_elems]. rewrite <- List.app_assoc. cbn [List.app].
    rewrite Rx by (try lia; reflexivity).
    reflexivity.
  - assert (E : render_elems (x :: y :: l) ++ rest
                = render x ++ 44 :: render_elems (y :: l) ++ rest).
    { cbn [render_elems]. rewrite <- List.app_assoc. reflexivity. }
    rewrite E. rewrite Rx by (try lia; reflexivity).
    cbn [skip_ws]. change (is_ws 44) with false. cbv iota.
    change (44 =? 93) with false. change (44 =? 44) with true. cbv iota.
    assert (Hy : head_ok (render_elems (y :: l))).
    { inversion Wl as [|? ? Wy _]; subst.
      destruct (head_ok_render y Wy) as (c & t & Ey & Fy).
      destruct l; cbn [render_elems]; rewrite Ey; exists c; eexists;
        (split; [reflexivity | exact Fy]). }
    rewrite skip_ws_head by exact Hy.
    rewrite IH; [reflexivity | congruence | assumption | assumption | lia].
Qed.

Ltac flatten_app :=
  repeat (cbn [List.app]; rewrite <- ?List.app_assoc; rewrite <- ?List.app_comm_cons);
  cbn [List.app].

Lemma encode_string_app k more :
  encode_string k ++ more = 34 :: List.flat_map escape_char k ++ [34] ++ more.
Proof. unfold encode_string. cbn [List.app]. rewrite <- List.app_assoc. reflexivity. Qed.

Lemma head_ok_members kv m : head_ok (render_members (kv :: m)).
Proof.
  destruct kv as [k x]. exists 34.
  destruct m as [|[k' x'] m]; cbn [render_members]; rewrite encode_string_app;
    eexists; (split; [reflexivity|]); repeat split.
Qed.

Lemma parse_members_render m :
  m <> [] ->
  Forall (fun kv => reads_back (snd kv)) m ->
  Forall (fun kv => wf_json (snd kv)) m ->
  forall fuel rest, (need_members m <= fuel)%nat ->
    parse_members fuel (render_members m ++ rest)
    = Some (List.map (fun kv => (decoded (fst kv), norm (snd kv))) m, rest).
Proof.
  induction m as [|[k x] m IH]; [congruence|].
  intros _ HR HW fuel rest Hf.
  inversion HR as [|? ? Rx Rl]; subst. inversion HW as [|? ? Wx Wl]; subst.
  cbn [snd] in Rx, Wx.
  cbn [need_members] in Hf. destruct fuel as [|f]; [lia|].
  assert (Hx := head_ok_render x Wx).
  destruct m as [|kv m].
  - assert (E : render_members [(k, x)] ++ rest
                = 34 :: List.flat_map escape_char k ++ [34] ++ 58 :: render x ++ 125 :: rest).
    { cbn [render_members]. unfold encode_string. flatten_app. reflexivity. }
    rewrite E. cbn [parse_members]. change (34 =? 34) with true. cbv iota.
    rewrite scan_key. cbn [skip_ws]. change (is_ws 58) with false. cbv iota.
    change (58 =? 58) with true. cbv iota.
    rewrite skip_ws_head by exact Hx.
    rewrite Rx by (try lia; reflexivity).
    reflexivity.
  - assert (E : render_members ((k, x) :: kv :: m) ++ rest
                = 34 :: List.flat_map escape_char k ++ [34] ++ 58 :: render x
                  ++ 44 :: render_members (kv :: m) ++ rest).
    { destruct kv as [k' x']. cbn [render_members].
      unfold encode_string at 1. flatten_app. reflexivity. }
    rewrite E. cbn [parse_members]. change (34 =? 34) with true. cbv iota.
    rewrite scan_key. cbn [skip_ws]. change (is_ws 58) with false. cbv iota.
    change (58 =? 58) with true. cbv iota.
    rewrite skip_ws_head by exact Hx.
    rewrite Rx by (try lia; reflexivity).
    cbn [skip_ws]. change (is_ws 44) with false. cbv iota.
    change (44 =? 125) with false. change (44 =? 44) with true. cbv iota.
    rewrite skip_ws_head by apply head_ok_members.
    rewrite IH; [reflexivity | congruence | assumption | assumption | lia].
Qed.

(** Every document the encoder writes is read back by the decoder. *)
Lemma parse_render j : wf_json j -> reads_back j.
Proof.
  induction j as [ |b|tok|s|l IH|m IH] using json_ind'; intros W fuel rest Hf R.
  - destruct fuel; [cbn in Hf; lia | reflexivity].
  - destruct fuel; [cbn in Hf; lia |]. destruct b; reflexivity.
  - destruct fuel; [cbn in Hf; lia |]. inversion W; subst.
    apply number_text_parse; assumption.
  - destruct fuel; [cbn in Hf; lia |].
    change (render (JString s) ++ rest) with (encode_string s ++ rest).
    rewrite encode_string_app. cbn [parse_value]. change (34 =? 34) with true.
    cbv iota. rewrite scan_key. reflexivity.
  - inversion W as [ | | | |? Wl| ]; subst.
    rewrite need_array in Hf. destruct fuel as [|f]; [lia|].
    rewrite render_array. cbn [List.app parse_value].
    change (91 =? 34) with false. change (91 =? 123) with false.
    change (91 =? 91) with true. cbv iota.
    destruct l as [|x l]; [reflexivity|].
    assert (HR : Forall reads_back (x :: l)).
    { apply Forall_forall. intros y Hy. rewrite Forall_forall in IH, Wl. auto. }
    assert (Hh : head_ok (render_elems (x :: l))).
    { inversion Wl as [|? ? Wx _]; subst.
      destruct (head_ok_render x Wx) as (c & t & Ex & Fx).
      destruct l; cbn [render_elems]; rewrite Ex; exists c; eexists;
        (split; [reflexivity | exact Fx]). }
    rewrite skip_ws_head by exact Hh.
    destruct Hh as (c & t & Ec & _ & C93 & _).
    assert (PE := parse_elems_render (x :: l) ltac:(congruence) HR Wl f rest ltac:(lia)).
    rewrite Ec in *. cbn [List.app] in *. rewrite C93, PE. reflexivity.
  - inversion W as [ | | | | |? Wm]; subst.
    rewrite need_object in Hf. destruct fuel as [|f]; [lia|].
    rewrite render_object. cbn [List.app parse_value].
    change (123 =? 34) with false. change (123 =? 123) with true. cbv iota.
    destruct m as [|kv m]; [reflexivity|].
    assert (HR : Forall (fun kv => reads_back (snd kv)) (kv :: m)).
    { apply Forall_forall. intros y Hy. rewrite Forall_forall in IH, Wm. auto. }
    assert (Hh := head_ok_members kv m).
    rewrite skip_ws_head by exact Hh.
    destruct Hh as (c & t & Ec & _ & _ & C125).
    assert (PE := parse_members_render (kv :: m) ltac:(congruence) HR Wm f rest ltac:(lia)).
    rewrite Ec in *. cbn [List.app] in *. rewrite C125, PE. reflexivity.
Qed.

Lemma need_bound j : (need j <= 2 * List.length (render j) + 1)%nat.
Proof.
  induction j as [ |b|tok|s|l IH|m IH] using json_ind'; try (cbn [need]; lia).
  - rewrite need_array, render_array. cbn [List.length].
    enough (need_elems l <= 2 * List.length (render_elems l))%nat by lia.
    induction l as [|x l IHl]; [cbn; lia|].
    inversion IH as [|? ? Hx Hl]; subst. specialize (IHl Hl).
    cbn [need_elems]. destruct l as [|y l].
    + cbn [render_elems need_elems]. rewrite List.length_app. cbn [List.length]. lia.
    + change (render_elems (x :: y :: l)) with (render x ++ 44 :: render_elems (y :: l)).
      rewrite List.length_app. cbn [List.length]. lia.
  - rewrite need_object, render_object. cbn [List.length].
    enough (need_members m <= 2 * List.length (render_members m))%nat by lia.
    induction m as [|[k x] m IHm]; [cbn; lia|].
    inversion IH as [|? ? Hx Hl]; subst. cbn [snd] in Hx. specialize (IHm Hl).
    cbn [need_members]. destruct m as [|[k' x'] m].
    + cbn [render_members need_members]. rewrite !List.length_app. cbn [List.length].
      rewrite List.length_app. cbn [List.length]. lia.
    + change (render_members ((k, x) :: (k', x') :: m))
        with (encode_string k ++ 58 :: render x ++ 44 :: render_members ((k', x') :: m)).
      rewrite !List.length_app. cbn [List.length]. rewrite List.length_app.
      cbn [List.length]. lia.
Qed.

(** [json.loads(json.dumps(v))] never fails and has the shape of the
    document written. *)
Lemma loads_render j : wf_json j -> json_loads (render j) = Some (norm j).
Proof.
  intros W. unfold json_loads.
  assert (H := head_ok_render j W).
  assert (S := skip_ws_head (render j) [] H). rewrite List.app_nil_r in S. rewrite S.
  assert (P := parse_render j W (2 * List.length (render j) + 1)%nat [] (need_bound j) I).
  rewrite List.app_nil_r in P. rewrite P. reflexivity.
Qed.

(** *** The encoder writes well-formed documents *)

Lemma to_json_PList l :
  to_json (PList l) = (js <- to_json_list l ;; Ok (JArray js)).
Proof. reflexivity. Qed.

Lemma to_json_PDict items :
  to_json (PDict items) =
  (kjs <- to_json_items items ;;
   if sortable kjs then m <- keys_to_text (sort_items kjs) ;; Ok (JObject m)
   else Raise TypeError).
Proof. reflexivity. Qed.

Lemma pyval_ind' (P : pyval -> Prop) :
  P PNone -> (forall b, P (PBool b)) -> (forall z, P (PInt z)) ->
  (forall f, P (PFloat f)) -> (forall s, P (PStr s)) ->
  (forall l, Forall P l -> P (PList l)) ->
  (forall items, Forall (fun kv => P (snd kv)) items -> P (PDict items)) ->
  P POther ->
  forall v, P v.
Proof.
  intros H1 H2 H3 H4 H5 H6 H7 H8.
  fix F 1. intros [ |b|z|f|s|l|items| ].
  - exact H1.
  - apply H2.
  - apply H3.
  - apply H4.
  - apply H5.
  - apply H6.
    exact ((fix G (l : list pyval) : Forall P l :=
              match l with
              | [] => Forall_nil _
              | x :: r => Forall_cons _ (F x) (G r)
              end) l).
  - apply H7.
    exact ((fix G (m : list (pykey * pyval)) : Forall (fun kv => P (snd kv)) m :=
              match m with
              | [] => Forall_nil _
              | kv :: r => Forall_cons kv (F (snd kv)) (G r)
              end) items).
  - exact H8.
Qed.

Lemma Ok_inj {A} (a b : A) : Ok a = Ok b -> a = b.
Proof. congruence. Qed.

Lemma bind_ok {A B} (r : result A) (k : A -> result B) b :
  bind r k = Ok b -> exists a, r = Ok a /\ k a = Ok b.
Proof. destruct r; cbn; [eauto | discriminate]. Qed.

Lemma Forall_insert_item {A} (P : pykey * A -> Prop) x l :
  P x -> Forall P l -> Forall P (insert_item x l).
Proof.
  intros Hx H. induction H as [|y l Hy Hl IH]; cbn [insert_item].
  - repeat constructor; assumption.
  - destruct (key_leb (fst x) (fst y)); repeat constructor; assumption.
Qed.

Lemma Forall_sort_items {A} (P : pykey * A -> Prop) l :
  Forall P l -> Forall P (sort_items l).
Proof.
  induction 1; cbn [sort_items]; [constructor | apply Forall_insert_item; assumption].
Qed.

Lemma keys_to_text_values l m :
  keys_to_text l = Ok m ->
  Forall (fun kv => wf_json (snd kv)) l -> Forall (fun kv => wf_json (snd kv)) m.
Proof.
  revert m. induction l as [|[k v] l IH]; intros m H W; cbn [keys_to_text] in H.
  - inversion H; constructor.
  - apply bind_ok in H. destruct H as (t & _ & H).
    apply bind_ok in H. destruct H as (r & Hr & H). inversion H; subst.
    inversion W as [|? ? Wv Wl]; subst. constructor; [exact Wv | exact (IH r Hr Wl)].
Qed.

Lemma to_json_wf v : forall j, to_json v = Ok j -> wf_json j.
Proof.
  induction v as [ |b|z|f|s|l IH|items IH| ] using pyval_ind'; intros j H.
  - inversion H; constructor.
  - inversion H; constructor.
  - inversion H; constructor. left; eauto.
  - inversion H; constructor. right; eauto.
  - inversion H; constructor.
  - rewrite to_json_PList in H. apply bind_ok in H. destruct H as (js & Hjs & H).
    inversion H; subst. constructor.
    clear H. revert js Hjs. induction IH as [|x l Hx _ IHl]; intros js Hjs;
      cbn [to_json_list] in Hjs.
    + inversion Hjs; constructor.
    + apply bind_ok in Hjs. destruct Hjs as (jx & Ejx & Hjs).
      apply bind_ok in Hjs. destruct Hjs as (r & Er & Hjs). inversion Hjs; subst.
      constructor; auto.
  - rewrite to_json_PDict in H. apply bind_ok in H. destruct H as (kjs & Hk & H).
    destruct (sortable kjs); [|discriminate].
    apply bind_ok in H. destruct H as (m & Hm & H). inversion H; subst.
    constructor. apply (keys_to_text_values _ _ Hm). apply Forall_sort_items.
    clear H Hm. revert kjs Hk. induction IH as [|[k x] l Hx _ IHl]; intros kjs Hk;
      cbn [to_json_items] in Hk.
    + inversion Hk; constructor.
    + apply bind_ok in Hk. destruct Hk as (jx & Ejx & Hk).
      apply bind_ok in Hk. destruct Hk as (r & Er & Hk). inversion Hk; subst.
      constructor; [apply Hx; assumption | auto].
  - discriminate.
Qed.

Lemma loads_dumps v text :
  json_dumps v = Ok text ->
  exists j, to_json v = Ok j /\ text = render j /\ json_loads text = Some (norm j).
Proof.
  unfold json_dumps. intros H. apply bind_ok in H. destruct H as (j & Hj & H).
  inversion H; subst. exists j. split; [assumption | split; [reflexivity|]].
  apply loads_render. apply (to_json_wf v). exact Hj.
Qed.

Lemma to_json_envelope a p m t :
  to_json (envelope a p m t) =
  (jp <- to_json p ;;
   Ok (JObject [ (lit "action_type", JString a); (lit "human_message", JString m);
                 (lit "payload", jp); (lit "timestamp", JString t) ])).
Proof.
  unfold envelope. rewrite to_json_PDict. cbn [to_json_items to_json bind].
  destruct (to_json p) as [jp|e]; reflexivity.
Qed.

(** *** The fuel of [json_loads] is enough

    Every step of the scanner that spends fuel also moves forward in the
    text, so beyond twice the length of the text the fuel makes no
    difference: a [None] of [json_loads] is a decoding error, never a lack
    of fuel. *)

Lemma skip_ws_length s : (List.length (skip_ws s) <= List.length s)%nat.
Proof.
  induction s as [|c s IH]; cbn [skip_ws]; [lia|].
  destruct (is_ws c); cbn [List.length]; lia.
Qed.

Lemma push_some c r t rest :
  push c r = Some (t, rest) -> exists t', r = Some (t', rest).
Proof. destruct r as [[t' r']|]; cbn; intros H; inversion H; eauto. Qed.

Lemma scanstring_shorter n : forall s t r,
  (List.length s <= n)%nat -> scanstring s = Some (t, r) ->
  (List.length r < List.length s)%nat.
Proof.
  induction n as [|n IH]; intros s t r L H.
  - destruct s; [discriminate | cbn in L; lia].
  - destruct s as [|c s]; [discriminate|]. cbn [scanstring] in H.
    cbn [List.length] in *.
    assert (IH' : forall s' t', (List.length s' <= n)%nat ->
                    scanstring s' = Some (t', r) ->
                    (List.length r < List.length s')%nat) by (intros; eapply IH; eauto).
    repeat match type of H with
           | (if ?b then _ else _) = _ => destruct b
           | match ?x with _ => _ end = _ =>
               match x with
               | scanstring _ => fail 1
               | _ => destruct x; cbn [List.length] in *
               end
           end;
      try discriminate;
      try (inversion H; subst; lia);
      try (apply push_some in H; destruct H as (t' & H);
           apply IH' in H; cbn [List.length] in *; lia).
Qed.

Lemma span_digits_length s :
  (List.length (snd (span_digits s)) <= List.length s)%nat.
Proof.
  induction s as [|c s IH]; cbn [span_digits]; [cbn; lia|].
  destruct (is_digit c); [|cbn; lia].
  destruct (span_digits s) as [d r]. cbn [snd List.length] in *. lia.
Qed.

Lemma match_int_shorter s i r :
  match_int s = Some (i, r) -> (List.length r < List.length s)%nat.
Proof.
  unfold match_int. destruct s as [|c s]; [discriminate|].
  destruct (c =? 48); [intros H; inversion H; subst; cbn; lia|].
  destruct (is_digit c); [|discriminate].
  assert (L := span_digits_length s). destruct (span_digits s) as [d r'].
  intros H. inversion H; subst. cbn [snd List.length] in *. lia.
Qed.

Lemma match_frac_length s : (List.length (snd (match_frac s)) <= List.length s)%nat.
Proof.
  unfold match_frac. destruct s as [|c s]; [cbn; lia|].
  destruct (c =? 46); [|cbn; lia].
  assert (L := span_digits_length s). destruct (span_digits s) as [[|d ds] r'];
    cbn [snd List.length] in *; lia.
Qed.

Lemma match_exp_length s : (List.length (snd (match_exp s)) <= List.length s)%nat.
Proof.
  unfold match_exp. destruct s as [|c s]; [cbn; lia|].
  destruct ((c =? 101) || (c =? 69)); [|cbn; lia].
  destruct s as [|g s'].
  - cbn. lia.
  - destruct ((g =? 45) || (g =? 43)).
    + assert (L := span_digits_length s'). destruct (span_digits s') as [[|d ds] r'];
        cbn [snd List.length] in *; lia.
    + assert (L := span_digits_length (g :: s')).
      destruct (span_digits (g :: s')) as [[|d ds] r'];
        cbn [snd List.length] in *; lia.
Qed.

Lemma match_number_shorter s tok r :
  match_number s = Some (tok, r) -> (List.length r < List.length s)%nat.
Proof.
  unfold match_number.
  set (p := match s with
            | [] => ([], s)
            | c :: r0 => if c =? 45 then ([c], r0) else ([], s)
            end).
  assert (Lp : (List.length (snd p) <= List.length s)%nat).
  { subst p. destruct s as [|c s']; [cbn; lia|]. destruct (c =? 45); cbn; lia. }
  destruct p as [sign s0]. cbn [snd] in Lp.
  destruct (match_int s0) as [[i s1]|] eqn:I; [|discriminate].
  apply match_int_shorter in I.
  assert (F := match_frac_length s1). destruct (match_frac s1) as [f s2].
  assert (E := match_exp_length s2). destruct (match_exp s2) as [e s3].
  cbn [snd] in *. intros H. inversion H; subst. lia.
Qed.

Lemma strip_prefix_length p : forall s r,
  strip_prefix p s = Some r -> (List.length r + List.length p = List.length s)%nat.
Proof.
  induction p as [|a p IH]; intros s r H; cbn [strip_prefix] in H.
  - inversion H; subst. cbn. lia.
  - destruct s as [|b s]; [discriminate|]. destruct (a =? b); [|discriminate].
    apply IH in H. cbn [List.length]. lia.
Qed.

Lemma word_shorter w v s x r :
  word w v s = Some (x, r) -> lit w <> [] -> (List.length r < List.length s)%nat.
Proof.
  unfold word. intros H N. destruct (strip_prefix (lit w) s) as [r'|] eqn:E; [|discriminate].
  inversion H; subst. apply strip_prefix_length in E.
  destruct (lit w); [contradiction | cbn [List.length] in E; lia].
Qed.

Lemma scan_scalar_shorter s v r :
  scan_scalar s = Some (v, r) -> (List.length r < List.length s)%nat.
Proof.
  unfold scan_scalar. intros H.
  repeat match type of H with
         | match word ?w ?x ?s with _ => _ end = _ =>
             let E := fresh "E" in
             destruct (word w x s) as [[? ?]|] eqn:E;
               [inversion H; subst; apply (word_shorter _ _ _ _ _ E);
                intro Z; vm_compute in Z; discriminate Z|]
         | match match_number ?s with _ => _ end = _ =>
             let E := fresh "E" in
             destruct (match_number s) as [[? ?]|] eqn:E;
               [inversion H; subst; apply (match_number_shorter _ _ _ E)|]
         end.
  apply (word_shorter _ _ _ _ _ H). intro Z. vm_compute in Z. discriminate Z.
Qed.

Lemma parse_shorter f :
  (forall s v r, parse_value f s = Some (v, r) -> (List.length r < List.length s)%nat)
  /\ (forall s l r, parse_elems f s = Some (l, r) -> (List.length r < List.length s)%nat)
  /\ (forall s m r, parse_members f s = Some (m, r) -> (List.length r < List.length s)%nat).
Proof.
  induction f as [|f (IHv & IHe & IHm)]; [repeat split; discriminate|].
  repeat split.
  - intros s v r H. destruct s as [|c r0]; [discriminate|].
    cbn [parse_value] in H. cbn [List.length].
    destruct (c =? 34).
    { destruct (scanstring r0) as [[t r']|] eqn:E; [|discriminate].
      inversion H; subst. apply (scanstring_shorter _ _ _ _ (Nat.le_refl _)) in E. lia. }
    destruct (c =? 123).
    { assert (L := skip_ws_length r0). destruct (skip_ws r0) as [|d r']; [discriminate|].
      cbn [List.length] in L. destruct (d =? 125).
      - inversion H; subst. lia.
      - destruct (parse_members f (d :: r')) as [[m r'']|] eqn:E; [|discriminate].
        inversion H; subst. apply IHm in E. cbn [List.length] in E. lia. }
    destruct (c =? 91).
    { assert (L := skip_ws_length r0). destruct (skip_ws r0) as [|d r']; [discriminate|].
      cbn [List.length] in L. destruct (d =? 93).
      - inversion H; subst. lia.
      - destruct (parse_elems f (d :: r')) as [[l r'']|] eqn:E; [|discriminate].
        inversion H; subst. apply IHe in E. cbn [List.length] in E. lia. }
    apply scan_scalar_shorter in H. cbn [List.length] in H. exact H.
  - intros s l r H. cbn [parse_elems] in H.
    destruct (parse_value f s) as [[v r1]|] eqn:E; [|discriminate]. apply IHv in E.
    assert (L := skip_ws_length r1). destruct (skip_ws r1) as [|d r']; [discriminate|].
    cbn [List.length] in L. destruct (d =? 93); [inversion H; subst; lia|].
    destruct (d =? 44); [|discriminate].
    destruct (parse_elems f (skip_ws r')) as [[l' r'']|] eqn:E'; [|discriminate].
    inversion H; subst. apply IHe in E'. assert (L' := skip_ws_length r'). lia.
  - intros s m r H. cbn [parse_members] in H.
    destruct s as [|q r0]; [discriminate|]. cbn [List.length].
    destruct (q =? 34); [|discriminate].
    destruct (scanstring r0) as [[k r1]|] eqn:E; [|discriminate].
    apply (scanstring_shorter _ _ _ _ (Nat.le_refl _)) in E.
    assert (L1 := skip_ws_length r1). destruct (skip_ws r1) as [|c r2]; [discriminate|].
    cbn [List.length] in L1. destruct (c =? 58); [|discriminate].
    destruct (parse_value f (skip_ws r2)) as [[v r3]|] eqn:E2; [|discriminate].
    apply IHv in E2. assert (L2 := skip_ws_length r2).
    assert (L3 := skip_ws_length r3). destruct (skip_ws r3) as [|d r4]; [discriminate|].
    cbn [List.length] in L3. destruct (d =? 125); [inversion H; subst; lia|].
    destruct (d =? 44); [|discriminate].
    destruct (parse_members f (skip_ws r4)) as [[m' r5]|] eqn:E5; [|discriminate].
    inversion H; subst. apply IHm in E5. assert (L4 := skip_ws_length r4). lia.
Qed.

Lemma steady_value n :
  (n = O \/ exists k, n = S k /\ steady k) ->
  forall s f f', (List.length s <= n)%nat ->
    (2 * List.length s + 1 <= f)%nat -> (2 * List.length s + 1 <= f')%nat ->
    parse_value f s = parse_value f' s.
Proof.
  intros Hn s f f' L F F'.
  destruct f as [|g]; [lia|]. destruct f' as [|g']; [lia|].
  destruct s as [|c r0]; [reflexivity|]. cbn [List.length] in *.
  destruct Hn as [-> | (k & -> & (_ & Ke & Km))]; [lia|].
  cbn [parse_value].
  destruct (c =? 34); [reflexivity|].
  destruct (c =? 123).
  { assert (L0 := skip_ws_length r0). destruct (skip_ws r0) as [|d r']; [reflexivity|].
    cbn [List.length] in L0. destruct (d =? 125); [reflexivity|].
    rewrite (Km (d :: r') g g') by (cbn [List.length]; lia). reflexivity. }
  destruct (c =? 91); [|reflexivity].
  assert (L0 := skip_ws_length r0). destruct (skip_ws r0) as [|d r']; [reflexivity|].
  cbn [List.length] in L0. destruct (d =? 93); [reflexivity|].
  rewrite (Ke (d :: r') g g') by (cbn [List.length]; lia). reflexivity.
Qed.

Lemma steady_all n : steady n.
Proof.
  induction n as [n IH] using (well_founded_induction Wf_nat.lt_wf).
  assert (V : forall s f f', (List.length s <= n)%nat ->
                (2 * List.length s + 1 <= f)%nat -> (2 * List.length s + 1 <= f')%nat ->
                parse_value f s = parse_value f' s).
  { apply steady_value. destruct n as [|k]; [left; reflexivity|].
    right. exists k. split; [reflexivity | apply IH; lia]. }
  split; [exact V|]. split.
  - intros s f f' L F F'.
    destruct f as [|g]; [lia|]. destruct f' as [|g']; [lia|].
    cbn [parse_elems]. rewrite (V s g g') by lia.
    destruct (parse_value g' s) as [[v r1]|] eqn:E; [|reflexivity].
    apply (proj1 (parse_shorter g')) in E.
    assert (L1 := skip_ws_length r1). destruct (skip_ws r1) as [|d r']; [reflexivity|].
    cbn [List.length] in L1. destruct (d =? 93); [reflexivity|].
    destruct (d =? 44); [|reflexivity].
    assert (L2 := skip_ws_length r').
    assert (S' : steady (List.length (skip_ws r'))) by (apply IH; lia).
    rewrite (proj1 (proj2 S') (skip_ws r') g g') by lia. reflexivity.
  - intros s f f' L F F'.
    destruct f as [|g]; [lia|]. destruct f' as [|g']; [lia|].
    cbn [parse_members]. destruct s as [|q r0]; [reflexivity|].
    cbn [List.length] in *. destruct (q =? 34); [|reflexivity].
    destruct (scanstring r0) as [[k r1]|] eqn:E; [|reflexivity].
    apply (scanstring_shorter _ _ _ _ (Nat.le_refl _)) in E.
    assert (L1 := skip_ws_length r1). destruct (skip_ws r1) as [|c r2]; [reflexivity|].
    cbn [List.length] in L1. destruct (c =? 58); [|reflexivity].
    assert (L2 := skip_ws_length r2).
    assert (S2 : steady (List.length (skip_ws r2))) by (apply IH; lia).
    rewrite (proj1 S2 (skip_ws r2) g g') by lia.
    destruct (parse_value g' (skip_ws r2)) as [[v r3]|] eqn:E3; [|reflexivity].
    apply (proj1 (parse_shorter g')) in E3.
    assert (L3 := skip_ws_length r3). destruct (skip_ws r3) as [|d r4]; [reflexivity|].
    cbn [List.length] in L3. destruct (d =? 125); [reflexivity|].
    destruct (d =? 44); [|reflexivity].
    assert (L4 := skip_ws_length r4).
    assert (S4 : steady (List.length (skip_ws r4))) by (apply IH; lia).
    rewrite (proj2 (proj2 S4) (skip_ws r4) g g') by lia. reflexivity.
Qed.

(** Whatever larger fuel [json_loads] were given, it would return the
    same. *)
Lemma json_loads_fuel s f :
  (2 * List.length s + 1 <= f)%nat ->
  parse_value f (skip_ws s) = parse_value (2 * List.length s + 1) (skip_ws s).
Proof.
  intros F. assert (L := skip_ws_length s).
  apply (proj1 (steady_all (List.length (skip_ws s)))); lia.
Qed.

(** ** Chains built by [add_ledger_entry] *)

(** *** String equality *)

Lemma str_eqb_eq a b : str_eqb a b = true <-> a = b.
Proof.
  revert b. induction a as [|x a IH]; intros [|y b]; cbn [str_eqb];
    try (split; [discriminate | congruence]); try tauto.
  rewrite andb_true_iff, N.eqb_eq, IH. split; [intros [-> ->]; reflexivity|].
  intros H; inversion H; auto.
Qed.

Lemma str_eqb_refl a : str_eqb a a = true.
Proof. apply str_eqb_eq. reflexivity. Qed.

Lemma str_eqb_neq a b : str_eqb a b = false <-> a <> b.
Proof.
  split.
  - intros H E. apply str_eqb_eq in E. congruence.
  - intros H. destruct (str_eqb a b) eqn:E; [apply str_eqb_eq in E; contradiction | reflexivity].
Qed.

(** *** Sorting by id *)

Lemma asc_increasing l : increasing l -> order_by_id_asc l = l.
Proof.
  unfold order_by_id_asc. induction 1 as [|x l Hl IH Hx]; [reflexivity|].
  cbn [sort_by]. rewrite IH. destruct l as [|y l]; [reflexivity|].
  cbn [insert_by]. inversion Hx; subst.
  replace (Z.leb (id x) (id y)) with true by (symmetry; apply Z.leb_le; lia).
  reflexivity.
Qed.

Lemma insert_by_last leb x l :
  Forall (fun y => leb x y = false) l -> insert_by leb x l = l ++ [x].
Proof.
  induction 1 as [|y l Hy _ IH]; [reflexivity|].
  cbn [insert_by List.app]. rewrite Hy, IH. reflexivity.
Qed.

Lemma desc_increasing l : increasing l -> order_by_id_desc l = List.rev l.
Proof.
  unfold order_by_id_desc. induction 1 as [|x l Hl IH Hx]; [reflexivity|].
  cbn [sort_by List.rev]. rewrite IH. apply insert_by_last.
  apply Forall_rev. eapply Forall_impl; [| exact Hx].
  intros y Hy. apply Z.leb_gt. exact Hy.
Qed.

Lemma last_hash_app p l e : last_hash p (l ++ [e]) = data_hash e.
Proof. revert p. induction l as [|x l IH]; intros p; cbn; auto. Qed.

Lemma get_last_hash_increasing l :
  increasing l -> get_last_hash l = last_hash genesis l.
Proof.
  intros H. unfold get_last_hash. rewrite desc_increasing by exact H.
  destruct l as [|x l] using List.rev_ind; [reflexivity|].
  rewrite List.rev_app_distr, last_hash_app. reflexivity.
Qed.

Lemma linked_app p l e :
  linked p l -> prev_hash e = last_hash p l -> linked p (l ++ [e]).
Proof.
  revert p. induction l as [|x l IH]; intros p H E; cbn in *.
  - auto.
  - destruct H as [H1 H2]. split; [exact H1 | apply IH; assumption].
Qed.

Lemma seq_ids_increasing l :
  List.map id l = List.map Z.of_nat (List.seq 1 (List.length l)) -> increasing l.
Proof.
  unfold increasing. generalize 1%nat.
  induction l as [|x l IH]; intros k H; [constructor|].
  cbn in H. inversion H as [[Hx Hl]]. constructor.
  - apply (IH (S k)). exact Hl.
  - apply Forall_forall. intros y Hy.
    assert (In (id y) (List.map Z.of_nat (List.seq (S k) (List.length l)))).
    { rewrite <- Hl. apply List.in_map. exact Hy. }
    apply List.in_map_iff in H0. destruct H0 as (n & En & Hn).
    apply List.in_seq in Hn. lia.
Qed.

Lemma max_seq k n :
  List.fold_right Z.max 0%Z (List.map Z.of_nat (List.seq k n))
  = match n with O => 0%Z | S _ => Z.of_nat (k + n - 1) end.
Proof.
  revert k. induction n as [|n IH]; intros k; [reflexivity|].
  cbn [List.seq List.map List.fold_right]. rewrite IH. destruct n; lia.
Qed.

Lemma next_id_seq db :
  List.map id db = List.map Z.of_nat (List.seq 1 (List.length db)) ->
  next_id db = Z.of_nat (S (List.length db)).
Proof.
  intros H. unfold next_id. rewrite H, max_seq. destruct (List.length db); lia.
Qed.

(** *** One call of [add_ledger_entry] *)

Lemma append_with_ok p e db actor action payload message h db' :
  append_with p e db actor action payload message = (Ok h, db') ->
  exists text,
    json_dumps (envelope action payload message (utcnow e ++ lit "Z")) = Ok text
    /\ create_data_hash (utcnow e ++ lit "Z") p actor text = Ok h
    /\ commit_fault e = false
    /\ List.existsb (fun x => str_eqb (data_hash x) h) db = false
    /\ db' = db ++ [ {| id := next_id db; timestamp := utcnow e ++ lit "Z";
                        prev_hash := p; data_hash := h; actor_id := actor;
                        action_type := action; data_text := text |} ].
Proof.
  unfold append_with. intros H.
  destruct (json_dumps _) as [text|x] eqn:D; cbn [bind] in H; [|inversion H].
  destruct (create_data_hash _ _ _ _) as [dh|x] eqn:C; cbn [bind] in H; [|inversion H].
  unfold session_commit, session_add, get_session in H. cbn [pending List.app] in H.
  destruct (commit_fault e) eqn:F; cbn [bind] in H; [inversion H|].
  cbn [insert_rows] in H. unfold insert_row in H. cbn [data_hash] in H.
  destruct (List.existsb _ db) eqn:U; cbn [bind] in H; inversion H; subst.
  exists text. auto.
Qed.

Lemma append_with_raise p e db actor action payload message x db' :
  append_with p e db actor action payload message = (Raise x, db') -> db' = db.
Proof.
  unfold append_with. intros H.
  match type of H with
  | match ?a with _ => _ end = _ => destruct a as [[h d]|y]
  end; inversion H; reflexivity.
Qed.

Lemma existsb_hash_false db h :
  List.existsb (fun x => str_eqb (data_hash x) h) db = false ->
  ~ In h (List.map data_hash db).
Proof.
  intros H I. apply List.in_map_iff in I. destruct I as (x & E & I).
  assert (T : List.existsb (fun x => str_eqb (data_hash x) h) db = true).
  { apply List.existsb_exists. exists x. split; [exact I | apply str_eqb_eq; exact E]. }
  congruence.
Qed.

Lemma chain_ok_step db e actor action payload message h db' :
  chain_ok db ->
  add_ledger_entry e db actor action payload message = (Ok h, db') ->
  chain_ok db'.
Proof.
  intros [Hid Hl Hh Ht Hu] H. unfold add_ledger_entry in H.
  apply append_with_ok in H.
  destruct H as (text & D & C & F & U & ->).
  assert (Inc := seq_ids_increasing db Hid).
  constructor.
  - rewrite List.map_app, List.length_app, Nat.add_comm. cbn [List.length Nat.add].
    rewrite List.seq_S, List.map_app, <- Hid. cbn [List.map id].
    rewrite (next_id_seq db Hid). reflexivity.
  - apply linked_app; [exact Hl|]. cbn [prev_hash].
    apply get_last_hash_increasing. exact Inc.
  - apply Forall_app. split; [exact Hh|]. constructor; [|constructor].
    unfold recompute. cbn. exact C.
  - apply Forall_app. split; [exact Ht|]. constructor; [|constructor].
    exists payload, message. cbn. exact D.
  - rewrite List.map_app. cbn [List.map data_hash].
    apply NoDup_app_remove_l with (l := []). cbn.
    apply Permutation_NoDup with (l := h :: List.map data_hash db).
    + apply Permutation_cons_append.
    + constructor; [apply existsb_hash_false; exact U | exact Hu].
Qed.

Lemma chain_ok_nil : chain_ok [].
Proof. constructor; cbn; constructor. Qed.

Lemma appended_chain_ok db : appended db -> chain_ok db.
Proof.
  induction 1; [apply chain_ok_nil | eapply chain_ok_step; eassumption].
Qed.

(** *** The verifier *)

Lemma check_entry_clean p e :
  check_entry p e = Ok [] <->
  prev_hash e = p /\ recompute e = Ok (data_hash e) /\ text_ok e.
Proof.
  unfold check_entry, recompute, text_ok. split.
  - intros H.
    destruct (create_data_hash _ _ _ _) as [c|x]; cbn [bind] in H; [|discriminate].
    assert (T : forall c3 : list inconsistency,
               Ok ((if negb (str_eqb (prev_hash e) p)
                    then [prev_hash_mismatch (id e) p (prev_hash e)] else []) ++
                   (if negb (str_eqb (data_hash e) c)
                    then [hash_mismatch (id e) c (data_hash e)] else []) ++ c3)
               = Ok [] ->
               prev_hash e = p /\ c = data_hash e /\ c3 = []).
    { intros c3 H'. inversion H' as [H'']. clear H'.
      destruct (str_eqb (prev_hash e) p) eqn:E1; cbn [negb List.app] in H''; [|discriminate].
      destruct (str_eqb (data_hash e) c) eqn:E2; cbn [negb List.app] in H''; [|discriminate].
      apply str_eqb_eq in E1, E2. auto. }
    destruct (json_loads (data_text e)) as [data|] eqn:L; cbn [bind] in H.
    + destruct (py_in (lit "action_type") data) as [a|x] eqn:A; cbn [bind] in H; [|discriminate].
      destruct a; cbn [negb bind] in H.
      * destruct (py_in (lit "payload") data) as [b|x] eqn:B; cbn [bind] in H; [|discriminate].
        destruct b; cbn [negb] in H; apply T in H; destruct H as (H1 & H2 & H3);
          [| discriminate].
        subst c. repeat split; eauto.
      * apply T in H. destruct H as (_ & _ & H3). discriminate.
    + apply T in H. destruct H as (_ & _ & H3). discriminate.
  - intros (E1 & E2 & data & L & A & B). rewrite E2, L. cbn [bind].
    rewrite A. cbn [bind negb]. rewrite B. cbn [bind negb].
    rewrite E1, !str_eqb_refl. reflexivity.
Qed.

Lemma verify_loop_acc l : forall p acc,
  verify_loop l p acc =
  match verify_loop l p [] with
  | Ok found => Ok (acc ++ found)
  | Raise x => Raise x
  end.
Proof.
  induction l as [|e l IH]; intros p acc; cbn [verify_loop].
  - rewrite List.app_nil_r. reflexivity.
  - destruct (check_entry p e) as [c|x]; cbn [bind]; [|reflexivity].
    rewrite (IH _ (acc ++ c)), (IH _ ([] ++ c)).
    destruct (verify_loop l (data_hash e) []); [|reflexivity].
    cbn [List.app]. rewrite List.app_assoc. reflexivity.
Qed.

Lemma verify_loop_cons e l p :
  verify_loop (e :: l) p [] =
  (c <- check_entry p e ;;
   r <- verify_loop l (data_hash e) [] ;;
   Ok (c ++ r)).
Proof.
  cbn [verify_loop]. destruct (check_entry p e) as [c|x]; cbn [bind]; [|reflexivity].
  rewrite verify_loop_acc. cbn [List.app].
  destruct (verify_loop l (data_hash e) []); reflexivity.
Qed.

Lemma verify_loop_clean l : forall p,
  verify_loop l p [] = Ok [] <-> intact_from p l.
Proof.
  unfold intact_from.
  induction l as [|e l IH]; intros p.
  - cbn. split; [intros _; repeat split; constructor | reflexivity].
  - rewrite verify_loop_cons. split.
    + intros H. destruct (check_entry p e) as [c|x] eqn:C; cbn [bind] in H; [|discriminate].
      destruct (verify_loop l (data_hash e) []) as [r|x] eqn:V; cbn [bind] in H; [|discriminate].
      inversion H as [H']. apply List.app_eq_nil in H'. destruct H' as [-> ->].
      apply check_entry_clean in C. destruct C as (C1 & C2 & C3).
      apply IH in V. destruct V as (V1 & V2 & V3).
      cbn [linked]. repeat split; auto.
    + intros ((L1 & L2) & Hh & Ht). inversion Hh; subst. inversion Ht; subst.
      assert (C : check_entry (prev_hash e) e = Ok []) by (apply check_entry_clean; auto).
      rewrite C. cbn [bind].
      assert (V : verify_loop l (data_hash e) [] = Ok []) by (apply IH; auto).
      rewrite V. reflexivity.
Qed.

(** [verify_ledger] returns the empty list exactly on the tables that pass
    every check. *)
Lemma verify_ledger_clean db :
  fst (verify_ledger db) = Ok [] <-> intact db.
Proof.
  unfold verify_ledger, intact.
  destruct (order_by_id_asc db) as [|e l] eqn:E.
  - cbn. split; [intros _; repeat split; constructor | reflexivity].
  - cbn [fst]. apply verify_loop_clean.
Qed.

Lemma decoded_action_type : decoded (lit "action_type") = lit "action_type".
Proof. vm_compute. reflexivity. Qed.

Lemma enveloped_text_ok e : enveloped e -> text_ok e.
Proof.
  intros (payload & message & D).
  apply loads_dumps in D. destruct D as (j & Hj & _ & L).
  rewrite to_json_envelope in Hj. apply bind_ok in Hj. destruct Hj as (jp & _ & Hj).
  inversion Hj; subst. exists (norm (JObject
    [(lit "action_type", JString (action_type e)); (lit "human_message", JString message);
     (lit "payload", jp); (lit "timestamp", JString (timestamp e))])).
  split; [exact L|]. split; vm_compute; reflexivity.
Qed.

Lemma chain_ok_intact db : chain_ok db -> intact db.
Proof.
  intros [Hid Hl Hh Ht Hu]. unfold intact.
  rewrite asc_increasing by (apply seq_ids_increasing; exact Hid).
  repeat split; [exact Hl | exact Hh |].
  eapply Forall_impl; [| exact Ht]. intros e. apply enveloped_text_ok.
Qed.

(** ** The digest and single calls (C1, C10, C6) *)

Lemma hexchar_lower d : d < 16 -> is_lower_hex (SHA256.hexchar d) = true.
Proof.
  intros H.
  assert (E : List.In d [0;1;2;3;4;5;6;7;8;9;10;11;12;13;14;15]) by (simpl; lia).
  simpl in E. repeat (destruct E as [E | E]; [subst d; reflexivity|]). contradiction.
Qed.

Lemma hex_digits_shape k x :
  List.length (SHA256.hex_digits k x) = k
  /\ Forall (fun c => is_lower_hex c = true) (SHA256.hex_digits k x).
Proof.
  induction k as [|k [IH1 IH2]]; cbn [SHA256.hex_digits]; [split; constructor|].
  split; [cbn; congruence|]. constructor; [|exact IH2].
  apply hexchar_lower, nibble_lt.
Qed.

Lemma hexdigest_shape b : lower_hex64 (SHA256.hexdigest b).
Proof.
  unfold lower_hex64, SHA256.hexdigest. cbv zeta. split.
  - rewrite !List.length_app. rewrite !(proj1 (hex_digits_shape 8 _)). reflexivity.
  - repeat (apply Forall_app; split); apply hex_digits_shape.
Qed.

Lemma create_data_hash_digest_spec t p a d :
  create_data_hash t p a d = digest_spec t p a d.
Proof.
  unfold create_data_hash, digest_spec, sha256_hex, hash_payload, join_with, bar.
  destruct a as [z|]; cbn [or_empty actor_ref_or_empty]; [|reflexivity].
  destruct (Z.eqb z 0); reflexivity.
Qed.

Lemma appended1 : appended chain1.
Proof.
  apply (appended_step [] (env_at "2024-03-01T08:00:00.000001") (Some 1%Z)
           (lit "refill_transaction") sale (lit "Refill transaction #1")
           (hash_of after1) chain1 appended_nil).
  vm_compute. reflexivity.
Defined.

Lemma appended2 : appended chain2.
Proof.
  apply (appended_step chain1 (env_at "2024-03-01T09:30:00.000500") (Some 2%Z)
           (lit "expense") cost (lit "Expense: Fuel")
           (hash_of after2) chain2 appended1).
  vm_compute. reflexivity.
Defined.

Lemma appended3 : appended chain3.
Proof.
  apply (appended_step chain2 (env_at "2024-03-01T10:45:10.250000") None
           (lit "inventory_change") stock (lit "Inventory change: Caps - restock")
           (hash_of after3) chain3 appended2).
  vm_compute. reflexivity.
Defined.

(** C1. For every entry of a chain built by [add_ledger_entry], the stored
    digest is the lowercase hexadecimal SHA-256 of the UTF-8 bytes of
    timestamp, prev_hash, actor reference (empty when absent) and envelope
    text joined by bars; [create_data_hash] computes exactly that text. *)
Theorem stored_digest_is_sha256 (db : table) (e : Ledger) :
  appended db -> In e db ->
  digest_spec (timestamp e) (prev_hash e) (actor_id e) (data_text e) = Ok (data_hash e)
  /\ lower_hex64 (data_hash e)
  /\ (forall t p a d, create_data_hash t p a d = digest_spec t p a d)
  /\ digest_spec (timestamp e) (prev_hash e) None (data_text e)
     = sha256_hex (timestamp e ++ lit "|" ++ prev_hash e ++ lit "|" ++ lit "|" ++ data_text e).
Proof.
  intros A I. apply appended_chain_ok in A. destruct A as [_ _ Hh _ _].
  rewrite Forall_forall in Hh. specialize (Hh e I). unfold recompute in Hh.
  rewrite create_data_hash_digest_spec in Hh.
  split; [exact Hh|]. split.
  - unfold digest_spec, sha256_hex in Hh.
    destruct (utf8_encode _) as [b|x]; cbn [bind] in Hh; [|discriminate].
    inversion Hh as [E]. apply hexdigest_shape.
  - split; [intros; apply create_data_hash_digest_spec | reflexivity].
Qed.

Lemma stored_digest_is_sha256_witness :
  appended chain3 /\ In entry2 chain3 /\
  digest_spec (timestamp entry2) (prev_hash entry2) (actor_id entry2) (data_text entry2)
  = Ok (data_hash entry2).
Proof.
  assert (I : In entry2 chain3) by (right; left; reflexivity).
  split; [exact appended3 | split; [exact I|]].
  apply (stored_digest_is_sha256 chain3 entry2 appended3 I).
Defined.

(** C10. The digest of an entry attributed to the principal 0 is the digest
    of the same entry with no actor. *)
Theorem actor_zero_hashes_as_none (t p d : str) :
  create_data_hash t p (Some 0%Z) d = create_data_hash t p None d.
Proof. reflexivity. Qed.



(** ** Altered tables (C3) *)

(** *** UTF-8 is one-to-one *)







(** *** Integers as text *)








(** *** The verifier on a table with one altered row *)

Lemma verify_loop_app l1 l2 : forall p,
  verify_loop (l1 ++ l2) p [] =
  (a <- verify_loop l1 p [] ;;
   b <- verify_loop l2 (last_hash p l1) [] ;;
   Ok (a ++ b)).
Proof.
  induction l1 as [|e l1 IH]; intros p.
  - cbn [List.app verify_loop last_hash bind].
    destruct (verify_loop l2 p []); reflexivity.
  - cbn [List.app last_hash]. rewrite !verify_loop_cons, IH.
    destruct (check_entry p e) as [c|x]; cbn [bind]; [|reflexivity].
    destruct (verify_loop l1 (data_hash e) []) as [a|x]; cbn [bind]; [|reflexivity].
    destruct (verify_loop l2 _ []) as [b|x]; cbn [bind]; [|reflexivity].
    rewrite List.app_assoc. reflexivity.
Qed.

Lemma linked_split p l1 l2 :
  linked p (l1 ++ l2) <-> linked p l1 /\ linked (last_hash p l1) l2.
Proof.
  revert p. induction l1 as [|e l1 IH]; intros p; cbn [List.app linked last_hash].
  - tauto.
  - rewrite IH. tauto.
Qed.

Lemma intact_from_app p l1 l2 :
  intact_from p (l1 ++ l2) <-> intact_from p l1 /\ intact_from (last_hash p l1) l2.
Proof.
  unfold intact_from. rewrite linked_split, !Forall_app. tauto.
Qed.

Lemma check_entry_ids p e c :
  check_entry p e = Ok c -> Forall (fun i => entry_id i = id e) c.
Proof.
  unfold check_entry. intros H.
  destruct (create_data_hash _ _ _ _) as [h|x]; cbn [bind] in H; [|discriminate].
  match type of H with
  | bind ?m _ = _ => destruct m as [c3|x] eqn:M; cbn [bind] in H; [|discriminate]
  end.
  inversion H; subst. clear H.
  assert (F3 : Forall (fun i => entry_id i = id e) c3).
  { destruct (json_loads (data_text e)) as [data|].
    - apply bind_ok in M. destruct M as (a & _ & M).
      apply bind_ok in M. destruct M as (b & _ & M).
      inversion M; subst. destruct b; repeat constructor.
    - inversion M; subst. repeat constructor. }
  repeat (apply Forall_app; split); try exact F3;
    match goal with
    | |- Forall _ (if ?b then _ else _) => destruct b; repeat constructor
    end.
Qed.


Lemma increasing_ids l :
  increasing l <-> StronglySorted Z.lt (List.map id l).
Proof.
  unfold increasing. induction l as [|x l IH]; cbn [List.map].
  - split; constructor.
  - split; intros H; inversion H; subst; constructor; try (apply IH; assumption).
    + apply Forall_map. assumption.
    + apply Forall_map. assumption.
Qed.








(** *** A stored digest overwritten

    The walk goes on past a faulty row and expects the next row to point to
    the digest it finds stored, so one overwritten digest is reported once at
    its row and once at the row after it, and nowhere else. *)

Lemma check_entry_report p e h0 :
  recompute e = Ok h0 -> text_ok e ->
  check_entry p e =
  Ok ((if negb (str_eqb (prev_hash e) p)
       then [prev_hash_mismatch (id e) p (prev_hash e)] else [])
      ++ (if negb (str_eqb (data_hash e) h0)
          then [hash_mismatch (id e) h0 (data_hash e)] else [])).
Proof.
  unfold recompute, check_entry. intros R (data & L & A & B).
  rewrite R, L. cbn [bind]. rewrite A. cbn [bind negb]. rewrite B. cbn [bind negb].
  rewrite List.app_nil_r. reflexivity.
Qed.

(** X7. In a chain built by [add_ledger_entry], a stored digest overwritten
    with another value is reported twice and no more: as a [hash_mismatch]
    at its own entry and, when an entry follows, as a [prev_hash_mismatch]
    at that entry, which is checked against the digest found stored. *)
Lemma altered_digest_report (l1 l2 : list Ledger) (e : Ledger) (h : str) :
  appended (l1 ++ e :: l2) -> h <> data_hash e ->
  fst (verify_ledger (l1 ++ set_data_hash h e :: l2))
  = Ok (hash_mismatch (id e) (data_hash e) h
        :: match l2 with
           | [] => []
           | next :: _ => [prev_hash_mismatch (id next) h (data_hash e)]
           end).
Proof.
  intros A N. apply appended_chain_ok in A.
  assert (Inc : increasing (l1 ++ e :: l2)) by (apply seq_ids_increasing, A).
  assert (Int := chain_ok_intact _ A). unfold intact in Int.
  rewrite asc_increasing in Int by exact Inc.
  assert (Inc' : increasing (l1 ++ set_data_hash h e :: l2)).
  { apply increasing_ids. apply increasing_ids in Inc.
    rewrite List.map_app in *. exact Inc. }
  apply intact_from_app in Int. destruct Int as [I1 I2].
  change (e :: l2) with ([e] ++ l2) in I2.
  apply intact_from_app in I2. destruct I2 as [Ie I2]. cbn [last_hash] in I2.
  destruct Ie as ((Pe & _) & He & Te).
  inversion He as [|? ? Re _]; subst. inversion Te as [|? ? Tx _]; subst.
  unfold verify_ledger. rewrite asc_increasing by exact Inc'.
  assert (L : verify_loop (l1 ++ set_data_hash h e :: l2) genesis []
              = Ok (hash_mismatch (id e) (data_hash e) h
                    :: match l2 with
                       | [] => []
                       | next :: _ => [prev_hash_mismatch (id next) h (data_hash e)]
                       end)).
  { rewrite verify_loop_app, verify_loop_cons.
    rewrite (proj2 (verify_loop_clean l1 genesis) I1). cbn [bind].
    rewrite (check_entry_report _ (set_data_hash h e) (data_hash e) Re Tx).
    cbn [prev_hash data_hash id set_data_hash]. rewrite Pe, str_eqb_refl.
    replace (str_eqb h (data_hash e)) with false by (symmetry; apply str_eqb_neq; exact N).
    cbn [negb List.app bind].
    destruct l2 as [|next l3].
    - reflexivity.
    - destruct I2 as ((Pn & Ln) & Hn & Tn).
      inversion Hn as [|? ? Rn Hn']; subst. inversion Tn as [|? ? Tnx Tn']; subst.
      rewrite verify_loop_cons.
      rewrite (check_entry_report _ next (data_hash next) Rn Tnx).
      rewrite Pn, str_eqb_refl.
      replace (str_eqb (data_hash e) h) with false
        by (symmetry; apply str_eqb_neq; congruence).
      cbn [negb List.app bind].
      rewrite (proj2 (verify_loop_clean l3 (data_hash next))) by (repeat split; assumption).
      reflexivity. }
  destruct (l1 ++ set_data_hash h e :: l2) eqn:Z; [destruct l1; discriminate | exact L].
Qed.

(** ** What the verifier accepts (C2) *)

Lemma is_prefix_app p s : is_prefix p (p ++ s) = true.
Proof.
  induction p as [|c p IH]; [destruct s; reflexivity|].
  cbn [List.app is_prefix]. rewrite N.eqb_refl, IH. reflexivity.
Qed.

Lemma enveloped_tag e : enveloped e -> tag_matches e = true.
Proof.
  intros (payload & message & D). unfold tag_matches, json_dumps in *.
  rewrite to_json_envelope in D. apply bind_ok in D. destruct D as (j & Hj & D).
  apply bind_ok in Hj. destruct Hj as (jp & _ & Hj). inversion Hj; subst.
  apply Ok_inj in D. rewrite <- D. clear D. rewrite render_object.
  cbn [render_members].
  change (render (JString (action_type e))) with (encode_string (action_type e)).
  set (tail := 44 :: _).
  replace (123 :: encode_string (lit "action_type") ++ 58 :: encode_string (action_type e) ++ tail)
    with ((123 :: encode_string (lit "action_type") ++ 58 :: encode_string (action_type e)) ++ tail).
  - apply is_prefix_app.
  - cbn [List.app]. rewrite <- List.app_assoc. reflexivity.
Qed.

(** C2 (amended). For every chain built by [add_ledger_entry] alone, each
    stored digest is reproduced from the stored columns and
    [verify_ledger] returns the empty list; conversely, on any stored table
    on which [verify_ledger] returns the empty list, every row, in id
    order, points to the digest stored before it, carries the digest of its
    own hashed columns, and holds a text that decodes to a value with
    action_type and payload in it (keys of an object, elements of an array
    or parts of a string). *)
Theorem appended_chain_verifies (db : table) :
  appended db ->
  Forall (fun e => create_data_hash (timestamp e) (prev_hash e) (actor_id e) (data_text e)
                   = Ok (data_hash e)) db
  /\ fst (verify_ledger db) = Ok []
  /\ (forall stored : table, fst (verify_ledger stored) = Ok [] -> intact stored).
Proof.
  intros A. apply appended_chain_ok in A. split; [apply A|]. split.
  - apply verify_ledger_clean, chain_ok_intact, A.
  - intros stored H. apply verify_ledger_clean. exact H.
Qed.

Lemma appended_chain_verifies_witness :
  appended chain3 /\ fst (verify_ledger chain3) = Ok [].
Proof.
  split; [exact appended3|].
  exact (proj1 (proj2 (appended_chain_verifies chain3 appended3))).
Defined.

(** C2, as stated, fails in its converse: a column of the second entry of a
    built chain is overwritten, the table is no longer one that
    [add_ledger_entry] can have built, and [verify_ledger] still returns the
    empty list. *)
Lemma verify_accepts_altered_table :
  let altered := replace_row (set_action_type (lit "adjustment") entry2) chain2 in
  appended chain2
  /\ altered <> chain2
  /\ ~ appended altered
  /\ fst (verify_ledger altered) = Ok [].
Proof.
  intros altered. split; [exact appended2|]. split; [|split].
  - intros E. vm_compute in E. discriminate E.
  - intros A. apply appended_chain_ok in A. destruct A as [_ _ _ Ht _].
    rewrite Forall_forall in Ht.
    assert (I : In (set_action_type (lit "adjustment") entry2) altered)
      by (right; left; reflexivity).
    apply Ht in I. apply enveloped_tag in I. vm_compute in I. discriminate I.
  - vm_compute. reflexivity.
Qed.

(** ** Stored text that is not a container (C4) *)

(** C4. A stored row whose text is the JSON number 5: the walk of
    [verify_ledger] stops with a [TypeError] at that row and no list is
    returned, not even with the digest mismatch found at that row. *)
Theorem verify_raises_on_scalar_text :
  In (set_data_text (lit "5") entry2) bare_number
  /\ json_loads (lit "5") = Some (JNumber (lit "5"))
  /\ fst (verify_ledger bare_number) = Raise TypeError
  /\ snd (verify_ledger bare_number) = bare_number.
Proof.
  split; [right; left; reflexivity|]. repeat split; vm_compute; reflexivity.
Qed.

(** ** What the encoder refuses (C7) *)

Lemma unencodable_PList l : unencodable (PList l) = any_unencodable l.
Proof. reflexivity. Qed.

Lemma unencodable_PDict items :
  unencodable (PDict items) = negb (sortable items) || any_bad_item items.
Proof. reflexivity. Qed.

Lemma to_json_exn v : forall x, to_json v = Raise x -> x = TypeError.
Proof.
  induction v as [ |b|z|f|s|l IH|items IH| ] using pyval_ind'; intros x H;
    try discriminate.
  - rewrite to_json_PList in H.
    destruct (to_json_list l) as [js|y] eqn:L; cbn [bind] in H; [discriminate|].
    inversion H; subst. clear H. revert L.
    induction IH as [|v l Hv _ IHl]; cbn [to_json_list]; intros L; [discriminate|].
    destruct (to_json v) as [j|z] eqn:V; cbn [bind] in L.
    + destruct (to_json_list l) as [r|z]; cbn [bind] in L; [discriminate|].
      inversion L; subst. apply IHl. reflexivity.
    + inversion L; subst. apply Hv. reflexivity.
  - rewrite to_json_PDict in H.
    destruct (to_json_items items) as [kjs|y] eqn:L; cbn [bind] in H.
    + destruct (sortable kjs); [|inversion H; reflexivity].
      destruct (keys_to_text (sort_items kjs)) as [m|y] eqn:K; cbn [bind] in H;
        [discriminate|]. inversion H; subst. clear - K.
      induction (sort_items kjs) as [|[k j] l IHl]; cbn [keys_to_text] in K;
        [discriminate|].
      destruct k as [s|z|[|]| | ]; cbn [key_text bind] in K;
        try (inversion K; reflexivity);
        (destruct (keys_to_text l); cbn [bind] in K; [discriminate|];
         inversion K; subst; apply IHl; reflexivity).
    + inversion H; subst. clear H. revert L.
      induction IH as [|[k v] l Hv _ IHl]; cbn [to_json_items]; intros L; [discriminate|].
      cbn [snd] in Hv.
      destruct (to_json v) as [j|z] eqn:V; cbn [bind] in L.
      * destruct (to_json_items l) as [r|z]; cbn [bind] in L; [discriminate|].
        inversion L; subst. apply IHl. reflexivity.
      * inversion L; subst. apply Hv. reflexivity.
  - inversion H. reflexivity.
Qed.

Lemma to_json_items_keys items kjs :
  to_json_items items = Ok kjs -> List.map fst kjs = List.map fst items.
Proof.
  revert kjs. induction items as [|[k v] l IH]; intros kjs H; cbn [to_json_items] in H.
  - inversion H. reflexivity.
  - apply bind_ok in H. destruct H as (j & _ & H).
    apply bind_ok in H. destruct H as (r & Hr & H). inversion H; subst.
    cbn [List.map fst]. f_equal. apply IH. exact Hr.
Qed.

Lemma sortable_keys {A B} (l : list (pykey * A)) (l' : list (pykey * B)) :
  List.map fst l = List.map fst l' -> sortable l = sortable l'.
Proof.
  intros H.
  assert (F : forall p, List.forallb (fun kv : pykey * A => p (fst kv)) l
                        = List.forallb (fun kv : pykey * B => p (fst kv)) l').
  { intros p. revert l' H. induction l as [|x l IH]; intros [|y l'] H;
      try discriminate; [reflexivity|].
    cbn [List.map] in H. inversion H as [[H1 H2]]. cbn [List.forallb].
    rewrite H1, (IH l' H2). reflexivity. }
  unfold sortable. rewrite !F.
  destruct l as [|x [|x' l]], l' as [|y [|y' l']]; try discriminate; reflexivity.
Qed.

Lemma keys_to_text_bad l :
  List.existsb (fun kv => bad_key (fst kv)) l = true ->
  keys_to_text l = Raise TypeError.
Proof.
  induction l as [|[k j] l IH]; cbn [List.existsb keys_to_text fst]; [discriminate|].
  intros H. destruct k as [s|z|[|]| | ]; cbn [bad_key orb key_text bind] in *;
    try reflexivity; rewrite (IH H); reflexivity.
Qed.

Lemma existsb_insert_item {A} (p : pykey * A -> bool) x l :
  List.existsb p (insert_item x l) = p x || List.existsb p l.
Proof.
  induction l as [|y l IH]; cbn [insert_item List.existsb]; [reflexivity|].
  destruct (key_leb (fst x) (fst y)); cbn [List.existsb]; [reflexivity|].
  rewrite IH. destruct (p x), (p y); reflexivity.
Qed.

Lemma existsb_sort_items {A} (p : pykey * A -> bool) l :
  List.existsb p (sort_items l) = List.existsb p l.
Proof.
  induction l as [|x l IH]; cbn [sort_items List.existsb]; [reflexivity|].
  rewrite existsb_insert_item, IH. reflexivity.
Qed.

Lemma existsb_bad_key {A B} (l : list (pykey * A)) (l' : list (pykey * B)) :
  List.map fst l = List.map fst l' ->
  List.existsb (fun kv => bad_key (fst kv)) l = List.existsb (fun kv => bad_key (fst kv)) l'.
Proof.
  revert l'. induction l as [|x l IH]; intros [|y l'] H; try discriminate; [reflexivity|].
  cbn [List.map] in H. inversion H as [[H1 H2]]. cbn [List.existsb].
  rewrite H1, (IH l' H2). reflexivity.
Qed.

(** The encoder raises exactly on the unencodable values. *)
Lemma to_json_unencodable v :
  (unencodable v = true -> to_json v = Raise TypeError)
  /\ (unencodable v = false -> exists j, to_json v = Ok j).
Proof.
  induction v as [ |b|z|f|s|l IH|items IH| ] using pyval_ind';
    try (split; [discriminate | intros _; eexists; reflexivity]).
  - rewrite unencodable_PList, to_json_PList.
    assert (L : (any_unencodable l = true -> to_json_list l = Raise TypeError)
                /\ (any_unencodable l = false -> exists js, to_json_list l = Ok js)).
    { induction IH as [|v l [Hv1 Hv2] _ [IH1 IH2]]; cbn [any_unencodable to_json_list].
      - split; [discriminate | eauto].
      - split.
        + intros H. destruct (unencodable v) eqn:U.
          * rewrite (Hv1 eq_refl). reflexivity.
          * destruct (Hv2 eq_refl) as (j & ->). cbn [bind orb] in *.
            rewrite (IH1 H). reflexivity.
        + intros H. apply orb_false_iff in H. destruct H as [U R].
          destruct (Hv2 U) as (j & ->). destruct (IH2 R) as (js & ->).
          cbn [bind]. eauto. }
    destruct L as [L1 L2]. split; intros H.
    + rewrite (L1 H). reflexivity.
    + destruct (L2 H) as (js & ->). cbn [bind]. eauto.
  - rewrite unencodable_PDict, to_json_PDict.
    assert (L : (List.existsb (fun kv => unencodable (snd kv)) items = true ->
                 to_json_items items = Raise TypeError)
                /\ (List.existsb (fun kv => unencodable (snd kv)) items = false ->
                    exists kjs, to_json_items items = Ok kjs)).
    { induction IH as [|[k v] l [Hv1 Hv2] _ [IH1 IH2]];
        cbn [List.existsb to_json_items snd] in *.
      - split; [discriminate | eauto].
      - split.
        + intros H. destruct (unencodable v) eqn:U.
          * rewrite (Hv1 eq_refl). reflexivity.
          * destruct (Hv2 eq_refl) as (j & ->). cbn [bind orb] in *.
            rewrite (IH1 H). reflexivity.
        + intros H. apply orb_false_iff in H. destruct H as [U R].
          destruct (Hv2 U) as (j & ->). destruct (IH2 R) as (js & ->).
          cbn [bind]. eauto. }
    assert (B : any_bad_item items
                = List.existsb (fun kv => bad_key (fst kv)) items
                  || List.existsb (fun kv => unencodable (snd kv)) items).
    { clear. induction items as [|[k v] l IHl]; cbn [any_bad_item List.existsb fst snd];
        [reflexivity|]. rewrite IHl.
      destruct (bad_key k), (unencodable v),
        (List.existsb (fun kv => bad_key (fst kv)) l); reflexivity. }
    rewrite B. destruct L as [L1 L2].
    destruct (List.existsb (fun kv => unencodable (snd kv)) items) eqn:U.
    + split; [|rewrite !orb_true_r; discriminate]. intros _.
      rewrite (L1 eq_refl). reflexivity.
    + rewrite orb_false_r. destruct (L2 eq_refl) as (kjs & K). rewrite K. cbn [bind].
      assert (Em := to_json_items_keys _ _ K).
      rewrite (sortable_keys kjs items Em).
      destruct (sortable items) eqn:S; cbn [negb orb].
      * assert (Eb : List.existsb (fun kv => bad_key (fst kv)) (sort_items kjs)
                     = List.existsb (fun kv => bad_key (fst kv)) items).
        { rewrite existsb_sort_items. apply existsb_bad_key. exact Em. }
        split; intros H.
        -- rewrite keys_to_text_bad by (rewrite Eb; exact H). reflexivity.
        -- rewrite <- Eb in H. clear - H.
           assert (T : exists m, keys_to_text (sort_items kjs) = Ok m).
           { induction (sort_items kjs) as [|[k j] l IHl]; cbn [keys_to_text]; [eauto|].
             cbn [List.existsb fst] in H. apply orb_false_iff in H. destruct H as [Hk Hl].
             destruct (IHl Hl) as (m & ->).
             destruct k as [s|z|[|]| | ]; cbn [key_text bind]; eauto. discriminate. }
           destruct T as (m & ->). cbn [bind]. eauto.
      * split; [reflexivity | discriminate].
  - split; [reflexivity | discriminate].
Qed.

(** C7 (amended). A payload holding an object the encoder refuses (an
    unsupported object, an unsupported key, keys that cannot be sorted) makes
    [add_ledger_entry] raise and leaves the table unchanged. A float that is
    NaN or infinite is not such an object: the encoder writes it as the bare
    word NaN, Infinity or -Infinity. *)
Theorem unencodable_payload_rejected (e : env) (db : table) (actor : option Z)
    (action : str) (payload : pyval) (message : str) :
  unencodable payload = true ->
  (exists x, add_ledger_entry e db actor action payload message = (Raise x, db))
  /\ unencodable (PFloat FNaN) = false
  /\ unencodable (PFloat FInf) = false
  /\ unencodable (PFloat FNegInf) = false
  /\ json_dumps (PFloat FNaN) = Ok (lit "NaN")
  /\ json_dumps (PFloat FInf) = Ok (lit "Infinity")
  /\ json_dumps (PFloat FNegInf) = Ok (lit "-Infinity").
Proof.
  intros U. split; [| repeat split; reflexivity].
  exists TypeError.
  unfold add_ledger_entry, append_with, json_dumps.
  rewrite to_json_envelope.
  rewrite (proj1 (to_json_unencodable payload) U). reflexivity.
Qed.

Lemma unencodable_payload_rejected_witness :
  unencodable (PDict [(key "when", POther)]) = true
  /\ exists x,
       add_ledger_entry (env_at "2024-03-02T07:00:00") chain1 (Some 1%Z) (lit "expense")
         (PDict [(key "when", POther)]) (lit "Expense: Fuel") = (Raise x, chain1).
Proof.
  split; [reflexivity|].
  exact (proj1 (unencodable_payload_rejected (env_at "2024-03-02T07:00:00") chain1
                  (Some 1%Z) (lit "expense") (PDict [(key "when", POther)])
                  (lit "Expense: Fuel") eq_refl)).
Defined.

(** C7, as stated, fails: a payload whose amount is NaN is appended, the
    stored text carrying the bare word NaN. *)
Lemma nan_payload_is_appended :
  add_ledger_entry (env_at "2024-03-02T07:00:00") chain1 (Some 1%Z) (lit "expense")
    (PDict [(key "amount", PFloat FNaN)]) (lit "Expense: Fuel") = nan_call
  /\ (exists h row, nan_call = (Ok h, chain1 ++ [row])
        /\ is_substring (lit ":NaN}") (data_text row) = true).
Proof.
  split; [vm_compute; reflexivity|].
  do 2 eexists. split; [reflexivity | vm_compute; reflexivity].
Qed.

(** ** The query (C9) *)

Lemma simple_entry_eq e : simple_entry e = e.
Proof. destruct e. reflexivity. Qed.

Lemma map_simple_entry l : List.map simple_entry l = l.
Proof.
  induction l as [|e l IH]; [reflexivity|].
  cbn [List.map]. rewrite simple_entry_eq, IH. reflexivity.
Qed.

Section SortBy.
Variable leb : Ledger -> Ledger -> bool.
Hypothesis leb_total : forall a b, leb a b = true \/ leb b a = true.
Hypothesis leb_trans : forall a b c, leb a b = true -> leb b c = true -> leb a c = true.

Lemma insert_by_perm x l : Permutation (insert_by leb x l) (x :: l).
Proof.
  induction l as [|y l IH]; cbn [insert_by]; [reflexivity|].
  destruct (leb x y); [reflexivity|].
  rewrite IH. apply perm_swap.
Qed.

Lemma sort_by_perm l : Permutation (sort_by leb l) l.
Proof.
  induction l as [|x l IH]; cbn [sort_by]; [reflexivity|].
  rewrite insert_by_perm. constructor. exact IH.
Qed.

Lemma insert_by_sorted x l :
  StronglySorted (fun a b => leb a b = true) l ->
  StronglySorted (fun a b => leb a b = true) (insert_by leb x l).
Proof.
  induction 1 as [|y l Hl IH Hy]; cbn [insert_by]; [repeat constructor|].
  destruct (leb x y) eqn:E.
  - constructor; [constructor; assumption|].
    constructor; [exact E|]. eapply Forall_impl; [| exact Hy].
    intros z Hz. exact (leb_trans _ _ _ E Hz).
  - constructor; [exact IH|].
    assert (P := insert_by_perm x l).
    apply Forall_forall. intros z Hz.
    apply (Permutation_in _ P) in Hz. destruct Hz as [<- | Hz].
    + destruct (leb_total x y) as [T | T]; [congruence | exact T].
    + rewrite Forall_forall in Hy. apply Hy. exact Hz.
Qed.

Lemma sort_by_sorted l : StronglySorted (fun a b => leb a b = true) (sort_by leb l).
Proof.
  induction l as [|x l IH]; cbn [sort_by]; [constructor|].
  apply insert_by_sorted. exact IH.
Qed.
End SortBy.

Lemma order_by_id_desc_descending db : descending (order_by_id_desc db).
Proof.
  unfold descending, order_by_id_desc.
  assert (S := sort_by_sorted (fun a b => Z.leb (id b) (id a))
                 ltac:(intros a b; destruct (Z.le_ge_cases (id b) (id a));
                         [left | right]; apply Z.leb_le; assumption)
                 ltac:(intros a b c H1 H2; apply Z.leb_le in H1, H2; apply Z.leb_le; lia)
                 db).
  induction S as [|x l Sl IH Hx]; constructor; [exact IH|].
  eapply Forall_impl; [| exact Hx]. intros y Hy. apply Z.leb_le. exact Hy.
Qed.

Lemma descending_filter p l : descending l -> descending (List.filter p l).
Proof.
  unfold descending. induction 1 as [|x l Sl IH Hx]; cbn [List.filter]; [constructor|].
  destruct (p x); [|exact IH]. constructor; [exact IH|].
  apply Forall_forall. intros y Hy. apply List.filter_In in Hy.
  rewrite Forall_forall in Hx. apply Hx, Hy.
Qed.

Lemma descending_skipn n l : descending l -> descending (List.skipn n l).
Proof.
  unfold descending. revert l. induction n as [|n IH]; intros l H; [exact H|].
  destruct l as [|x l]; [constructor|]. cbn [List.skipn]. apply IH.
  inversion H; assumption.
Qed.

Lemma in_firstn {A} n (l : list A) x : In x (List.firstn n l) -> In x l.
Proof.
  intros H. rewrite <- (List.firstn_skipn n l). apply List.in_or_app. left. exact H.
Qed.

Lemma in_skipn {A} n (l : list A) x : In x (List.skipn n l) -> In x l.
Proof.
  intros H. rewrite <- (List.firstn_skipn n l). apply List.in_or_app. right. exact H.
Qed.

Lemma descending_firstn n l : descending l -> descending (List.firstn n l).
Proof.
  unfold descending. revert l. induction n as [|n IH]; intros l H; [constructor|].
  destruct l as [|x l]; [constructor|]. cbn [List.firstn].
  inversion H as [|? ? Sl Hx]; subst. constructor; [apply IH; exact Sl|].
  apply Forall_forall. intros y Hy. rewrite Forall_forall in Hx. apply Hx.
  eapply in_firstn. exact Hy.
Qed.

Lemma offset_limit_incl offset limit rows r :
  In r (offset_limit offset limit rows) -> In r rows.
Proof.
  unfold offset_limit. intros H.
  destruct (Z.ltb limit 0).
  - eapply in_skipn. exact H.
  - eapply in_skipn. eapply in_firstn. exact H.
Qed.

Lemma descending_offset_limit offset limit rows :
  descending rows -> descending (offset_limit offset limit rows).
Proof.
  unfold offset_limit. intros H. destruct (Z.ltb limit 0).
  - apply descending_skipn. exact H.
  - apply descending_firstn, descending_skipn. exact H.
Qed.

Lemma get_ledger_entries_bound limit offset tag actor db :
  query_binds limit offset tag actor = true ->
  get_ledger_entries limit offset tag actor db
  = (offset_limit offset limit
       (List.filter (actor_filter actor)
          (List.filter (action_filter tag) (order_by_id_desc db))), db).
Proof.
  intros Q. unfold get_ledger_entries. rewrite Q, map_simple_entry. reflexivity.
Qed.

Lemma get_ledger_entries_refused limit offset tag actor db :
  query_binds limit offset tag actor = false ->
  get_ledger_entries limit offset tag actor db = ([], db).
Proof. intros Q. unfold get_ledger_entries. rewrite Q. reflexivity. Qed.

Lemma get_ledger_entries_incl limit offset tag actor db r :
  In r (fst (get_ledger_entries limit offset tag actor db)) ->
  In r (List.filter (actor_filter actor)
          (List.filter (action_filter tag) (order_by_id_desc db))).
Proof.
  destruct (query_binds limit offset tag actor) eqn:Q.
  - rewrite get_ledger_entries_bound by exact Q. cbn [fst]. apply offset_limit_incl.
  - rewrite get_ledger_entries_refused by exact Q. intros [].
Qed.

Lemma binds_int_spec z : binds_int z = true <-> (- 2 ^ 63 <= z < 2 ^ 63)%Z.
Proof.
  unfold binds_int. rewrite andb_true_iff, Z.leb_le, Z.ltb_lt. reflexivity.
Qed.

Lemma binds_text_spec s : binds_text s = true <-> exists b, utf8_encode s = Ok b.
Proof.
  unfold binds_text. destruct (utf8_encode s) as [b|x].
  - split; [eauto | reflexivity].
  - split; [discriminate | intros (b & E); discriminate E].
Qed.

Lemma query_binds_spec limit offset tag actor :
  query_binds limit offset tag actor = true <->
  (- 2 ^ 63 <= limit < 2 ^ 63)%Z
  /\ (- 2 ^ 63 <= offset < 2 ^ 63)%Z
  /\ (forall a, tag = Some a -> a <> [] -> a <> lit "All" ->
        exists b, utf8_encode a = Ok b)
  /\ (forall n, actor = Some n -> (0 < n)%Z -> (n < 2 ^ 63)%Z).
Proof.
  unfold query_binds. rewrite !andb_true_iff, !binds_int_spec.
  assert (T : match tag with
              | Some a =>
                  if negb (str_eqb a []) && negb (str_eqb a (lit "All"))
                  then binds_text a else true
              | None => true
              end = true
              <-> (forall a, tag = Some a -> a <> [] -> a <> lit "All" ->
                     exists b, utf8_encode a = Ok b)).
  { destruct tag as [a|]; [| split; [intros _ a E; discriminate E | reflexivity]].
    destruct (str_eqb a []) eqn:E1; cbn [negb andb].
    - apply str_eqb_eq in E1. split; [| reflexivity].
      intros _ a' E N. injection E as <-. contradiction.
    - destruct (str_eqb a (lit "All")) eqn:E2; cbn [negb].
      + apply str_eqb_eq in E2. split; [| reflexivity].
        intros _ a' E _ N. injection E as <-. contradiction.
      + apply str_eqb_neq in E1, E2. rewrite binds_text_spec. split.
        * intros H a' E _ _. injection E as <-. exact H.
        * intros H. apply (H a eq_refl E1 E2). }
  assert (A : match actor with
              | Some a => if negb (Z.eqb a 0) && Z.ltb 0 a then binds_int a else true
              | None => true
              end = true
              <-> (forall n, actor = Some n -> (0 < n)%Z -> (n < 2 ^ 63)%Z)).
  { destruct actor as [a|]; [| split; [intros _ n E; discriminate E | reflexivity]].
    destruct (Z.ltb_spec 0 a) as [P|P].
    - replace (Z.eqb a 0) with false by (symmetry; apply Z.eqb_neq; lia).
      cbn [negb andb]. rewrite binds_int_spec. split.
      + intros H n E _. injection E as <-. lia.
      + intros H. specialize (H a eq_refl P). lia.
    - rewrite andb_false_r. split; [| reflexivity].
      intros _ n E Hn. injection E as <-. lia. }
  rewrite T, A. tauto.
Qed.

(** C9 (amended). [get_ledger_entries] writes nothing. When limit, offset
    and the filter values can be bound to the statement (integers within 64
    bits, text with a UTF-8 encoding), it returns, newest first, the rows
    that pass the filters given (a tag that is neither empty nor the word
    All; a positive actor id), without the first offset of them and cut
    after limit of them (a negative limit does not cut, a negative offset
    skips nothing); otherwise it returns the empty list. After appending
    refill_transaction, expense and inventory_change to an empty table,
    asking for expense returns the second entry alone. *)
Theorem get_ledger_entries_spec :
  (forall (limit offset : Z) (tag : option str) (actor : option Z) (db : table),
     let out := fst (get_ledger_entries limit offset tag actor db) in
     let rows := List.filter (actor_filter actor)
                   (List.filter (action_filter tag) (order_by_id_desc db)) in
     let rest := List.skipn (Z.to_nat offset) rows in
     snd (get_ledger_entries limit offset tag actor db) = db
     /\ descending out
     /\ (query_binds limit offset tag actor = true ->
         out = if Z.ltb limit 0 then rest else List.firstn (Z.to_nat limit) rest)
     /\ (query_binds limit offset tag actor = false -> out = [])
     /\ (query_binds limit offset tag actor = true <->
         (- 2 ^ 63 <= limit < 2 ^ 63)%Z
         /\ (- 2 ^ 63 <= offset < 2 ^ 63)%Z
         /\ (forall a, tag = Some a -> a <> [] -> a <> lit "All" ->
               exists b, utf8_encode a = Ok b)
         /\ (forall n, actor = Some n -> (0 < n)%Z -> (n < 2 ^ 63)%Z))
     /\ Permutation (order_by_id_desc db) db
     /\ descending (order_by_id_desc db)
     /\ (forall r, In r out -> In r db)
     /\ (forall a, tag = Some a -> a <> [] -> a <> lit "All" ->
           forall r, In r out -> action_type r = a)
     /\ (forall a, tag = Some a -> a <> [] -> a <> lit "All" ->
           forall r, In r rows -> In r db /\ action_type r = a)
     /\ (forall n, actor = Some n -> (0 < n)%Z ->
           forall r, In r out -> actor_id r = Some n)
     /\ (tag = None -> actor = None -> rows = order_by_id_desc db)
     /\ ((0 <= limit)%Z -> (List.length out <= Z.to_nat limit)%nat))
  /\ (forall e1 e2 e3 a1 a2 a3 p1 p2 p3 m1 m2 m3 h1 h2 h3 db1 db2 db3,
        add_ledger_entry e1 [] a1 (lit "refill_transaction") p1 m1 = (Ok h1, db1) ->
        add_ledger_entry e2 db1 a2 (lit "expense") p2 m2 = (Ok h2, db2) ->
        add_ledger_entry e3 db2 a3 (lit "inventory_change") p3 m3 = (Ok h3, db3) ->
        exists second,
          List.nth_error db3 1 = Some second
          /\ data_hash second = h2
          /\ get_ledger_entries 100 0 (Some (lit "expense")) None db3 = ([second], db3)).
Proof.
  split.
  - intros limit offset tag actor db out rows rest.
    assert (P : Permutation (order_by_id_desc db) db) by apply sort_by_perm.
    assert (D : descending (offset_limit offset limit rows)).
    { apply descending_offset_limit. do 2 apply descending_filter.
      apply order_by_id_desc_descending. }
    assert (R : forall r, In r rows ->
                  In r db /\ action_filter tag r = true /\ actor_filter actor r = true).
    { intros r Hr. subst rows.
      apply List.filter_In in Hr. destruct Hr as [Hr Ha].
      apply List.filter_In in Hr. destruct Hr as [Hr Ht].
      split; [eapply Permutation_in; eassumption | auto]. }
    assert (T : forall a, tag = Some a -> a <> [] -> a <> lit "All" ->
                forall r, action_filter tag r = true -> action_type r = a).
    { intros a -> N1 N2 r Ht. unfold action_filter in Ht.
      apply str_eqb_neq in N1, N2. rewrite N1, N2 in Ht. cbn in Ht.
      apply str_eqb_eq. exact Ht. }
    assert (E : out = offset_limit offset limit rows \/ out = []).
    { subst out. destruct (query_binds limit offset tag actor) eqn:Q.
      - left. rewrite get_ledger_entries_bound by exact Q. reflexivity.
      - right. rewrite get_ledger_entries_refused by exact Q. reflexivity. }
    assert (F : forall r, In r out -> In r rows).
    { intros r Hr. destruct E as [E|E]; rewrite E in Hr; [| destruct Hr].
      eapply offset_limit_incl. exact Hr. }
    split.
    { destruct (query_binds limit offset tag actor) eqn:Q.
      - rewrite get_ledger_entries_bound by exact Q. reflexivity.
      - rewrite get_ledger_entries_refused by exact Q. reflexivity. }
    split.
    { destruct E as [E|E]; rewrite E; [exact D | constructor]. }
    split.
    { intros Q. subst out. rewrite get_ledger_entries_bound by exact Q. reflexivity. }
    split.
    { intros Q. subst out. rewrite get_ledger_entries_refused by exact Q. reflexivity. }
    split; [apply query_binds_spec|].
    split; [exact P|]. split; [apply order_by_id_desc_descending|].
    split; [intros r Hr; apply R, F, Hr|].
    split; [intros a Ea N1 N2 r Hr; apply (T a Ea N1 N2), R, F, Hr|].
    split.
    { intros a Ea N1 N2 r Hr. destruct (R r Hr) as (I & Ht & _).
      split; [exact I | apply (T a Ea N1 N2), Ht]. }
    split; [| split].
    + intros n -> Hn r Hr. destruct (R r (F r Hr)) as (_ & _ & Ha).
      unfold actor_filter in Ha.
      replace (Z.eqb n 0) with false in Ha by (symmetry; apply Z.eqb_neq; lia).
      replace (Z.ltb 0 n) with true in Ha by (symmetry; apply Z.ltb_lt; lia).
      cbn in Ha. destruct (actor_id r) as [b|]; [|discriminate].
      apply Z.eqb_eq in Ha. congruence.
    + intros -> ->. subst rows. cbn [action_filter actor_filter].
      assert (K : forall l : list Ledger, List.filter (fun _ => true) l = l).
      { induction l as [|x l IH]; [reflexivity|]. cbn [List.filter]. rewrite IH.
        reflexivity. }
      rewrite !K. reflexivity.
    + intros Hl. destruct E as [E|E]; rewrite E; [| apply Nat.le_0_l].
      unfold offset_limit.
      replace (Z.ltb limit 0) with false by (symmetry; apply Z.ltb_ge; lia).
      apply List.firstn_le_length.
  - intros e1 e2 e3 a1 a2 a3 p1 p2 p3 m1 m2 m3 h1 h2 h3 db1 db2 db3 H1 H2 H3.
    unfold add_ledger_entry in H1, H2, H3.
    apply append_with_ok in H1. destruct H1 as (t1 & _ & _ & _ & _ & ->).
    apply append_with_ok in H2. destruct H2 as (t2 & _ & _ & _ & _ & ->).
    apply append_with_ok in H3. destruct H3 as (t3 & _ & _ & _ & _ & ->).
    eexists. split; [reflexivity|]. split; [reflexivity|].
    vm_compute. reflexivity.
Qed.

Lemma get_ledger_entries_spec_witness :
  get_ledger_entries 100 0 (Some (lit "expense")) None chain3 = ([entry2], chain3).
Proof.
  destruct (proj2 get_ledger_entries_spec
              (env_at "2024-03-01T08:00:00.000001") (env_at "2024-03-01T09:30:00.000500")
              (env_at "2024-03-01T10:45:10.250000") (Some 1%Z) (Some 2%Z) None
              sale cost stock (lit "Refill transaction #1") (lit "Expense: Fuel")
              (lit "Inventory change: Caps - restock")
              (hash_of after1) (hash_of after2) (hash_of after3) chain1 chain2 chain3
              ltac:(vm_compute; reflexivity) ltac:(vm_compute; reflexivity)
              ltac:(vm_compute; reflexivity))
    as (second & N & _ & Q).
  vm_compute in N. inversion N; subst. exact Q.
Defined.

(** C9, as stated, fails: a limit of 2^63 cannot be bound to the statement,
    the error is caught and the call returns the empty list, although the
    table holds three entries and no filter is given. *)
Lemma oversized_limit_returns_nothing :
  get_ledger_entries (2 ^ 63) 0 None None chain3 = ([], chain3)
  /\ List.length chain3 = 3%nat
  /\ get_ledger_entries (2 ^ 63 - 1) 0 None None chain3
     = ([entry3; entry2; entry1], chain3).
Proof. split; [reflexivity | split; reflexivity]. Qed.

(** ** The proof export (C8) *)

Lemma utf8_encode_ascii s : ascii_text s -> utf8_encode s = Ok s.
Proof.
  induction 1 as [|c s Hc _ IH]; [reflexivity|].
  cbn [utf8_encode]. unfold utf8_char.
  replace (c <? 128) with true by (symmetry; apply N.ltb_lt; exact Hc).
  cbn [bind]. rewrite IH. reflexivity.
Qed.

Lemma digits_ascii s : Forall (fun c => is_digit c = true) s -> ascii_text s.
Proof.
  unfold ascii_text. apply Forall_impl. intros c H. unfold is_digit in H.
  apply andb_true_iff in H. destruct H as [_ H]. apply N.leb_le in H. lia.
Qed.

Lemma str_of_N_ascii n : ascii_text (str_of_N n).
Proof. apply digits_ascii, str_of_uint_digits. Qed.

Lemma ascii_app a b : ascii_text a -> ascii_text b -> ascii_text (a ++ b).
Proof. intros; apply Forall_app; split; assumption. Qed.

Lemma ascii_cons c s : c < 128 -> ascii_text s -> ascii_text (c :: s).
Proof. intros; constructor; assumption. Qed.

Lemma ascii_lit_check s :
  List.forallb (fun c => c <? 128) s = true -> ascii_text s.
Proof.
  intros H. apply Forall_forall. intros c Hc.
  rewrite List.forallb_forall in H. apply N.ltb_lt, H, Hc.
Qed.

Lemma number_text_ascii tok : number_text tok -> ascii_text tok.
Proof.
  intros [(z & ->) | (f & ->)].
  - unfold str_of_Z. destruct z; try apply str_of_N_ascii.
    apply ascii_cons; [reflexivity | apply str_of_N_ascii].
  - destruct f as [| | |neg ip fr ex]; try (apply ascii_lit_check; reflexivity).
    destruct (finite_parts neg ip fr ex) as (fp & ep & -> & F & E).
    repeat apply ascii_app.
    + destruct neg; repeat constructor.
    + apply str_of_N_ascii.
    + destruct F as [-> | (d & ds & D & ->)]; [constructor|].
      apply ascii_cons; [reflexivity | apply digits_ascii, D].
    + destruct E as [-> | (sg & d & ds & S & D & ->)]; [constructor|].
      apply ascii_cons; [reflexivity|].
      apply ascii_cons; [destruct S; subst; reflexivity | apply digits_ascii, D].
Qed.

Lemma lower_hex_ascii s : Forall (fun c => is_lower_hex c = true) s -> ascii_text s.
Proof.
  unfold ascii_text. apply Forall_impl. intros c H. unfold is_lower_hex in H.
  apply orb_true_iff in H.
  destruct H as [H | H]; apply andb_true_iff in H; destruct H as [_ H];
    apply N.leb_le in H; lia.
Qed.

Lemma escape_unit_ascii u : ascii_text (escape_unit u).
Proof.
  destruct (escape_unit_cases u) as [(E & _) | [(x & E & U & _ & _) | (E & _ & _ & _ & K)]];
    rewrite E.
  - do 2 (apply ascii_cons; [reflexivity|]).
    apply lower_hex_ascii. apply hex_digits_shape.
  - apply ascii_cons; [reflexivity|]. apply ascii_cons; [|constructor].
    unfold unescape in U.
    repeat match type of U with
           | (if ?c then _ else _) = _ =>
               let H := fresh "H" in
               destruct c eqn:H; [apply N.eqb_eq in H; subst x; reflexivity|]
           end.
    discriminate.
  - apply ascii_cons; [lia | constructor].
Qed.

Lemma encode_string_ascii s : ascii_text (encode_string s).
Proof.
  unfold encode_string. apply ascii_cons; [reflexivity|]. apply ascii_app.
  - rewrite flat_map_escape. induction (List.flat_map units s) as [|u l IH];
      [constructor|]. cbn [List.flat_map]. apply ascii_app; [apply escape_unit_ascii | exact IH].
  - repeat constructor.
Qed.

Lemma render_elems_ascii l :
  Forall (fun x => ascii_text (render x)) l -> ascii_text (render_elems l).
Proof.
  induction 1 as [|x l Hx Hl IH]; [repeat constructor|].
  destruct l as [|y l].
  - cbn [render_elems]. apply ascii_app; [exact Hx | repeat constructor].
  - change (render_elems (x :: y :: l)) with (render x ++ 44 :: render_elems (y :: l)).
    apply ascii_app; [exact Hx|]. apply ascii_cons; [reflexivity | exact IH].
Qed.

Lemma render_members_ascii m :
  Forall (fun kv => ascii_text (render (snd kv))) m -> ascii_text (render_members m).
Proof.
  induction 1 as [|[k x] m Hx Hm IH]; [repeat constructor|]. cbn [snd] in Hx.
  destruct m as [|[k' x'] m].
  - cbn [render_members]. apply ascii_app; [apply encode_string_ascii|].
    apply ascii_cons; [reflexivity|].
    apply ascii_app; [exact Hx | repeat constructor].
  - change (render_members ((k, x) :: (k', x') :: m))
      with (encode_string k ++ 58 :: render x ++ 44 :: render_members ((k', x') :: m)).
    apply ascii_app; [apply encode_string_ascii|].
    apply ascii_cons; [reflexivity|].
    apply ascii_app; [exact Hx|]. apply ascii_cons; [reflexivity | exact IH].
Qed.

Lemma render_ascii j : wf_json j -> ascii_text (render j).
Proof.
  induction j as [ |b|tok|s|l IH|m IH] using json_ind'; intros W.
  - apply ascii_lit_check. reflexivity.
  - destruct b; apply ascii_lit_check; reflexivity.
  - inversion W; subst. apply number_text_ascii. assumption.
  - apply encode_string_ascii.
  - inversion W as [ | | | |? Wl| ]; subst. rewrite render_array.
    apply ascii_cons; [reflexivity|]. apply render_elems_ascii.
    rewrite Forall_forall in *. auto.
  - inversion W as [ | | | | |? Wm]; subst. rewrite render_object.
    apply ascii_cons; [reflexivity|]. apply render_members_ascii.
    rewrite Forall_forall in *. auto.
Qed.

(** Whatever [json.dumps] writes has a UTF-8 encoding: itself. *)
Lemma dumps_encodes v text : json_dumps v = Ok text -> utf8_encode text = Ok text.
Proof.
  unfold json_dumps. intros H. apply bind_ok in H. destruct H as (j & Hj & H).
  apply Ok_inj in H. subst. apply utf8_encode_ascii, render_ascii.
  apply (to_json_wf v). exact Hj.
Qed.

Lemma proof_body_encodable now s e rows :
  unencodable (PDict (proof_body now s e rows)) = false.
Proof.
  rewrite unencodable_PDict. unfold proof_body.
  cbn [any_bad_item sortable List.forallb key key_is_str fst negb orb bad_key].
  assert (R : unencodable (PList (List.map proof_entry rows)) = false).
  { rewrite unencodable_PList. induction rows as [|r rows IH]; [reflexivity|].
    cbn [List.map any_unencodable]. rewrite IH.
    unfold proof_entry. rewrite unencodable_PDict.
    destruct (actor_id r); reflexivity. }
  rewrite R. destruct s, e; reflexivity.
Qed.

Lemma proof_hash_last body h :
  List.existsb (fun kv => match fst kv with
                          | KeyStr k => str_eqb k (lit "proof_hash")
                          | _ => false
                          end) body = false ->
  proof_hash (body ++ [(key "proof_hash", PStr h)]) = Some h.
Proof.
  unfold proof_hash. intros H.
  induction body as [|[k v] body IH]; cbn [List.app List.find].
  - unfold key. cbn [fst]. rewrite str_eqb_refl. reflexivity.
  - cbn [List.existsb fst] in H. apply orb_false_iff in H. destruct H as [Hk Hb].
    cbn [fst]. rewrite Hk. apply IH. exact Hb.
Qed.

Lemma export_ledger_proof_bound now s e db :
  bound_binds s = true -> bound_binds e = true ->
  exists h,
    lower_hex64 h
    /\ export_ledger_proof now s e db
       = (Ok (proof_body now s e (proof_rows s e db) ++ [(key "proof_hash", PStr h)]), db).
Proof.
  intros Bs Be. unfold export_ledger_proof. rewrite Bs, Be. cbn [andb].
  set (body := proof_body now s e (proof_rows s e db)).
  assert (D : exists text, json_dumps (PDict body) = Ok text).
  { unfold json_dumps.
    destruct (proj2 (to_json_unencodable (PDict body))
                (proof_body_encodable now s e _)) as (j & ->).
    cbn [bind]. eauto. }
  destruct D as (text & D). rewrite D. cbn [bind].
  rewrite (dumps_encodes _ _ D). cbn [bind].
  exists (SHA256.hexdigest text). split; [apply hexdigest_shape | reflexivity].
Qed.

Lemma export_ledger_proof_refused now s e db :
  bound_binds s && bound_binds e = false ->
  export_ledger_proof now s e db = (Raise UnicodeEncodeError, db).
Proof. intros B. unfold export_ledger_proof. rewrite B. reflexivity. Qed.

(** C8 (amended). Two exports of the same range (bounds that have a UTF-8
    encoding) stamped with the same clock reading, over tables whose rows
    in the range are the same, return the same proof, whose [proof_hash] is
    a lowercase hexadecimal SHA-256 digest, and leave the table as it was;
    an export stamped with another clock reading returns another proof. *)
Theorem export_proof_repeatable (now : str) (s e : option str) (db1 db2 : table) :
  bound_binds s = true -> bound_binds e = true ->
  proof_rows s e db1 = proof_rows s e db2 ->
  exists proof h,
    fst (export_ledger_proof now s e db1) = Ok proof
    /\ fst (export_ledger_proof now s e db2) = Ok proof
    /\ proof_hash proof = Some h
    /\ lower_hex64 h
    /\ snd (export_ledger_proof now s e db1) = db1
    /\ (forall later other,
          later <> now ->
          fst (export_ledger_proof later s e db2) = Ok other ->
          other <> proof).
Proof.
  intros Bs Be R.
  destruct (export_ledger_proof_bound now s e db1 Bs Be) as (h & Hh & E1).
  destruct (export_ledger_proof_bound now s e db2 Bs Be) as (h2 & _ & E2).
  assert (Eh : h2 = h).
  { unfold export_ledger_proof in E1, E2. rewrite Bs, Be in E1, E2. cbn [andb] in E1, E2.
    rewrite <- R in E2.
    destruct (json_dumps _) as [text|x]; cbn [bind] in E1, E2; [|discriminate].
    destruct (utf8_encode text) as [b|x]; cbn [bind] in E1, E2; [|discriminate].
    injection E1 as E1. injection E2 as E2.
    congruence. }
  subst h2. rewrite <- R in E2.
  exists (proof_body now s e (proof_rows s e db1) ++ [(key "proof_hash", PStr h)]), h.
  rewrite E1, E2. cbn [fst snd].
  split; [reflexivity | split; [reflexivity|]]. split; [| split; [exact Hh | split; [reflexivity|]]].
  - apply proof_hash_last. reflexivity.
  - intros later other N L.
    destruct (export_ledger_proof_bound later s e db2 Bs Be) as (h3 & _ & E3).
    rewrite E3 in L. cbn [fst] in L. apply Ok_inj in L. subst other.
    intros E. unfold proof_body in E. cbn [List.app] in E.
    injection E as E _. apply List.app_inv_tail in E. exact (N E).
Qed.

Lemma export_proof_repeatable_witness :
  bound_binds range_start = true /\ bound_binds range_end = true
  /\ proof_rows range_start range_end chain2 = proof_rows range_start range_end chain3
  /\ fst (export_ledger_proof (lit "2024-03-05T12:00:00") range_start range_end chain2)
     = fst (export_ledger_proof (lit "2024-03-05T12:00:00") range_start range_end chain3).
Proof.
  assert (R : proof_rows range_start range_end chain2
              = proof_rows range_start range_end chain3) by (vm_compute; reflexivity).
  split; [reflexivity|]. split; [reflexivity|]. split; [exact R|].
  destruct (export_proof_repeatable (lit "2024-03-05T12:00:00") range_start range_end
              chain2 chain3 eq_refl eq_refl R) as (proof & h & E1 & E2 & _).
  rewrite E1, E2. reflexivity.
Defined.

(** C8, as stated, fails: the table is the same at both calls, the clock
    is not, and the two proof hashes differ. *)
Lemma proof_hash_changes_with_clock :
  exists p1 p2,
    export_ledger_proof (lit "2024-03-05T12:00:00") None None chain3 = (Ok p1, chain3)
    /\ export_ledger_proof (lit "2024-03-05T12:00:07") None None chain3 = (Ok p2, chain3)
    /\ proof_hash p1 <> proof_hash p2.
Proof.
  do 2 eexists. split; [vm_compute; reflexivity|]. split; [vm_compute; reflexivity|].
  intros E. vm_compute in E. discriminate E.
Qed.

(** ** Callers that overlap, callers that do not (C5) *)



















(** ** Appending to any table *)

Lemma next_id_above db : Forall (fun x => (id x < next_id db)%Z) db.
Proof.
  unfold next_id. induction db as [|x db IH]; constructor; cbn [List.map List.fold_right].
  - lia.
  - eapply Forall_impl; [| exact IH]. cbn beta. intros y Hy. lia.
Qed.

Lemma insert_asc_last x l r :
  (id x <= id r)%Z ->
  insert_by (fun a b => Z.leb (id a) (id b)) x (l ++ [r])
  = insert_by (fun a b => Z.leb (id a) (id b)) x l ++ [r].
Proof.
  intros H. induction l as [|y l IH]; cbn [List.app insert_by].
  - replace (Z.leb (id x) (id r)) with true by (symmetry; apply Z.leb_le; exact H).
    reflexivity.
  - destruct (Z.leb (id x) (id y)); [reflexivity|]. rewrite IH. reflexivity.
Qed.

Lemma asc_app_last db r :
  Forall (fun x => (id x < id r)%Z) db ->
  order_by_id_asc (db ++ [r]) = order_by_id_asc db ++ [r].
Proof.
  unfold order_by_id_asc. induction 1 as [|x db Hx _ IH]; [reflexivity|].
  cbn [List.app sort_by]. rewrite IH. apply insert_asc_last. lia.
Qed.

Lemma desc_app_last db r :
  Forall (fun x => (id x < id r)%Z) db ->
  order_by_id_desc (db ++ [r]) = r :: order_by_id_desc db.
Proof.
  unfold order_by_id_desc. induction 1 as [|x db Hx _ IH]; [reflexivity|].
  cbn [List.app sort_by]. rewrite IH. cbn [insert_by].
  replace (Z.leb (id r) (id x)) with false by (symmetry; apply Z.leb_gt; exact Hx).
  reflexivity.
Qed.

Lemma add_ledger_entry_ok e db actor action payload message h db' :
  add_ledger_entry e db actor action payload message = (Ok h, db') ->
  exists text,
    json_dumps (envelope action payload message (utcnow e ++ lit "Z")) = Ok text
    /\ create_data_hash (utcnow e ++ lit "Z") (get_last_hash db) actor text = Ok h
    /\ commit_fault e = false
    /\ ~ In h (List.map data_hash db)
    /\ db' = db ++ [new_row e db actor action text h].
Proof.
  unfold add_ledger_entry. intros H. apply append_with_ok in H.
  destruct H as (text & D & C & F & U & ->). exists text.
  repeat split; try assumption. apply existsb_hash_false. exact U.
Qed.

(** X2. On a table whose keys are above zero and below 2^63 - 1, a
    successful call adds exactly one row, after the rows that were there and
    with an id above each of theirs; the row holds the timestamp, the actor
    and the action type of the call, points to the digest [get_last_hash]
    gave before the call and stores the digest the call returns. Afterwards
    [get_last_hash] returns that digest, and the newest entry
    [get_ledger_entries] lists is that row. *)
Theorem append_advances_head (e : env) (db : table) (actor : option Z)
    (action : str) (payload : pyval) (message h : str) (db' : table) :
  rowids_ok db ->
  add_ledger_entry e db actor action payload message = (Ok h, db') ->
  exists row,
    db' = db ++ [row]
    /\ Forall (fun x => (id x < id row)%Z) db
    /\ timestamp row = utcnow e ++ lit "Z"
    /\ prev_hash row = get_last_hash db
    /\ data_hash row = h
    /\ actor_id row = actor
    /\ action_type row = action
    /\ get_last_hash db' = h
    /\ fst (get_ledger_entries 1 0 None None db') = [row].
Proof.
  intros _ H. apply add_ledger_entry_ok in H. destruct H as (text & _ & _ & _ & _ & ->).
  exists (new_row e db actor action text h).
  assert (A := next_id_above db).
  split; [reflexivity|]. split; [exact A|]. do 5 (split; [reflexivity|]).
  rewrite (get_ledger_entries_bound 1 0 None None _ eq_refl).
  unfold get_last_hash. cbn [fst].
  rewrite (desc_app_last db (new_row e db actor action text h) A).
  split; reflexivity.
Qed.

Lemma rowids_ok_chain1 : rowids_ok chain1.
Proof. repeat constructor. Qed.

Lemma append_advances_head_witness :
  rowids_ok chain1 /\ get_last_hash chain2 = hash_of after2.
Proof.
  split; [exact rowids_ok_chain1|].
  destruct (append_advances_head (env_at "2024-03-01T09:30:00.000500") chain1 (Some 2%Z)
              (lit "expense") cost (lit "Expense: Fuel") (hash_of after2) chain2
              rowids_ok_chain1 ltac:(vm_compute; reflexivity))
    as (row & _ & _ & _ & _ & _ & _ & _ & H & _).
  exact H.
Defined.

(** ** What is stored is what is read back *)

Lemma join_pair_units n :
  n < 0x100000 ->
  join_pair (N.lor 0xd800 (N.land (N.shiftr n 10) 0x3ff))
            (N.lor 0xdc00 (N.land n 0x3ff)) = 0x10000 + n.
Proof.
  intros H. rewrite !surrogate_lor by reflexivity. unfold join_pair.
  assert (S : forall a b, a + b - a = b) by (intros; lia). rewrite !S. clear S.
  rewrite N.shiftr_div_pow2. change (2 ^ 10) with 1024.
  assert (Q : n / 1024 < 1024) by (apply N.Div0.div_lt_upper_bound; lia).
  rewrite (N.mod_small (n / 1024) 1024) by exact Q.
  assert (Z : N.land (N.shiftl (n / 1024) 10) (n mod 1024) = 0).
  { change 1024 with (2 ^ 10) at 2. rewrite <- N.land_ones.
    rewrite (N.land_comm n), N.land_assoc.
    replace (N.land (N.shiftl (n / 1024) 10) (N.ones 10)) with 0; [apply N.land_0_l|].
    symmetry. rewrite N.land_ones, N.shiftl_mul_pow2. apply N.Div0.mod_mul. }
  rewrite <- N.lxor_lor by exact Z. rewrite <- N.add_nocarry_lxor by exact Z.
  rewrite N.shiftl_mul_pow2. change (2 ^ 10) with 1024.
  f_equal. rewrite (N.div_mod n 1024) at 3 by lia. lia.
Qed.

Lemma high_offset m : m < 1024 -> is_high (0xd800 + m) = true.
Proof.
  intros H. unfold is_high. apply andb_true_iff. split; apply N.leb_le; lia.
Qed.

Lemma low_offset m : m < 1024 -> is_low (0xdc00 + m) = true.
Proof.
  intros H. unfold is_low. apply andb_true_iff. split; apply N.leb_le; lia.
Qed.

Lemma decoded_plain s : plain_text s -> decoded s = s.
Proof.
  unfold decoded. induction 1 as [|c s [Hc Hs] _ IH]; [reflexivity|].
  cbn [List.flat_map]. unfold units at 1.
  destruct (c <? 0x10000) eqn:E.
  - cbn [List.app]. rewrite join_cons_plain, IH; [reflexivity|].
    apply N.ltb_lt in E. unfold is_high.
    apply orb_true_iff in Hs. destruct Hs as [Hs | Hs].
    + apply N.ltb_lt in Hs. apply andb_false_iff. left. apply N.leb_gt. exact Hs.
    + apply N.ltb_lt in Hs. apply andb_false_iff. right. apply N.leb_gt. lia.
  - apply N.ltb_ge in E. cbv zeta. cbn [List.app].
    set (n := c - 0x10000).
    assert (Hn : n < 0x100000) by (subst n; lia).
    assert (J := join_pair_units n Hn).
    set (hi := N.lor 0xd800 (N.land (N.shiftr n 10) 0x3ff)) in *.
    set (lo := N.lor 0xdc00 (N.land n 0x3ff)) in *.
    assert (Hh : is_high hi = true).
    { subst hi. rewrite surrogate_lor by reflexivity. apply high_offset.
      apply N.mod_lt. discriminate. }
    assert (Hl : is_low lo = true).
    { subst lo. rewrite surrogate_lor by reflexivity. apply low_offset.
      apply N.mod_lt. discriminate. }
    cbn [join]. rewrite Hh, Hl. cbn [andb]. rewrite J, IH. f_equal. subst n. lia.
Qed.

Lemma decoded_literals :
  decoded (lit "action_type") = lit "action_type"
  /\ decoded (lit "human_message") = lit "human_message"
  /\ decoded (lit "payload") = lit "payload"
  /\ decoded (lit "timestamp") = lit "timestamp".
Proof. repeat split; vm_compute; reflexivity. Qed.

(** The text a successful call stores, read back by [json.loads]. *)
Lemma stored_envelope e db actor action payload message h db' :
  add_ledger_entry e db actor action payload message = (Ok h, db') ->
  exists text jp,
    db' = db ++ [new_row e db actor action text h]
    /\ to_json payload = Ok jp
    /\ json_loads text
       = Some (JObject [ (lit "action_type", JString (decoded action));
                         (lit "human_message", JString (decoded message));
                         (lit "payload", norm jp);
                         (lit "timestamp", JString (decoded (utcnow e ++ lit "Z"))) ]).
Proof.
  intros H. apply add_ledger_entry_ok in H. destruct H as (text & D & _ & _ & _ & ->).
  apply loads_dumps in D. destruct D as (j & Hj & _ & L).
  rewrite to_json_envelope in Hj. apply bind_ok in Hj. destruct Hj as (jp & Hp & Hj).
  apply Ok_inj in Hj. subst j.
  exists text, jp. split; [reflexivity|]. split; [exact Hp|].
  rewrite L. cbn [norm List.map fst snd].
  destruct decoded_literals as (-> & -> & -> & ->). reflexivity.
Qed.

(** X1. The text stored by a successful call decodes to the envelope the
    call was given: the action type, the message and the timestamp (each
    as the text [decoded] reads back, which is the text itself when it
    holds no surrogate), and the payload's document. *)
Theorem appended_text_reads_back (e : env) (db : table) (actor : option Z)
    (action : str) (payload : pyval) (message h : str) (db' : table) :
  add_ledger_entry e db actor action payload message = (Ok h, db') ->
  exists row jp,
    db' = db ++ [row]
    /\ to_json payload = Ok jp
    /\ json_loads (data_text row)
       = Some (JObject [ (lit "action_type", JString (decoded action));
                         (lit "human_message", JString (decoded message));
                         (lit "payload", norm jp);
                         (lit "timestamp", JString (decoded (utcnow e ++ lit "Z"))) ])
    /\ (plain_text action -> decoded action = action)
    /\ (plain_text message -> decoded message = message).
Proof.
  intros H. apply stored_envelope in H. destruct H as (text & jp & -> & Hp & L).
  exists (new_row e db actor action text h), jp.
  split; [reflexivity|]. split; [exact Hp|]. split; [exact L|].
  split; apply decoded_plain.
Qed.

Lemma appended_text_reads_back_witness :
  exists row jp,
    chain1 = [row]
    /\ to_json sale = Ok jp
    /\ json_loads (data_text row)
       = Some (JObject [ (lit "action_type", JString (lit "refill_transaction"));
                         (lit "human_message", JString (lit "Refill transaction #1"));
                         (lit "payload", jp);
                         (lit "timestamp", JString (lit "2024-03-01T08:00:00.000001Z")) ]).
Proof.
  destruct (appended_text_reads_back (env_at "2024-03-01T08:00:00.000001") [] (Some 1%Z)
              (lit "refill_transaction") sale (lit "Refill transaction #1")
              (hash_of after1) chain1 ltac:(vm_compute; reflexivity))
    as (row & jp & E & J & L & _).
  exists row, jp. split; [exact E|]. split; [exact J|].
  rewrite L. vm_compute in J. apply Ok_inj in J. subst jp. vm_compute. reflexivity.
Defined.

(** ** The verifier on tables that are not built chains *)

Lemma verify_ledger_loop db :
  fst (verify_ledger db) = verify_loop (order_by_id_asc db) genesis [].
Proof. unfold verify_ledger. destruct (order_by_id_asc db); reflexivity. Qed.

Lemma asc_perm db : Permutation (order_by_id_asc db) db.
Proof. apply sort_by_perm. Qed.

Lemma desc_perm db : Permutation (order_by_id_desc db) db.
Proof. apply sort_by_perm. Qed.

Lemma asc_sorted db :
  StronglySorted (fun a b => (id a <= id b)%Z) (order_by_id_asc db).
Proof.
  unfold order_by_id_asc.
  assert (S := sort_by_sorted (fun a b => Z.leb (id a) (id b))
                 ltac:(intros a b; destruct (Z.le_ge_cases (id a) (id b));
                         [left | right]; apply Z.leb_le; assumption)
                 ltac:(intros a b c H1 H2; apply Z.leb_le in H1, H2; apply Z.leb_le; lia)
                 db).
  induction S as [|x l Sl IH Hx]; constructor; [exact IH|].
  eapply Forall_impl; [| exact Hx]. intros y Hy. apply Z.leb_le. exact Hy.
Qed.

Lemma sorted_last {A} (R : A -> A -> Prop) l m :
  StronglySorted R (l ++ [m]) -> Forall (fun x => R x m) l.
Proof.
  induction l as [|x l IH]; cbn [List.app]; intros H; [constructor|].
  inversion H as [|? ? S F]; subst. constructor; [| apply IH; exact S].
  apply Forall_app in F. destruct F as [_ F]. inversion F; subst. assumption.
Qed.

Lemma same_id_same_row db x y :
  NoDup (List.map id db) -> In x db -> In y db -> id x = id y -> x = y.
Proof.
  induction db as [|z db IH]; cbn [List.map]; intros N Hx Hy E; [contradiction|].
  inversion N as [|? ? Hz N']; subst.
  destruct Hx as [<- | Hx], Hy as [<- | Hy].
  - reflexivity.
  - exfalso. apply Hz. rewrite E. apply List.in_map. exact Hy.
  - exfalso. apply Hz. rewrite <- E. apply List.in_map. exact Hx.
  - apply IH; assumption.
Qed.

(** With [id] a key, the digest [get_last_hash] returns is the digest the
    walk of [verify_ledger] ends on. *)
Lemma get_last_hash_walk db :
  NoDup (List.map id db) ->
  get_last_hash db = last_hash genesis (order_by_id_asc db).
Proof.
  intros N. unfold get_last_hash.
  assert (Pd := desc_perm db). assert (Pa := asc_perm db).
  assert (Sd := order_by_id_desc_descending db). assert (Sa := asc_sorted db).
  destruct (order_by_id_desc db) as [|m ld].
  - apply Permutation_nil in Pd. subst db. reflexivity.
  - destruct (order_by_id_asc db) as [|a la] using List.rev_ind.
    + apply Permutation_nil in Pa. subst db. apply Permutation_sym in Pd.
      apply Permutation_nil in Pd. discriminate.
    + clear IHla. rewrite last_hash_app. f_equal.
      assert (Im : In m db) by (eapply Permutation_in; [exact Pd | left; reflexivity]).
      assert (Ia : In a db).
      { eapply Permutation_in; [exact Pa | apply List.in_or_app; right; left; reflexivity]. }
      apply (same_id_same_row db); try assumption.
      assert (L1 : (id a <= id m)%Z).
      { apply (Permutation_in _ (Permutation_sym Pd)) in Ia.
        destruct Ia as [<- | Ia]; [lia|].
        inversion Sd as [|? ? _ F]; subst. rewrite Forall_forall in F. apply F. exact Ia. }
      assert (L2 : (id m <= id a)%Z).
      { apply (Permutation_in _ (Permutation_sym Pa)) in Im.
        apply List.in_app_or in Im. destruct Im as [Im | [<- | []]]; [|lia].
        apply sorted_last in Sa. rewrite Forall_forall in Sa. apply Sa. exact Im. }
      lia.
Qed.

(** X4. On a table whose ids are distinct, above zero and below 2^63 - 1,
    a successful call leaves the report of [verify_ledger] as it was: the
    new entry adds no inconsistency, and none that was reported goes
    away. *)
Theorem append_keeps_report (e : env) (db : table) (actor : option Z)
    (action : str) (payload : pyval) (message h : str) (db' : table) :
  NoDup (List.map id db) ->
  rowids_ok db ->
  add_ledger_entry e db actor action payload message = (Ok h, db') ->
  fst (verify_ledger db') = fst (verify_ledger db).
Proof.
  intros N _ H. apply add_ledger_entry_ok in H.
  destruct H as (text & D & C & _ & _ & ->).
  set (row := new_row e db actor action text h).
  rewrite !verify_ledger_loop, (asc_app_last db row (next_id_above db)), verify_loop_app.
  assert (K : check_entry (last_hash genesis (order_by_id_asc db)) row = Ok []).
  { apply check_entry_clean. split; [| split].
    - apply get_last_hash_walk. exact N.
    - exact C.
    - apply enveloped_text_ok. exists payload, message. exact D. }
  cbn [verify_loop]. rewrite K. cbn [bind List.app].
  destruct (verify_loop (order_by_id_asc db) genesis []) as [a|x]; cbn [bind];
    [rewrite List.app_nil_r|]; reflexivity.
Qed.

Lemma append_keeps_report_witness :
  NoDup (List.map id chain1) /\ rowids_ok chain1
  /\ fst (verify_ledger chain2) = fst (verify_ledger chain1).
Proof.
  assert (N : NoDup (List.map id chain1)).
  { vm_compute. repeat constructor. intros []. }
  split; [exact N|]. split; [exact rowids_ok_chain1|].
  apply (append_keeps_report (env_at "2024-03-01T09:30:00.000500") chain1 (Some 2%Z)
           (lit "expense") cost (lit "Expense: Fuel") (hash_of after2) chain2).
  - exact N.
  - exact rowids_ok_chain1.
  - vm_compute. reflexivity.
Defined.

Lemma increasing_app l1 l2 : increasing (l1 ++ l2) -> increasing l1 /\ increasing l2.
Proof.
  unfold increasing. induction l1 as [|x l1 IH]; cbn [List.app]; intros H.
  - split; [constructor | exact H].
  - inversion H as [|? ? S F]; subst. destruct (IH S) as [A B]. split; [|exact B].
    constructor; [exact A|]. apply Forall_app in F. apply F.
Qed.

Lemma verify_increasing l :
  increasing l -> fst (verify_ledger l) = verify_loop l genesis [].
Proof. intros H. rewrite verify_ledger_loop, asc_increasing by exact H. reflexivity. Qed.

(** X5. Dropping the newest entries of a built chain is not seen: what is
    left, any leading part of the chain, passes [verify_ledger] with an
    empty report. *)
Theorem truncated_chain_verifies (l1 l2 : list Ledger) :
  appended (l1 ++ l2) -> fst (verify_ledger l1) = Ok [].
Proof.
  intros A. apply appended_chain_ok in A.
  assert (Inc : increasing (l1 ++ l2)) by (apply seq_ids_increasing, A).
  assert (Int := chain_ok_intact _ A). unfold intact in Int.
  rewrite asc_increasing in Int by exact Inc.
  apply intact_from_app in Int. destruct Int as [I1 _].
  apply increasing_app in Inc. destruct Inc as [Inc1 _].
  apply verify_ledger_clean. unfold intact. rewrite asc_increasing by exact Inc1. exact I1.
Qed.

Lemma truncated_chain_verifies_witness :
  fst (verify_ledger [entry1; entry2]) = Ok [].
Proof. exact (truncated_chain_verifies [entry1; entry2] [entry3] appended3). Defined.

Lemma last_hash_in p l :
  last_hash p l = p \/ In (last_hash p l) (List.map data_hash l).
Proof.
  revert p. induction l as [|x l IH]; intros p; cbn [last_hash List.map]; [left; reflexivity|].
  right. destruct (IH (data_hash x)) as [-> | H]; [left; reflexivity | right; exact H].
Qed.

Lemma last_hash_nonempty p q l : l <> [] -> last_hash p l = last_hash q l.
Proof. destruct l; [congruence | reflexivity]. Qed.

(** X6. Taking an entry that has a successor out of a built chain is seen
    at the successor, and only there: the report is the one
    [prev_hash_mismatch] of the entry that followed the missing one (the
    missing entry's digest must not be the genesis value). *)
Theorem removed_entry_reported (l1 l2 : list Ledger) (e next : Ledger) :
  appended (l1 ++ e :: next :: l2) -> data_hash e <> genesis ->
  fst (verify_ledger (l1 ++ next :: l2))
  = Ok [prev_hash_mismatch (id next) (last_hash genesis l1) (data_hash e)].
Proof.
  intros A G. apply appended_chain_ok in A.
  assert (Inc : increasing (l1 ++ e :: next :: l2)) by (apply seq_ids_increasing, A).
  assert (Int := chain_ok_intact _ A). unfold intact in Int.
  rewrite asc_increasing in Int by exact Inc.
  assert (U := ck_unique _ A).
  apply intact_from_app in Int. destruct Int as [I1 I2].
  change (e :: next :: l2) with ([e] ++ next :: l2) in I2.
  apply intact_from_app in I2. destruct I2 as [_ I3].
  cbn [last_hash] in I3.
  change (next :: l2) with ([next] ++ l2) in I3.
  apply intact_from_app in I3. destruct I3 as [In1 In2].
  cbn [last_hash] in In2.
  destruct In1 as (Ln & Hn & Tn). cbn [linked] in Ln. destruct Ln as [Pn _].
  inversion Hn as [|? ? Rn _]; subst. inversion Tn as [|? ? Txn _]; subst.
  assert (Inc' : increasing (l1 ++ next :: l2)).
  { apply increasing_ids. apply increasing_ids in Inc.
    rewrite List.map_app in *. cbn [List.map] in *.
    clear - Inc. induction (List.map id l1) as [|x l IH]; cbn [List.app] in *.
    - inversion Inc as [|? ? S F]; subst. inversion S as [|? ? S' F']; subst.
      constructor; [exact S'|]. inversion F; subst. assumption.
    - inversion Inc as [|? ? S F]; subst. constructor; [apply IH; exact S|].
      apply Forall_app in F. destruct F as [F1 F2]. apply Forall_app. split; [exact F1|].
      inversion F2; subst. assumption. }
  assert (D : prev_hash next <> last_hash genesis l1).
  { rewrite Pn. destruct (last_hash_in genesis l1) as [-> | H]; [exact G|].
    intros E. rewrite <- E in H. rewrite List.map_app in U. cbn [List.map] in U.
    apply NoDup_remove_2 in U. apply U. apply List.in_or_app. left. exact H. }
  rewrite (verify_increasing _ Inc'), verify_loop_app.
  apply verify_loop_clean in I1. rewrite I1. cbn [bind List.app].
  rewrite verify_loop_cons.
  rewrite (check_entry_report _ next (data_hash next) Rn Txn).
  apply str_eqb_neq in D. rewrite D, str_eqb_refl. cbn [negb List.app bind].
  apply verify_loop_clean in In2. rewrite In2. cbn [bind]. rewrite Pn. reflexivity.
Qed.

Lemma removed_entry_reported_witness :
  fst (verify_ledger [entry1; entry3])
  = Ok [prev_hash_mismatch 3 (data_hash entry1) (data_hash entry2)].
Proof.
  apply (removed_entry_reported [entry1] [] entry2 entry3 appended3).
  intros E. vm_compute in E. discriminate E.
Defined.

Lemma altered_digest_report_witness :
  fst (verify_ledger [entry1; set_data_hash genesis entry2; entry3])
  = Ok [hash_mismatch 2 (data_hash entry2) genesis;
        prev_hash_mismatch 3 genesis (data_hash entry2)].
Proof.
  apply (altered_digest_report [entry1] [entry3] entry2 genesis appended3).
  intros E. vm_compute in E. discriminate E.
Defined.

(** *** When the walk returns *)

Lemma check_entry_scalar p e :
  storable (hashed_text e) = true -> scalar_text (data_text e) = true ->
  check_entry p e = Raise TypeError.
Proof.
  unfold storable, scalar_text, hashed_text, check_entry, create_data_hash.
  intros S T.
  destruct (utf8_encode _) as [b|x]; [|discriminate]. cbn [bind].
  destruct (json_loads (data_text e)) as [data|]; [|discriminate].
  destruct data; try discriminate; reflexivity.
Qed.

Lemma check_entry_length p e c : check_entry p e = Ok c -> (List.length c <= 3)%nat.
Proof.
  unfold check_entry. intros H.
  destruct (create_data_hash _ _ _ _) as [h|x]; cbn [bind] in H; [|discriminate].
  match type of H with
  | bind ?m _ = _ => destruct m as [c3|x] eqn:M; cbn [bind] in H; [|discriminate]
  end.
  apply Ok_inj in H. subst c.
  assert (L3 : (List.length c3 <= 1)%nat).
  { destruct (json_loads (data_text e)) as [data|].
    - apply bind_ok in M. destruct M as (a & _ & M).
      apply bind_ok in M. destruct M as (b & _ & M).
      apply Ok_inj in M. subst c3. destruct b; cbn; lia.
    - apply Ok_inj in M. subst c3. cbn. lia. }
  rewrite !List.length_app.
  destruct (negb (str_eqb (prev_hash e) p)), (negb (str_eqb (data_hash e) h));
    cbn [List.length]; lia.
Qed.

Lemma check_entry_returns p e c :
  check_entry p e = Ok c ->
  storable (hashed_text e) = true /\ scalar_text (data_text e) = false.
Proof.
  intros H.
  destruct (storable (hashed_text e)) eqn:S.
  - split; [reflexivity|].
    destruct (scalar_text (data_text e)) eqn:T; [|reflexivity].
    rewrite (check_entry_scalar p e S T) in H. discriminate H.
  - exfalso. unfold storable, hashed_text in S.
    unfold check_entry, create_data_hash in H.
    destruct (utf8_encode _) as [b|x]; [discriminate S|]. discriminate H.
Qed.

Lemma loop_returns l : forall p out,
  verify_loop l p [] = Ok out ->
  List.existsb (fun r => scalar_text (data_text r)) l = false
  /\ Forall (fun r => storable (hashed_text r) = true) l
  /\ Forall (fun i => In (entry_id i) (List.map id l)) out
  /\ (List.length out <= 3 * List.length l)%nat.
Proof.
  induction l as [|e l IH]; intros p out H.
  - cbn in H. apply Ok_inj in H. subst out.
    repeat split; [constructor | constructor | cbn; lia].
  - rewrite verify_loop_cons in H.
    apply bind_ok in H. destruct H as (c & C & H).
    apply bind_ok in H. destruct H as (r & R & H). apply Ok_inj in H. subst out.
    destruct (check_entry_returns p e c C) as [S T].
    destruct (IH _ _ R) as (X & Ss & I & L).
    split; [| split; [| split]].
    + cbn [List.existsb]. rewrite T, X. reflexivity.
    + constructor; assumption.
    + apply Forall_app. split.
      * eapply Forall_impl; [| exact (check_entry_ids p e c C)].
        intros i Hi. left. symmetry. exact Hi.
      * eapply Forall_impl; [| exact I]. intros i Hi. right. exact Hi.
    + rewrite List.length_app. assert (Lc := check_entry_length p e c C).
      cbn [List.length]. lia.
Qed.

Lemma existsb_perm {A} (f : A -> bool) l l' :
  Permutation l l' -> List.existsb f l = List.existsb f l'.
Proof.
  intros P. destruct (List.existsb f l') eqn:E.
  - apply List.existsb_exists in E. destruct E as (x & I & F).
    apply List.existsb_exists. exists x. split; [|exact F].
    eapply Permutation_in; [apply Permutation_sym; exact P | exact I].
  - destruct (List.existsb f l) eqn:E'; [|reflexivity].
    apply List.existsb_exists in E'. destruct E' as (x & I & F).
    assert (T : List.existsb f l' = true).
    { apply List.existsb_exists. exists x. split; [|exact F].
      eapply Permutation_in; [exact P | exact I]. }
    congruence.
Qed.

(** X8. A stored text that decodes to a bare number, boolean or null,
    in any row, makes [verify_ledger] raise. A report that [verify_ledger]
    returns was made on a table without such a text and whose hashed texts
    all have a UTF-8 encoding; it names rows of the table only and holds at
    most three inconsistencies for each row. *)
Theorem verify_ledger_returns (db : table) :
  (List.existsb (fun r => scalar_text (data_text r)) db = true ->
   exists x, fst (verify_ledger db) = Raise x)
  /\ (forall out,
        fst (verify_ledger db) = Ok out ->
        List.existsb (fun r => scalar_text (data_text r)) db = false
        /\ Forall (fun r => storable (hashed_text r) = true) db
        /\ Forall (fun i => In (entry_id i) (List.map id db)) out
        /\ (List.length out <= 3 * List.length db)%nat).
Proof.
  assert (P := asc_perm db).
  assert (R : forall out,
             fst (verify_ledger db) = Ok out ->
             List.existsb (fun r => scalar_text (data_text r)) db = false
             /\ Forall (fun r => storable (hashed_text r) = true) db
             /\ Forall (fun i => In (entry_id i) (List.map id db)) out
             /\ (List.length out <= 3 * List.length db)%nat).
  { intros out H. rewrite verify_ledger_loop in H.
    destruct (loop_returns _ _ _ H) as (X & S & I & L).
    split; [| split; [| split]].
    - rewrite <- (existsb_perm _ _ _ P). exact X.
    - eapply Permutation_Forall; [exact P | exact S].
    - eapply Forall_impl; [| exact I]. intros i Hi.
      eapply Permutation_in; [apply Permutation_map; exact P | exact Hi].
    - rewrite <- (Permutation_length P). exact L. }
  split; [| exact R].
  intros X. destruct (fst (verify_ledger db)) as [out|x] eqn:V; [| eauto].
  destruct (R out eq_refl) as (X' & _). rewrite X in X'. discriminate X'.
Qed.

(** *** Callers that overlap *)

Lemma rows_sound_step p e db actor action payload message out db' :
  rows_sound db ->
  append_with p e db actor action payload message = (out, db') ->
  rows_sound db'.
Proof.
  intros [Hid Hh Ht Hu] H. destruct out as [h|x].
  - apply append_with_ok in H. destruct H as (text & D & C & F & U & ->).
    constructor.
    + rewrite List.map_app, List.length_app, Nat.add_comm. cbn [List.length Nat.add].
      rewrite List.seq_S, List.map_app, <- Hid. cbn [List.map id].
      rewrite (next_id_seq db Hid). reflexivity.
    + apply Forall_app. split; [exact Hh|]. constructor; [|constructor]. exact C.
    + apply Forall_app. split; [exact Ht|]. constructor; [|constructor].
      exists payload, message. exact D.
    + rewrite List.map_app. cbn [List.map data_hash].
      apply Permutation_NoDup with (l := h :: List.map data_hash db).
      * apply Permutation_cons_append.
      * constructor; [apply existsb_hash_false; exact U | exact Hu].
  - apply append_with_raise in H. subst. constructor; assumption.
Qed.

Lemma rows_sound_run schedule : forall ts db,
  rows_sound db -> rows_sound (snd (run schedule ts db)).
Proof.
  induction schedule as [|i rest IH]; intros ts db S; [exact S|].
  cbn [run]. destruct (List.nth_error ts i) as [t|]; [|apply IH; exact S].
  destruct t as [r|r p|out]; cbn [step_thread].
  - apply IH. exact S.
  - destruct (append_with p (rq_env r) db (rq_actor r) (rq_action r)
                (rq_payload r) (rq_message r)) as [out db'] eqn:A.
    apply IH. eapply rows_sound_step; eassumption.
  - apply IH. exact S.
Qed.

Lemma loop_links_only l :
  Forall (fun r => recompute r = Ok (data_hash r)) l -> Forall text_ok l ->
  forall p, exists out,
    verify_loop l p [] = Ok out
    /\ Forall (fun i => is_prev_hash_mismatch i = true) out.
Proof.
  induction 1 as [|e l He _ IH]; intros T p.
  - exists []. split; [reflexivity | constructor].
  - inversion T as [|? ? Te Tl]; subst.
    destruct (IH Tl (data_hash e)) as (r & R & I).
    rewrite verify_loop_cons, (check_entry_report p e (data_hash e) He Te).
    rewrite str_eqb_refl. cbn [negb List.app bind]. rewrite R. cbn [bind].
    eexists. split; [reflexivity|].
    apply Forall_app. split; [|exact I].
    destruct (negb (str_eqb (prev_hash e) p)); repeat constructor.
Qed.

(** X17. Whatever the order in which the reads and the commits of
    concurrent callers run, starting from the empty table, the rows are
    numbered from 1 without gaps, each carries the digest of its own
    columns, the digests are pairwise distinct, and [verify_ledger] returns
    a report that holds [prev_hash_mismatch] entries only: overlapping
    calls can break the links of the chain and nothing else. *)
Theorem races_break_links_only (schedule : list nat) (ts : list thread) :
  let db := snd (run schedule ts []) in
  List.map id db = List.map Z.of_nat (List.seq 1 (List.length db))
  /\ Forall (fun r => recompute r = Ok (data_hash r)) db
  /\ NoDup (List.map data_hash db)
  /\ exists out,
       fst (verify_ledger db) = Ok out
       /\ Forall (fun i => is_prev_hash_mismatch i = true) out.
Proof.
  intros db.
  assert (S : rows_sound db).
  { apply rows_sound_run. constructor; cbn; constructor. }
  destruct S as [Hid Hh Ht Hu].
  split; [exact Hid|]. split; [exact Hh|]. split; [exact Hu|].
  rewrite (verify_increasing db (seq_ids_increasing db Hid)).
  apply loop_links_only; [exact Hh|].
  eapply Forall_impl; [| exact Ht]. intros r. apply enveloped_text_ok.
Qed.

(** ** Statistics *)

Lemma str_eqb_sym a b : str_eqb a b = str_eqb b a.
Proof.
  destruct (str_eqb a b) eqn:E.
  - apply str_eqb_eq in E. subst. symmetry. apply str_eqb_refl.
  - symmetry. apply str_eqb_neq. apply str_eqb_neq in E. congruence.
Qed.

Lemma dict_get_count_group tag t g :
  dict_get tag (count_group t g)
  = if str_eqb t tag then Some (count_of tag g + 1)%Z else dict_get tag g.
Proof.
  unfold count_of. induction g as [|[k n] g IH]; cbn [count_group dict_get].
  - destruct (str_eqb t tag); reflexivity.
  - destruct (str_eqb k t) eqn:Ekt; cbn [dict_get].
    + apply str_eqb_eq in Ekt. subst k. destruct (str_eqb t tag); reflexivity.
    + destruct (str_eqb k tag) eqn:Ek.
      * apply str_eqb_eq in Ek. subst k. rewrite (str_eqb_sym t tag), Ekt. reflexivity.
      * exact IH.
Qed.

Lemma dict_get_none {A} k (d : list (str * A)) :
  dict_get k d = None <-> ~ In k (List.map fst d).
Proof.
  induction d as [|[k' v] d IH]; cbn [dict_get List.map fst].
  - split; [intros _ [] | reflexivity].
  - destruct (str_eqb k' k) eqn:E.
    + apply str_eqb_eq in E. split; [discriminate | intros H; exfalso; apply H; left; exact E].
    + apply str_eqb_neq in E. rewrite IH. split.
      * intros H [K | K]; [exact (E K) | exact (H K)].
      * intros H K. apply H. right. exact K.
Qed.

Lemma keys_count_group t g :
  NoDup (List.map fst g) -> NoDup (List.map fst (count_group t g)).
Proof.
  induction g as [|[k n] g IH]; cbn [count_group List.map fst]; intros N.
  - repeat constructor. intros [].
  - inversion N as [|? ? Hk N']; subst.
    destruct (str_eqb k t) eqn:E; cbn [List.map fst]; [exact N|].
    constructor; [| apply IH; exact N'].
    intros I. apply str_eqb_neq in E.
    assert (G : dict_get k (count_group t g) <> None).
    { intros G. apply dict_get_none in G. exact (G I). }
    rewrite dict_get_count_group in G.
    replace (str_eqb t k) with false in G
      by (symmetry; apply str_eqb_neq; congruence).
    apply G. apply dict_get_none. exact Hk.
Qed.

Lemma sum_count_group t g : sum_counts (count_group t g) = (sum_counts g + 1)%Z.
Proof.
  unfold sum_counts. induction g as [|[k n] g IH]; cbn [count_group List.fold_right snd].
  - lia.
  - destruct (str_eqb k t); cbn [List.fold_right snd]; [lia|].
    fold sum_counts in *. rewrite IH. lia.
Qed.

Lemma group_snoc db r :
  group_by_action_type (db ++ [r])
  = count_group (action_type r) (group_by_action_type db).
Proof. unfold group_by_action_type. rewrite List.fold_left_app. reflexivity. Qed.

Lemma tag_count_snoc tag db r :
  tag_count tag (db ++ [r])
  = (tag_count tag db + if str_eqb (action_type r) tag then 1 else 0)%Z.
Proof.
  unfold tag_count. rewrite List.filter_app, List.length_app. cbn [List.filter].
  destruct (str_eqb (action_type r) tag); cbn [List.length]; lia.
Qed.

Lemma tag_count_nonneg tag db : (0 <= tag_count tag db)%Z.
Proof. unfold tag_count. lia. Qed.

Lemma group_spec db :
  NoDup (List.map fst (group_by_action_type db))
  /\ sum_counts (group_by_action_type db) = Z.of_nat (List.length db)
  /\ forall tag,
       dict_get tag (group_by_action_type db)
       = if Z.eqb (tag_count tag db) 0 then None else Some (tag_count tag db).
Proof.
  induction db as [|r db IH] using List.rev_ind.
  - split; [constructor|]. split; reflexivity.
  - destruct IH as (N & S & G). rewrite group_snoc. split; [| split].
    + apply keys_count_group. exact N.
    + rewrite sum_count_group, S, List.length_app. cbn [List.length]. lia.
    + intros tag. rewrite dict_get_count_group, tag_count_snoc.
      unfold count_of. rewrite (G tag).
      assert (P := tag_count_nonneg tag db).
      destruct (str_eqb (action_type r) tag).
      * destruct (Z.eqb_spec (tag_count tag db) 0) as [-> | _];
          [reflexivity|].
        destruct (Z.eqb_spec (tag_count tag db + 1) 0); [lia | reflexivity].
      * rewrite Z.add_0_r. reflexivity.
Qed.

Lemma dict_set_fresh {A} k (v : A) d :
  ~ In k (List.map fst d) -> dict_set k v d = d ++ [(k, v)].
Proof.
  induction d as [|[k' v'] d IH]; cbn [dict_set List.map fst List.app]; intros H.
  - reflexivity.
  - destruct (str_eqb k' k) eqn:E.
    + apply str_eqb_eq in E. exfalso. apply H. left. exact E.
    + rewrite IH; [reflexivity|]. intros I. apply H. right. exact I.
Qed.

Lemma dict_fill {A} (g : list (str * A)) : forall acc,
  NoDup (List.map fst (acc ++ g)) ->
  List.fold_left (fun d kv => dict_set (fst kv) (snd kv) d) g acc = acc ++ g.
Proof.
  induction g as [|[k v] g IH]; intros acc N; cbn [List.fold_left fst snd].
  - rewrite List.app_nil_r. reflexivity.
  - rewrite dict_set_fresh.
    + rewrite IH; rewrite <- List.app_assoc; [reflexivity | exact N].
    + rewrite List.map_app in N. cbn [List.map fst] in N.
      apply NoDup_remove_2 in N. intros I. apply N. apply List.in_or_app. left. exact I.
Qed.

Lemma stats_counts db :
  stats_action_counts (fst (get_ledger_stats db)) = group_by_action_type db.
Proof.
  unfold get_ledger_stats. cbn [fst stats_action_counts].
  apply (dict_fill (group_by_action_type db) []). apply group_spec.
Qed.

(** X9. [get_ledger_stats] writes nothing; [total_entries] is the number of
    rows; [action_counts] has one key for each tag that occurs, holding the
    number of rows with that tag, and no other key, so its values add up
    to [total_entries]; [last_hash] is what [get_last_hash] returns; the
    two times are [None] exactly on the empty table. *)
Theorem stats_totals (db : table) :
  let s := fst (get_ledger_stats db) in
  snd (get_ledger_stats db) = db
  /\ stats_total_entries s = Z.of_nat (List.length db)
  /\ (forall tag,
        dict_get tag (stats_action_counts s)
        = if Z.eqb (tag_count tag db) 0 then None else Some (tag_count tag db))
  /\ NoDup (List.map fst (stats_action_counts s))
  /\ sum_counts (stats_action_counts s) = stats_total_entries s
  /\ stats_last_hash s = get_last_hash db
  /\ (stats_first_entry_time s = None <-> db = [])
  /\ (stats_last_entry_time s = None <-> db = []).
Proof.
  intros s. destruct (group_spec db) as (N & S & G).
  split; [reflexivity|]. split; [reflexivity|].
  subst s. rewrite stats_counts.
  split; [exact G|]. split; [exact N|]. split; [exact S|].
  unfold get_ledger_stats, get_last_hash. cbn [fst stats_last_hash
    stats_first_entry_time stats_last_entry_time].
  assert (Pa := asc_perm db). assert (Pd := desc_perm db).
  split; [| split].
  - destruct (order_by_id_desc db); reflexivity.
  - destruct (order_by_id_asc db) as [|x l]; cbn [first].
    + apply Permutation_nil in Pa. subst. split; reflexivity.
    + split; [discriminate|]. intros ->. apply Permutation_sym, Permutation_nil in Pa.
      discriminate.
  - destruct (order_by_id_desc db) as [|x l]; cbn [first].
    + apply Permutation_nil in Pd. subst. split; reflexivity.
    + split; [discriminate|]. intros ->. apply Permutation_sym, Permutation_nil in Pd.
      discriminate.
Qed.

(** X10. After a successful call of [add_ledger_entry] on a table whose
    keys are above zero and below 2^63 - 1, the statistics show one entry
    more, the digest returned as [last_hash], the timestamp of
    the call as [last_entry_time], the count of the call's action type
    raised by one and every other count as before; [first_entry_time] is
    unchanged unless the table was empty. *)
Theorem stats_after_append (e : env) (db : table) (actor : option Z)
    (action : str) (payload : pyval) (message h : str) (db' : table) :
  rowids_ok db ->
  add_ledger_entry e db actor action payload message = (Ok h, db') ->
  let s := fst (get_ledger_stats db) in
  let s' := fst (get_ledger_stats db') in
  stats_total_entries s' = (stats_total_entries s + 1)%Z
  /\ stats_last_hash s' = h
  /\ stats_last_entry_time s' = Some (utcnow e ++ lit "Z")
  /\ stats_first_entry_time s'
     = match stats_first_entry_time s with
       | Some t => Some t
       | None => Some (utcnow e ++ lit "Z")
       end
  /\ forall tag,
       dict_get tag (stats_action_counts s')
       = if str_eqb action tag
         then Some (count_of tag (stats_action_counts s) + 1)%Z
         else dict_get tag (stats_action_counts s).
Proof.
  intros _ H s s'. apply add_ledger_entry_ok in H.
  destruct H as (text & _ & _ & _ & _ & ->).
  set (row := new_row e db actor action text h) in *.
  assert (A := next_id_above db).
  subst s s'. rewrite !stats_counts, group_snoc.
  unfold get_ledger_stats. cbn [fst stats_total_entries stats_last_hash
    stats_last_entry_time stats_first_entry_time].
  rewrite (desc_app_last db row A), (asc_app_last db row A). cbn [first].
  split; [unfold count_rows; rewrite List.length_app; cbn [List.length]; lia|].
  split; [reflexivity|]. split; [reflexivity|]. split.
  - destruct (order_by_id_asc db); reflexivity.
  - intros tag. apply dict_get_count_group.
Qed.

Lemma stats_after_append_witness :
  rowids_ok chain1
  /\ stats_total_entries (fst (get_ledger_stats chain2)) = 2%Z
  /\ stats_last_hash (fst (get_ledger_stats chain2)) = hash_of after2.
Proof.
  split; [exact rowids_ok_chain1|].
  destruct (stats_after_append (env_at "2024-03-01T09:30:00.000500") chain1 (Some 2%Z)
              (lit "expense") cost (lit "Expense: Fuel") (hash_of after2) chain2
              rowids_ok_chain1 ltac:(vm_compute; reflexivity))
    as (T & L & _).
  split; [rewrite T; reflexivity | exact L].
Defined.

(** ** The range of an export *)

Lemma filter_both {A} (f g : A -> bool) l :
  List.filter g (List.filter f l) = List.filter (fun x => f x && g x) l.
Proof.
  induction l as [|x l IH]; [reflexivity|]. cbn [List.filter].
  destruct (f x); cbn [List.filter andb]; [destruct (g x)|]; rewrite IH; reflexivity.
Qed.

Lemma filter_all {A} (l : list A) : List.filter (fun _ => true) l = l.
Proof. induction l as [|x l IH]; [reflexivity|]. cbn [List.filter]. rewrite IH. reflexivity. Qed.

Lemma proof_rows_filter s e db :
  proof_rows s e db = List.filter (in_range s e) (order_by_id_asc db).
Proof.
  unfold proof_rows, in_range.
  destruct s as [[|c s]|], e as [[|c' e]|]; cbn [truthy andb];
    rewrite ?filter_both; try (rewrite filter_all; reflexivity);
    apply List.filter_ext; intros r; rewrite ?andb_true_r; reflexivity.
Qed.

Lemma sorted_filter {A} (R : A -> A -> Prop) f l :
  StronglySorted R l -> StronglySorted R (List.filter f l).
Proof.
  induction 1 as [|x l S IH F]; cbn [List.filter]; [constructor|].
  destruct (f x); [|exact IH]. constructor; [exact IH|].
  apply Forall_forall. intros y Hy. apply List.filter_In in Hy.
  rewrite Forall_forall in F. apply F. apply Hy.
Qed.

(** X11. The rows [export_ledger_proof] selects are, in ascending id
    order, the rows whose timestamp lies within the two bounds as texts
    compare, a bound that is [None] or empty being no bound. With bounds
    that have a UTF-8 encoding the call returns a proof that records that
    list, its length, the two bounds and the time of the export; with a
    bound that has none it raises. *)
Theorem export_selects_range (now : str) (s e : option str) (db : table) :
  let rows := proof_rows s e db in
  rows = List.filter (in_range s e) (order_by_id_asc db)
  /\ (forall r, In r rows <-> In r db /\ in_range s e r = true)
  /\ StronglySorted (fun a b => (id a <= id b)%Z) rows
  /\ (bound_binds s = true -> bound_binds e = true ->
      exists proof,
        fst (export_ledger_proof now s e db) = Ok proof
        /\ item "entries" proof = Some (PList (List.map proof_entry rows))
        /\ item "total_entries" proof = Some (PInt (Z.of_nat (List.length rows)))
        /\ item "filter_start_date" proof = Some (opt_str s)
        /\ item "filter_end_date" proof = Some (opt_str e)
        /\ item "export_timestamp" proof = Some (PStr (now ++ lit "Z")))
  /\ (bound_binds s && bound_binds e = false ->
      exists x, export_ledger_proof now s e db = (Raise x, db)).
Proof.
  intros rows. assert (E := proof_rows_filter s e db). fold rows in E.
  split; [exact E|]. split; [| split; [| split]].
  - intros r. rewrite E, List.filter_In. split; intros [I R]; (split; [|exact R]).
    + eapply Permutation_in; [apply asc_perm | exact I].
    + eapply Permutation_in; [apply Permutation_sym, asc_perm | exact I].
  - rewrite E. apply sorted_filter, asc_sorted.
  - intros Bs Be.
    destruct (export_ledger_proof_bound now s e db Bs Be) as (h & _ & P).
    rewrite P. cbn [fst]. fold rows.
    eexists. split; [reflexivity|]. repeat split; reflexivity.
  - intros B. exists UnicodeEncodeError. apply export_ledger_proof_refused. exact B.
Qed.

Lemma str_leb_prefix p a b : str_leb (p ++ a) (p ++ b) = str_leb a b.
Proof.
  induction p as [|c p IH]; [reflexivity|]. cbn [List.app str_leb].
  rewrite N.ltb_irrefl, N.eqb_refl, IH. reflexivity.
Qed.

Lemma in_range_day (d t : str) (r : Ledger) :
  timestamp r = d ++ t ->
  in_range (start_iso (Some d)) (end_iso (Some d)) r
  = str_leb (lit "T00:00:00Z") t && str_leb t (lit "T23:59:59Z").
Proof.
  intros T. unfold in_range, start_iso, end_iso. rewrite T.
  rewrite <- (str_leb_prefix d (lit "T00:00:00Z") t).
  rewrite <- (str_leb_prefix d t (lit "T23:59:59Z")).
  destruct d as [|c d]; reflexivity.
Qed.

(** X12. An export by days runs from the text of the first day followed by
    T00:00:00Z to the text of the last day followed by T23:59:59Z, and the
    timestamps are compared as texts. For an export of the single day [d]:
    an entry stamped in the first second of [d] with a fraction of a second
    is left out, while an entry stamped at that second without a fraction,
    and an entry stamped in the last second of [d] with a fraction, are
    exported. *)
Theorem day_range_bounds (db : table) (d f : str) (r : Ledger) :
  In r db ->
  let rows := proof_rows (start_iso (Some d)) (end_iso (Some d)) db in
  (timestamp r = d ++ lit "T00:00:00." ++ f ++ lit "Z" -> ~ In r rows)
  /\ (timestamp r = d ++ lit "T00:00:00Z" -> In r rows)
  /\ (timestamp r = d ++ lit "T23:59:59." ++ f ++ lit "Z" -> In r rows).
Proof.
  intros I rows.
  assert (K : forall t, timestamp r = d ++ t ->
                (In r rows <->
                 str_leb (lit "T00:00:00Z") t && str_leb t (lit "T23:59:59Z") = true)).
  { intros t T. subst rows. rewrite proof_rows_filter, List.filter_In.
    rewrite (in_range_day d t r T). split; [intros [_ H]; exact H|].
    intros H. split; [|exact H].
    eapply Permutation_in; [apply Permutation_sym, asc_perm | exact I]. }
  split; [| split]; intros T; apply K in T.
  - intros H. apply T in H. discriminate H.
  - apply T. reflexivity.
  - apply T. reflexivity.
Qed.

Lemma day_range_bounds_witness :
  In midnight_entry midnight
  /\ ~ In midnight_entry
       (proof_rows (start_iso (Some (lit "2024-03-02"))) (end_iso (Some (lit "2024-03-02")))
          midnight).
Proof.
  assert (I : In midnight_entry midnight) by (right; left; reflexivity).
  split; [exact I|].
  apply (proj1 (day_range_bounds midnight (lit "2024-03-02") (lit "000250")
                  midnight_entry I)).
  reflexivity.
Defined.

(** ** Pages of a query *)

Lemma firstn_pages {A} a b : forall l : list A,
  List.firstn a l ++ List.firstn b (List.skipn a l) = List.firstn (a + b) l.
Proof.
  induction a as [|a IH]; intros l; [reflexivity|].
  destruct l as [|x l]; cbn [List.firstn List.skipn Nat.add List.app].
  - destruct b; reflexivity.
  - rewrite IH. reflexivity.
Qed.

Lemma query_binds_ints limit offset tag actor :
  binds_int limit = true -> binds_int offset = true ->
  query_binds limit offset tag actor = query_binds 0 0 tag actor.
Proof.
  intros L O. unfold query_binds. rewrite L, O. reflexivity.
Qed.

Lemma binds_int_range z : (0 <= z < 2 ^ 63)%Z -> binds_int z = true.
Proof.
  intros H. unfold binds_int. apply andb_true_intro.
  split; [apply Z.leb_le | apply Z.ltb_lt]; lia.
Qed.

(** X13. Consecutive pages of [get_ledger_entries] join without a gap and
    without a repeat: for offsets and limits that are not negative and
    whose sum stays below 2^63, the page of [l1] entries at [offset]
    followed by the page of [l2] entries at [offset + l1] is the page of
    [l1 + l2] entries at [offset]. *)
Theorem pagination_pages_join (l1 l2 offset : Z) (tag : option str)
    (actor : option Z) (db : table) :
  (0 <= offset)%Z -> (0 <= l1)%Z -> (0 <= l2)%Z ->
  (offset + l1 + l2 < 2 ^ 63)%Z ->
  fst (get_ledger_entries l1 offset tag actor db)
  ++ fst (get_ledger_entries l2 (offset + l1) tag actor db)
  = fst (get_ledger_entries (l1 + l2) offset tag actor db).
Proof.
  intros Ho H1 H2 Hs.
  assert (Q1 : query_binds l1 offset tag actor = query_binds 0 0 tag actor)
    by (apply query_binds_ints; apply binds_int_range; lia).
  assert (Q2 : query_binds l2 (offset + l1) tag actor = query_binds 0 0 tag actor)
    by (apply query_binds_ints; apply binds_int_range; lia).
  assert (Q3 : query_binds (l1 + l2) offset tag actor = query_binds 0 0 tag actor)
    by (apply query_binds_ints; apply binds_int_range; lia).
  destruct (query_binds 0 0 tag actor) eqn:Q.
  - rewrite !get_ledger_entries_bound by assumption. cbn [fst].
    unfold offset_limit.
    replace (Z.ltb l1 0) with false by (symmetry; apply Z.ltb_ge; lia).
    replace (Z.ltb l2 0) with false by (symmetry; apply Z.ltb_ge; lia).
    replace (Z.ltb (l1 + l2) 0) with false by (symmetry; apply Z.ltb_ge; lia).
    rewrite !Z2Nat.inj_add by lia.
    rewrite (Nat.add_comm (Z.to_nat offset)), <- List.skipn_skipn.
    apply firstn_pages.
  - rewrite !get_ledger_entries_refused by assumption. reflexivity.
Qed.

Lemma pagination_pages_join_witness :
  fst (get_ledger_entries 1 0 None None chain3)
  ++ fst (get_ledger_entries 1 1 None None chain3)
  = fst (get_ledger_entries 2 0 None None chain3).
Proof.
  exact (pagination_pages_join 1 1 0 None None chain3
           ltac:(lia) ltac:(lia) ltac:(lia) ltac:(lia)).
Defined.

(** ** The convenience loggers *)

(** X14. An entry written by [log_system_event] to a table whose keys are
    above zero and below 2^63 - 1 has no actor and the action type
    system_event; it is the first entry a query for that action type
    returns, no query for an actor returns it, and its stored text decodes
    to an envelope whose message names the event type. *)
Theorem system_event_logged (e : env) (db : table) (event_type : str)
    (event_data : list (pykey * pyval)) (h : str) (db' : table) :
  rowids_ok db ->
  log_system_event e db event_type event_data = (Ok h, db') ->
  exists row jp,
    db' = db ++ [row]
    /\ actor_id row = None
    /\ action_type row = lit "system_event"
    /\ data_hash row = h
    /\ fst (get_ledger_entries 1 0 (Some (lit "system_event")) None db') = [row]
    /\ (forall limit offset tag a, (0 < a)%Z ->
          ~ In row (fst (get_ledger_entries limit offset tag (Some a) db')))
    /\ to_json (PDict (dict_with_first (lit "event_type") (PStr event_type) event_data))
       = Ok jp
    /\ json_loads (data_text row)
       = Some (JObject
                 [ (lit "action_type", JString (lit "system_event"));
                   (lit "human_message",
                      JString (decoded (lit "System event: " ++ event_type)));
                   (lit "payload", norm jp);
                   (lit "timestamp", JString (decoded (utcnow e ++ lit "Z"))) ]).
Proof.
  unfold log_system_event. intros _ H. apply stored_envelope in H.
  destruct H as (text & jp & -> & Hp & L).
  set (row := new_row e db None (lit "system_event") text h).
  exists row, jp. split; [reflexivity|]. do 3 (split; [reflexivity|]).
  assert (A := next_id_above db).
  split; [| split; [| split; [exact Hp | exact L]]].
  - rewrite (get_ledger_entries_bound 1 0 (Some (lit "system_event")) None _ eq_refl).
    cbn [fst]. rewrite (desc_app_last db row A). reflexivity.
  - intros limit offset tag a Ha I. apply get_ledger_entries_incl in I.
    apply List.filter_In in I. destruct I as [_ I].
    unfold actor_filter in I. cbn [actor_id row new_row] in I.
    replace (negb (Z.eqb a 0) && Z.ltb 0 a) with true in I; [discriminate|].
    symmetry. apply andb_true_iff. split.
    + apply negb_true_iff. apply Z.eqb_neq. lia.
    + apply Z.ltb_lt. exact Ha.
Qed.

Lemma system_event_logged_witness :
  rowids_ok chain1
  /\ exists row,
       snd event_call = chain1 ++ [row]
       /\ actor_id row = None
       /\ fst (get_ledger_entries 1 0 (Some (lit "system_event")) None (snd event_call))
          = [row].
Proof.
  split; [exact rowids_ok_chain1|].
  destruct (system_event_logged (env_at "2024-03-01T11:00:00") chain1 (lit "backup")
              [(key "files", PInt 3); (key "event_type", PStr (lit "nightly"))]
              (hash_of event_call) (snd event_call) rowids_ok_chain1
              ltac:(vm_compute; reflexivity))
    as (row & jp & E & A & _ & _ & Q & _).
  exists row. split; [exact E|]. split; [exact A | exact Q].
Defined.

(** X15. An entry written by [log_user_action] to a table whose keys are
    above zero and below 2^63 - 1 carries the actor given and the action
    type user_action, its digest is what [get_last_hash] returns next, and
    its stored text decodes to an envelope whose payload holds the action
    and the details and whose message names the action. *)
Theorem user_action_logged (e : env) (db : table) (actor : option Z)
    (action : str) (details : pyval) (h : str) (db' : table) :
  rowids_ok db ->
  log_user_action e db actor action details = (Ok h, db') ->
  exists row jd,
    db' = db ++ [row]
    /\ actor_id row = actor
    /\ action_type row = lit "user_action"
    /\ data_hash row = h
    /\ get_last_hash db' = h
    /\ to_json details = Ok jd
    /\ json_loads (data_text row)
       = Some (JObject
                 [ (lit "action_type", JString (lit "user_action"));
                   (lit "human_message",
                      JString (decoded (lit "User action: " ++ action)));
                   (lit "payload",
                      JObject [ (lit "action", JString (decoded action));
                                (lit "details", norm jd) ]);
                   (lit "timestamp", JString (decoded (utcnow e ++ lit "Z"))) ]).
Proof.
  unfold log_user_action. intros _ H. apply stored_envelope in H.
  destruct H as (text & jp & -> & Hp & L).
  rewrite to_json_PDict in Hp. cbn [to_json_items key] in Hp.
  apply bind_ok in Hp. destruct Hp as (kjs & Hk & Hp).
  apply bind_ok in Hk. destruct Hk as (ja & Ha & Hk). apply Ok_inj in Ha. subst ja.
  apply bind_ok in Hk. destruct Hk as (r & Hr & Hk).
  apply bind_ok in Hr. destruct Hr as (jd & Hd & Hr).
  apply Ok_inj in Hr. subst r. apply Ok_inj in Hk. subst kjs.
  apply Ok_inj in Hp. subst jp.
  set (row := new_row e db actor (lit "user_action") text h).
  exists row, jd. split; [reflexivity|]. do 3 (split; [reflexivity|]).
  split; [| split; [exact Hd | exact L]].
  unfold get_last_hash. rewrite (desc_app_last db row (next_id_above db)). reflexivity.
Qed.

Lemma user_action_logged_witness :
  rowids_ok chain1
  /\ exists row, snd user_call = chain1 ++ [row] /\ actor_id row = Some 1%Z.
Proof.
  split; [exact rowids_ok_chain1|].
  destruct (user_action_logged (env_at "2024-03-01T11:05:00.120000") chain1 (Some 1%Z)
              (lit "create_user") (PDict [(key "username", PStr (lit "ana"))])
              (hash_of user_call) (snd user_call) rowids_ok_chain1
              ltac:(vm_compute; reflexivity))
    as (row & jd & E & A & _).
  exists row. split; [exact E | exact A].
Defined.

(** ** Who may open the ledger page *)

(** X16. [get_user_permissions] grants the ledger page, the data export,
    the management of users and the settings to the role admin and to no
    other role; a role that is neither admin nor staff, known or not,
    gets the permissions of public, which allow reports only. *)
Theorem ledger_admin_only (role : str) :
  let p := get_user_permissions role in
  (can_view_ledger p = true <-> role = lit "admin")
  /\ (can_export_data p = true <-> role = lit "admin")
  /\ (can_manage_users p = true <-> role = lit "admin")
  /\ (can_manage_settings p = true <-> role = lit "admin")
  /\ (role <> lit "admin" -> role <> lit "staff" -> p = public_permissions)
  /\ can_view_reports p = true.
Proof.
  intros p. subst p. unfold get_user_permissions, permissions. cbn [dict_get].
  destruct (str_eqb (lit "admin") role) eqn:A.
  - apply str_eqb_eq in A. subst role.
    repeat split; try reflexivity; try congruence.
  - apply str_eqb_neq in A.
    destruct (str_eqb (lit "staff") role) eqn:S.
    + apply str_eqb_eq in S. subst role.
      repeat split; try reflexivity; try congruence; try discriminate.
    + destruct (str_eqb (lit "public") role);
        repeat split; try reflexivity; try congruence; try discriminate.
Qed.

(** ** The CSV export *)

Lemma special_cases c :
  csv_special c = false -> (c =? 13) = false /\ (c =? 34) = false
                           /\ (c =? 44) = false /\ (c =? 10) = false.
Proof.
  unfold csv_special. intros H.
  apply orb_false_iff in H. destruct H as [H D].
  apply orb_false_iff in H. destruct H as [H C].
  apply orb_false_iff in H. destruct H as [A B]. auto.
Qed.

Lemma run_plain f : forall fld row rows t,
  List.existsb csv_special f = false ->
  csv_run InPlain fld row rows (f ++ t) = csv_run InPlain (List.rev f ++ fld) row rows t.
Proof.
  induction f as [|c f IH]; intros fld row rows t H; [reflexivity|].
  cbn [List.existsb] in H. apply orb_false_iff in H. destruct H as [Hc Hf].
  destruct (special_cases c Hc) as (A & B & C & D).
  cbn [List.app csv_run]. rewrite A, B, C, D. cbn [orb].
  rewrite IH by exact Hf. cbn [List.rev]. rewrite <- List.app_assoc. reflexivity.
Qed.

Lemma run_quoted f : forall fld row rows t,
  csv_run InQuoted fld row rows (List.flat_map csv_quote f ++ 34 :: t)
  = csv_run QuoteSeen (List.rev f ++ fld) row rows t.
Proof.
  induction f as [|c f IH]; intros fld row rows t; [reflexivity|].
  cbn [List.flat_map List.rev]. rewrite <- !List.app_assoc. unfold csv_quote at 1.
  destruct (c =? 34) eqn:E.
  - apply N.eqb_eq in E. subst c. cbn [List.app csv_run N.eqb Pos.eqb].
    rewrite IH. reflexivity.
  - cbn [List.app csv_run]. rewrite E. rewrite IH. reflexivity.
Qed.

(** A field read from the start of a field, up to the comma or the end of
    the row that follows it. *)
Lemma run_field f row rows t :
  csv_run StartField [] row rows (csv_field f ++ 44 :: t)
  = csv_run StartField [] (f :: row) rows t
  /\ csv_run StartField [] row rows (csv_field f ++ 13 :: 10 :: t)
     = csv_run StartRecord [] [] (List.rev (f :: row) :: rows) t.
Proof.
  unfold csv_field. destruct (List.existsb csv_special f) eqn:S.
  - cbn [List.app csv_run N.eqb Pos.eqb]. rewrite <- !List.app_assoc.
    cbn [List.app]. rewrite !run_quoted, List.app_nil_r.
    cbn [csv_run N.eqb Pos.eqb]. rewrite List.rev_involutive. split; reflexivity.
  - destruct f as [|c f]; [split; reflexivity|].
    cbn [List.existsb] in S. apply orb_false_iff in S. destruct S as [Hc Hf].
    destruct (special_cases c Hc) as (A & B & C & D).
    cbn [List.app csv_run]. rewrite A, B, C, D.
    rewrite !run_plain by exact Hf. cbn [csv_run N.eqb Pos.eqb].
    rewrite List.rev_app_distr, List.rev_involutive. split; reflexivity.
Qed.

Lemma run_fields fields : forall row rows t,
  fields <> [] ->
  csv_run StartField [] row rows (csv_join (List.map csv_field fields) ++ 13 :: 10 :: t)
  = csv_run StartRecord [] [] (List.rev (List.rev fields ++ row) :: rows) t.
Proof.
  induction fields as [|f fields IH]; intros row rows t N; [congruence|].
  destruct fields as [|g fields].
  - cbn [List.map csv_join List.rev List.app]. apply run_field.
  - change (csv_join (List.map csv_field (f :: g :: fields)))
      with (csv_field f ++ 44 :: csv_join (List.map csv_field (g :: fields))).
    rewrite <- List.app_assoc. cbn [List.app].
    rewrite (proj1 (run_field f row rows _)).
    rewrite IH by discriminate.
    change (List.rev (f :: g :: fields)) with (List.rev (g :: fields) ++ [f]).
    rewrite <- List.app_assoc. reflexivity.
Qed.

Lemma start_same c r rows :
  (c =? 13) = false ->
  csv_run StartRecord [] [] rows (c :: r) = csv_run StartField [] [] rows (c :: r).
Proof. intros H. cbn [csv_run]. rewrite H. reflexivity. Qed.

Lemma field_head f x t :
  (x =? 13) = false ->
  exists c r, csv_field f ++ x :: t = c :: r /\ (c =? 13) = false.
Proof.
  intros X. unfold csv_field. destruct (List.existsb csv_special f) eqn:S.
  - eexists _, _. split; [reflexivity | reflexivity].
  - destruct f as [|c f].
    + exists x, t. split; [reflexivity | exact X].
    + cbn [List.existsb] in S. apply orb_false_iff in S. destruct S as [Hc _].
      exists c, (f ++ x :: t). split; [reflexivity | apply (special_cases c Hc)].
Qed.

Lemma run_write_fields fields rows t :
  csv_run StartRecord [] [] rows (write_fields fields ++ t)
  = csv_run StartRecord [] [] (fields :: rows) t.
Proof.
  destruct fields as [|f fields]; [reflexivity|].
  destruct fields as [|g fields].
  - destruct f as [|c f]; [reflexivity|]. unfold write_fields.
    rewrite <- List.app_assoc. cbn [List.app List.map csv_join].
    assert (H : exists h r, csv_field (c :: f) ++ 13 :: 10 :: t = h :: r /\ (h =? 13) = false).
    { unfold csv_field. destruct (List.existsb csv_special (c :: f)) eqn:S.
      - eexists _, _. split; reflexivity.
      - cbn [List.existsb] in S. apply orb_false_iff in S. destruct S as [Hc _].
        exists c, (f ++ 13 :: 10 :: t). split; [reflexivity | apply (special_cases c Hc)]. }
    destruct H as (h & r & E & Hh). rewrite E, (start_same h r rows Hh), <- E.
    apply run_field.
  - assert (W : write_fields (f :: g :: fields)
                = csv_join (List.map csv_field (f :: g :: fields)) ++ [13; 10])
      by (destruct f; reflexivity).
    rewrite W. clear W.
    rewrite <- List.app_assoc. cbn [List.app].
    assert (H : exists h r,
               csv_join (List.map csv_field (f :: g :: fields)) ++ 13 :: 10 :: t = h :: r
               /\ (h =? 13) = false).
    { change (csv_join (List.map csv_field (f :: g :: fields)))
        with (csv_field f ++ 44 :: csv_join (List.map csv_field (g :: fields))).
      rewrite <- List.app_assoc. cbn [List.app]. apply field_head. reflexivity. }
    destruct H as (h & r & E & Hh). rewrite E, (start_same h r rows Hh), <- E.
    rewrite run_fields by discriminate. rewrite List.app_nil_r, List.rev_involutive.
    reflexivity.
Qed.

(** What the writer writes, the reader reads back, row by row and field by
    field. *)
Lemma csv_read_written rowss : forall acc t,
  csv_run StartRecord [] [] acc (List.flat_map write_fields rowss ++ t)
  = csv_run StartRecord [] [] (List.rev rowss ++ acc) t.
Proof.
  induction rowss as [|fields rowss IH]; intros acc t; [reflexivity|].
  cbn [List.flat_map List.rev]. rewrite <- !List.app_assoc.
  rewrite run_write_fields, IH. reflexivity.
Qed.

Lemma csv_bounds_bind c start_date end_date actor db csv db' :
  export_ledger_csv c start_date end_date actor db = (Ok csv, db') ->
  bound_binds (start_iso start_date) = true /\ bound_binds (end_iso end_date) = true.
Proof.
  unfold export_ledger_csv. intros H.
  destruct (bound_binds (start_iso start_date) && bound_binds (end_iso end_date)) eqn:B.
  - apply andb_true_iff in B. exact B.
  - rewrite (export_ledger_proof_refused _ _ _ _ B) in H. discriminate H.
Qed.

Lemma entries_of_proof now s e rows h :
  List.map (fun entry => List.map format (csv_entry entry))
    (entries_of (proof_body now s e rows ++ [(key "proof_hash", PStr h)]))
  = List.map csv_columns rows
  /\ List.length (entries_of (proof_body now s e rows ++ [(key "proof_hash", PStr h)]))
     = List.length rows.
Proof.
  unfold entries_of.
  change (item "entries" (proof_body now s e rows ++ [(key "proof_hash", PStr h)]))
    with (Some (PList (List.map proof_entry rows))).
  induction rows as [|r rows [IH1 IH2]]; [split; reflexivity|].
  cbn [List.map List.flat_map proof_entry List.app List.length].
  rewrite IH1, IH2. split; [|reflexivity]. f_equal.
  unfold csv_columns, actor_ref_or_empty.
  destruct (actor_id r) as [z|]; [|reflexivity].
  cbn. destruct (Z.eqb z 0); reflexivity.
Qed.

Lemma flat_map_write {A} (f : A -> list int_or_str) l :
  List.flat_map (fun x => writerow (f x)) l
  = List.flat_map write_fields (List.map (fun x => List.map format (f x)) l).
Proof.
  induction l as [|x l IH]; [reflexivity|].
  cbn [List.flat_map List.map]. rewrite IH. reflexivity.
Qed.

(** X18. The text [export_ledger_csv] returns reads back as four title
    rows (business name, period, time of generation, proof hash), an empty
    row, the row of column names, and then one row for each exported entry,
    in ascending id order, whose seven fields are the entry's id, timestamp,
    previous hash, data hash, actor id (empty for no actor and for id 0),
    action type and stored text, exactly as stored. *)
Theorem ledger_csv_reads_back (c : report_env) (start_date end_date : option str)
    (actor : option Z) (db : table) (csv : str) (db' : table) :
  export_ledger_csv c start_date end_date actor db = (Ok csv, db') ->
  exists h,
    lower_hex64 h
    /\ csv_read csv
       = Some ([ [config_name c ++ lit " - Ledger Export"];
                 [lit "Period: " ++ date_or_all start_date ++ lit " to "
                  ++ date_or_all end_date];
                 [lit "Generated: " ++ generated c];
                 [lit "Proof Hash: " ++ h];
                 [];
                 [lit "ID"; lit "Timestamp"; lit "Previous Hash"; lit "Data Hash";
                  lit "Actor ID"; lit "Action Type"; lit "Data"] ]
               ++ List.map csv_columns
                    (proof_rows (start_iso start_date) (end_iso end_date) db)).
Proof.
  intros H. destruct (csv_bounds_bind _ _ _ _ _ _ _ H) as [Bs Be].
  unfold export_ledger_csv in H.
  destruct (export_ledger_proof_bound (export_now c) (start_iso start_date)
              (end_iso end_date) db Bs Be) as (h & Hh & E).
  rewrite E in H. cbv zeta in H.
  set (rows := proof_rows (start_iso start_date) (end_iso end_date) db) in *.
  set (proof := proof_body (export_now c) (start_iso start_date) (end_iso end_date) rows
                ++ [(key "proof_hash", PStr h)]) in *.
  destruct (add_ledger_entry _ _ _ _ _ _) as [[d|x] db1]; [|discriminate].
  injection H as Hcsv Hdb. clear Hdb. subst csv.
  exists h. split; [exact Hh|].
  change (item "proof_hash" proof) with (Some (PStr h)).
  cbn [as_field format].
  rewrite flat_map_write. subst proof.
  rewrite (proj1 (entries_of_proof (export_now c) (start_iso start_date)
                    (end_iso end_date) rows h)).
  match goal with
  | |- csv_read ?out = Some (?head ++ ?tail) =>
      replace out with (List.flat_map write_fields (head ++ tail) ++ [])
        by (rewrite List.app_nil_r; reflexivity)
  end.
  unfold csv_read. rewrite csv_read_written. cbn [csv_run].
  rewrite List.app_nil_r, List.rev_involutive. reflexivity.
Qed.

Lemma ledger_csv_reads_back_witness :
  exists csv rows,
    fst csv_call = Ok csv
    /\ csv_read csv = Some rows
    /\ List.nth_error rows 6 = Some (csv_columns entry1).
Proof.
  destruct (ledger_csv_reads_back
              {| config_name := lit "HydroHub Cantilan";
                 generated := lit "2024-03-02 08:00:00.000000+08:00";
                 export_now := lit "2024-03-02T00:00:00.000100";
                 log_env := env_at "2024-03-02T00:00:00.000900" |}
              None None (Some 1%Z) chain1
              (match fst csv_call with Ok t => t | Raise _ => [] end) (snd csv_call)
              ltac:(vm_compute; reflexivity))
    as (h & _ & R).
  eexists. eexists. split; [reflexivity|]. split; [exact R|]. reflexivity.
Defined.

Lemma hex_plain h : lower_hex64 h -> plain_text h.
Proof.
  intros [_ H]. unfold plain_text. eapply Forall_impl; [| exact H].
  intros c Hc. unfold is_lower_hex in Hc.
  assert (B : c < 128).
  { apply orb_true_iff in Hc.
    destruct Hc as [Hc | Hc]; apply andb_true_iff in Hc; destruct Hc as [_ Hc];
      apply N.leb_le in Hc; lia. }
  split; [lia|]. apply orb_true_iff. left. apply N.ltb_lt. lia.
Qed.

(** X19. A call of [export_ledger_csv] that returns a text, on a table
    whose keys are above zero and below 2^63 - 1, has appended one entry to
    the ledger: its action type is export_ledger, its actor
    the caller, it is the new head of the chain, and its stored text
    records the two dates, the number of exported entries, the proof hash
    and the format. The export is therefore not a read: an export of the
    whole ledger made next holds that entry too. *)
Theorem ledger_csv_export_logged (c : report_env) (start_date end_date : option str)
    (actor : option Z) (db : table) (csv : str) (db' : table) :
  rowids_ok db ->
  export_ledger_csv c start_date end_date actor db = (Ok csv, db') ->
  let n := Z.of_nat (List.length (proof_rows (start_iso start_date) (end_iso end_date) db)) in
  exists row h,
    db' = db ++ [row]
    /\ action_type row = lit "export_ledger"
    /\ actor_id row = actor
    /\ get_last_hash db' = data_hash row
    /\ proof_rows None None db' = proof_rows None None db ++ [row]
    /\ lower_hex64 h
    /\ json_loads (data_text row)
       = Some (JObject
                 [ (lit "action_type", JString (lit "export_ledger"));
                   (lit "human_message",
                      JString (decoded (lit "Exported ledger to CSV (" ++ str_of_Z n
                                        ++ lit " entries)")));
                   (lit "payload",
                      JObject [ (lit "end_date", json_date end_date);
                                (lit "entry_count", JNumber (str_of_Z n));
                                (lit "format", JString (lit "CSV"));
                                (lit "proof_hash", JString h);
                                (lit "start_date", json_date start_date) ]);
                   (lit "timestamp",
                      JString (decoded (utcnow (log_env c) ++ lit "Z"))) ]).
Proof.
  intros _ H n. destruct (csv_bounds_bind _ _ _ _ _ _ _ H) as [Bs Be].
  unfold export_ledger_csv in H.
  destruct (export_ledger_proof_bound (export_now c) (start_iso start_date)
              (end_iso end_date) db Bs Be) as (h & Hh & E).
  rewrite E in H. cbv zeta in H.
  set (rows := proof_rows (start_iso start_date) (end_iso end_date) db) in *.
  rewrite (proj2 (entries_of_proof (export_now c) (start_iso start_date)
                    (end_iso end_date) rows h)) in H.
  change (item "proof_hash" (proof_body (export_now c) (start_iso start_date)
                               (end_iso end_date) rows ++ [(key "proof_hash", PStr h)]))
    with (Some (PStr h)) in H.
  fold n in H.
  destruct (add_ledger_entry _ _ _ _ _ _) as [[d|x] db1] eqn:A; [|discriminate].
  injection H as _ Hdb. subst db1.
  apply stored_envelope in A. destruct A as (text & jp & -> & Hp & L).
  set (row := new_row (log_env c) db actor (lit "export_ledger") text d).
  exists row, h.
  assert (Ab := next_id_above db).
  split; [reflexivity|]. split; [reflexivity|]. split; [reflexivity|]. split; [| split; [| split]].
  - unfold get_last_hash. rewrite (desc_app_last db row Ab). reflexivity.
  - unfold proof_rows. cbn [truthy]. apply (asc_app_last db row Ab).
  - exact Hh.
  - cbn [data_text row new_row]. rewrite L. do 3 f_equal.
    assert (J : jp = JObject [ (lit "end_date", match end_date with
                                                 | Some t => JString t
                                                 | None => JNull
                                                 end);
                               (lit "entry_count", JNumber (str_of_Z n));
                               (lit "format", JString (lit "CSV"));
                               (lit "proof_hash", JString h);
                               (lit "start_date", match start_date with
                                                   | Some t => JString t
                                                   | None => JNull
                                                   end) ]).
    { destruct start_date, end_date; cbn in Hp; apply Ok_inj in Hp; subst jp; reflexivity. }
    subst jp. cbn [norm List.map fst snd].
    rewrite (decoded_plain h (hex_plain h Hh)).
    replace (decoded (lit "end_date")) with (lit "end_date") by (vm_compute; reflexivity).
    replace (decoded (lit "entry_count")) with (lit "entry_count") by (vm_compute; reflexivity).
    replace (decoded (lit "format")) with (lit "format") by (vm_compute; reflexivity).
    replace (decoded (lit "proof_hash")) with (lit "proof_hash") by (vm_compute; reflexivity).
    replace (decoded (lit "start_date")) with (lit "start_date") by (vm_compute; reflexivity).
    replace (decoded (lit "CSV")) with (lit "CSV") by (vm_compute; reflexivity).
    destruct start_date, end_date; reflexivity.
Qed.

Lemma ledger_csv_export_logged_witness :
  rowids_ok chain1
  /\ exists row,
       snd csv_call = chain1 ++ [row]
       /\ action_type row = lit "export_ledger"
       /\ proof_rows None None (snd csv_call) = chain1 ++ [row].
Proof.
  split; [exact rowids_ok_chain1|].
  destruct (ledger_csv_export_logged
              {| config_name := lit "HydroHub Cantilan";
                 generated := lit "2024-03-02 08:00:00.000000+08:00";
                 export_now := lit "2024-03-02T00:00:00.000100";
                 log_env := env_at "2024-03-02T00:00:00.000900" |}
              None None (Some 1%Z) chain1
              (match fst csv_call with Ok t => t | Raise _ => [] end) (snd csv_call)
              rowids_ok_chain1 ltac:(vm_compute; reflexivity))
    as (row & h & E & T & _ & _ & P & _).
  exists row. split; [exact E|]. split; [exact T|]. rewrite P. f_equal.
Defined.

(** The writer on rows whose text [csv.writer] is known to write: an empty
    row, a lone empty field, empty fields beside others, fields with a
    quote, a comma, a line feed and a carriage return, integers, and a
    JSON text. *)
Example csv_writer_rows :
  List.flat_map writerow
    [ [];
      [IsStr []];
      [IsStr []; IsStr []];
      [IsStr (lit "a"); IsStr []];
      [IsStr (dq "a'b"); IsStr (lit "c,d"); IsStr (lit "e" ++ 10 :: lit "f");
       IsStr (lit "g" ++ 13 :: lit "h"); IsStr (lit " x "); IsInt 5; IsStr []; IsInt 0];
      [IsStr (dq "{'a':1,'b':'x'}")] ]
  = [13; 10]
    ++ dq "''" ++ [13; 10]
    ++ lit "," ++ [13; 10]
    ++ lit "a," ++ [13; 10]
    ++ dq "'a''b','c,d','e" ++ 10 :: dq "f','g" ++ 13 :: dq "h', x ,5,,0"
    ++ [13; 10]
    ++ dq "'{''a'':1,''b'':''x''}'" ++ [13; 10].
Proof. vm_compute. reflexivity. Qed.

(** ** The model against known values

    The digests below are those [hashlib] prints; the texts are those
    [json.dumps] and [json.loads] produce. *)

Example sha256_empty :
  SHA256.hexdigest []
  = lit "e3b0c44298fc1c149afbf4c8996fb92427ae41e4649b934ca495991b7852b855".
Proof. vm_compute. reflexivity. Qed.

Example sha256_abc :
  SHA256.hexdigest (lit "abc")
  = lit "ba7816bf8f01cfea414140de5dae2223b00361a396177a9cb410ff61f20015ad".
Proof. vm_compute. reflexivity. Qed.

Example sha256_two_blocks :
  SHA256.hexdigest (lit "abcdbcdecdefdefgefghfghighijhijkijkljklmklmnlmnomnopnopq")
  = lit "248d6a61d20638b8e5c026930c3e6039a33ce45964ff2167f6ecedd419db06c1".
Proof. vm_compute. reflexivity. Qed.

Example round_constants :
  List.firstn 4 SHA256.K = [0x428a2f98; 0x71374491; 0xb5c0fbcf; 0xe9b5dba5]
  /\ List.length SHA256.K = 64%nat.
Proof. split; reflexivity. Qed.

(** The peso sign U+20B1 takes three bytes. *)
Example utf8_peso : utf8_encode [8369] = Ok [226; 130; 177].
Proof. reflexivity. Qed.

Example utf8_lone_surrogate : utf8_encode [0xD800] = Raise UnicodeEncodeError.
Proof. reflexivity. Qed.

Example dumps_sorted_keys :
  json_dumps (PDict [ (key "payload", PDict [ (key "b", PFloat (FFinite false 25 [] None));
                                              (key "a", PList [PInt 1; PNone; PBool true]) ]);
                      (key "action_type", PStr (lit "expense")) ])
  = Ok (dq "{'action_type':'expense','payload':{'a':[1,null,true],'b':25.0}}").
Proof. vm_compute. reflexivity. Qed.

Example dumps_escapes :
  json_dumps (PStr [8369; 34; 10; 128512; 127])
  = Ok (dq "'\u20b1\'\n\ud83d\ude00\u007f'").
Proof. vm_compute. reflexivity. Qed.

Example dumps_mixed_keys :
  json_dumps (PDict [(KeyInt 1, PInt 2); (key "a", PInt 3)]) = Raise TypeError.
Proof. reflexivity. Qed.

Example dumps_number_keys :
  json_dumps (PDict [(KeyInt 10, PInt 1); (KeyInt 2, PInt 3); (KeyBool true, PNone)])
  = Ok (dq "{'true':null,'2':3,'10':1}").
Proof. vm_compute. reflexivity. Qed.

Example loads_document :
  json_loads (dq " [1, 2.5e-3 , -0, 'a\n\ud83d\ude00', {}, { 'k' : null } ] ")
  = Some (JArray [ JNumber (lit "1"); JNumber (lit "2.5e-3"); JNumber (lit "-0");
                   JString [97; 10; 128512]; JObject [];
                   JObject [(lit "k", JNull)] ]).
Proof. vm_compute. reflexivity. Qed.

Example loads_rejects :
  json_loads (dq "01") = None /\ json_loads (dq "[1,]") = None
  /\ json_loads (dq "{'a':1,}") = None /\ json_loads (dq "'abc") = None.
Proof. repeat split; reflexivity. Qed.

Example loads_scalars :
  json_loads (dq "5") = Some (JNumber (lit "5"))
  /\ json_loads (dq "NaN") = Some (JNumber (lit "NaN"))
  /\ json_loads (dq "-Infinity") = Some (JNumber (lit "-Infinity"))
  /\ json_loads (dq "null") = Some JNull.
Proof. repeat split; reflexivity. Qed.

(** The three entries of [chain3], as the source computes them. *)
Example chain3_digests :
  List.map data_hash chain3
  = [ lit "23a035b030e66b4fb25a468333d5beffb36a5c2c56658381ec6ad6d7ad67b353";
      lit "615d69a7dc40858448b8031355ad1e17a136e82e58c96805d8b304b1560a37af";
      lit "d99b18861a1710f8c75c4b36b1f53e815b5f1e5f590a5d7f0264fd76d7258521" ].
Proof. vm_compute. reflexivity. Qed.

Example chain3_second_text :
  data_text entry2
  = dq "{'action_type':'expense','human_message':'Expense: Fuel','payload':{'amount':120.5,'category':'Fuel','expense_id':1},'timestamp':'2024-03-01T09:30:00.000500Z'}".
Proof. vm_compute. reflexivity. Qed.
